(** * Veo Batch Studio: job store, scheduler and generation service

    A shallow embedding of the TypeScript sources

      - [types.ts]                   (module [Types])
      - [services/geminiService.ts]  (module [GeminiService])
      - [components/JobForm.tsx]     (module [JobForm])
      - [components/JobQueue.tsx]    (module [JobQueue])
      - [App.tsx]                    (module [App])

    followed by the properties of the job queue scheduler.

    Conventions.  A JavaScript string is the [string] of the bytes of its
    UTF-8 encoding (concatenation, substring search and splitting at an
    ASCII character agree with the operations on code units; a code point
    outside ASCII takes two to four bytes); numbers that hold timestamps
    or counters are [Z]; an optional property ([f?: T], or a value that
    may be [null]/[undefined]) is an [option]; the React state array
    [jobs] is a [list Job] in insertion order. *)

From Stdlib Require Import List String Ascii ZArith Bool Lia Arith.
From Stdlib Require Import DecimalString DecimalZ.
Import ListNotations.
Local Open Scope string_scope.
Local Open Scope list_scope.

(* ===================================================================== *)
(** ** JavaScript helpers *)
(* ===================================================================== *)

Module Js.

(** [s.includes(needle)]. *)
Fixpoint includes (s needle : string) : bool :=
  if String.prefix needle s then true
  else match s with
       | EmptyString => false
       | String _ s' => includes s' needle
       end.

(** Truthiness of a possibly-undefined string: [undefined] and [''] are
    falsy.  [truthy x] is [Some s] exactly when [x] is a non-empty
    string. *)
Definition truthy (x : option string) : option string :=
  match x with
  | Some EmptyString => None
  | other => other
  end.

(** [x || dflt] on strings. *)
Definition or_else (x : option string) (dflt : string) : string :=
  match truthy x with
  | Some s => s
  | None => dflt
  end.

(** The string of the given bytes. *)
Definition ofBytes (bytes : list nat) : string :=
  fold_right (fun n s => String (ascii_of_nat n) s) EmptyString bytes.

(** The code points [String.prototype.trim] removes, each in its UTF-8
    encoding: the WhiteSpace code points (TAB, VT, FF, ZWNBSP and the
    space separators of category Zs) and the LineTerminator code points
    (LF, CR, LS, PS). *)
Definition whiteSpace : list string :=
  Eval vm_compute in
  map ofBytes
    [ [9]; [10]; [11]; [12]; [13];     (* U+0009 TAB .. U+000D CR *)
      [32];                            (* U+0020 SPACE *)
      [194; 160];                      (* U+00A0 NO-BREAK SPACE *)
      [225; 154; 128];                 (* U+1680 OGHAM SPACE MARK *)
      [226; 128; 128];                 (* U+2000 EN QUAD *)
      [226; 128; 129];                 (* U+2001 EM QUAD *)
      [226; 128; 130];                 (* U+2002 EN SPACE *)
      [226; 128; 131];                 (* U+2003 EM SPACE *)
      [226; 128; 132];                 (* U+2004 THREE-PER-EM SPACE *)
      [226; 128; 133];                 (* U+2005 FOUR-PER-EM SPACE *)
      [226; 128; 134];                 (* U+2006 SIX-PER-EM SPACE *)
      [226; 128; 135];                 (* U+2007 FIGURE SPACE *)
      [226; 128; 136];                 (* U+2008 PUNCTUATION SPACE *)
      [226; 128; 137];                 (* U+2009 THIN SPACE *)
      [226; 128; 138];                 (* U+200A HAIR SPACE *)
      [226; 128; 168];                 (* U+2028 LINE SEPARATOR *)
      [226; 128; 169];                 (* U+2029 PARAGRAPH SEPARATOR *)
      [226; 128; 175];                 (* U+202F NARROW NO-BREAK SPACE *)
      [226; 129; 159];                 (* U+205F MEDIUM MATHEMATICAL SPACE *)
      [227; 128; 128];                 (* U+3000 IDEOGRAPHIC SPACE *)
      [239; 187; 191] ].               (* U+FEFF ZERO WIDTH NO-BREAK SPACE *)

(** [c] is one such code point. *)
Definition isWhiteSpace (c : string) : bool :=
  existsb (String.eqb c) whiteSpace.

(** [s.trimStart()]: the leading code points of [s] are removed as long
    as they are white space; such a code point takes one, two or three
    bytes. *)
Fixpoint trimStart (s : string) : string :=
  match s with
  | EmptyString => EmptyString
  | String a s1 =>
      if isWhiteSpace (String a EmptyString) then trimStart s1
      else
        match s1 with
        | EmptyString => s
        | String b s2 =>
            if isWhiteSpace (String a (String b EmptyString)) then trimStart s2
            else
              match s2 with
              | EmptyString => s
              | String c s3 =>
                  if isWhiteSpace (String a (String b (String c EmptyString)))
                  then trimStart s3
                  else s
              end
        end
  end.

(** [s.trimEnd()]: [s] is cut where nothing but white space follows. *)
Fixpoint trimEnd (s : string) : string :=
  match s with
  | EmptyString => EmptyString
  | String a s1 =>
      if (trimStart s =? EmptyString)%string then EmptyString
      else String a (trimEnd s1)
  end.

Fixpoint rev_append (s acc : string) : string :=
  match s with
  | EmptyString => acc
  | String c s' => rev_append s' (String c acc)
  end.

Definition reverse (s : string) : string := rev_append s EmptyString.

(** [s.trim()]. *)
Definition trim (s : string) : string := trimEnd (trimStart s).

(** [s.split(',')]. *)
Fixpoint split_go (sep : ascii) (s cur : string) : list string :=
  match s with
  | EmptyString => [reverse cur]
  | String c s' =>
      if Ascii.eqb c sep then reverse cur :: split_go sep s' EmptyString
      else split_go sep s' (String c cur)
  end.

Definition split (sep : ascii) (s : string) : list string :=
  split_go sep s EmptyString.

(** Template-literal rendering of a non-negative integer. *)
Definition of_nat (n : nat) : string :=
  NilEmpty.string_of_uint (Nat.to_uint n).

(** A thrown value, observed only through its [message] property. *)
Record Error := mkError { message : option string }.

Definition newError (msg : string) : Error := {| message := Some msg |}.

(** Template-literal rendering of an integer. *)
Definition of_Z (z : Z) : string :=
  NilEmpty.string_of_int (Z.to_int z).

Fixpoint replicate (n : nat) (c : ascii) : string :=
  match n with
  | O => EmptyString
  | S n' => String c (replicate n' c)
  end.

(** [s.padStart(targetLength, c)] for a one-character filler [c]. *)
Definition padStart (targetLength : nat) (c : ascii) (s : string) : string :=
  (replicate (targetLength - String.length s) c ++ s)%string.

End Js.

(* ===================================================================== *)
(** ** types.ts *)
(* ===================================================================== *)

Module Types.

Inductive JobStatus := IDLE | PENDING | PROCESSING | COMPLETED | FAILED.
Inductive InputType := TEXT | IMAGE.
Inductive VeoModel := FAST | QUALITY.
Inductive AspectRatio := Landscape_16_9 | Portrait_9_16.
Inductive Resolution := R720p | R1080p.

(** A browser [File]: the scheduler only looks at its name and MIME
    type; its contents are read through the environment. *)
Record File := mkFile { file_name : string; file_type : string }.

Record Job := mkJob {
  id : string;
  createdAt : Z;
  status : JobStatus;
  prompt : string;
  inputType : InputType;
  model : VeoModel;
  aspectRatio : AspectRatio;
  resolution : Resolution;
  imageFile : option File;
  videoUri : option string;
  error : option string;
  progress : option Z;
  startTime : option Z;
  progressMessage : option string
}.

(** [Partial<Job>]: which own properties the object literal carries.
    For the optional properties of [Job] the carried value may itself be
    [undefined] (as in [duplicateJob]), hence the nested option. *)
Record PartialJob := mkPartial {
  p_id : option string;
  p_createdAt : option Z;
  p_status : option JobStatus;
  p_prompt : option string;
  p_inputType : option InputType;
  p_model : option VeoModel;
  p_aspectRatio : option AspectRatio;
  p_resolution : option Resolution;
  p_imageFile : option (option File);
  p_videoUri : option (option string);
  p_error : option (option string);
  p_progress : option (option Z);
  p_startTime : option (option Z);
  p_progressMessage : option (option string)
}.

Definition JobStatus_eqb (a b : JobStatus) : bool :=
  match a, b with
  | IDLE, IDLE | PENDING, PENDING | PROCESSING, PROCESSING
  | COMPLETED, COMPLETED | FAILED, FAILED => true
  | _, _ => false
  end.

Definition InputType_eqb (a b : InputType) : bool :=
  match a, b with
  | TEXT, TEXT | IMAGE, IMAGE => true
  | _, _ => false
  end.

(** [{ ...j, ...updates }]. *)
Definition over {A} (old : A) (new : option A) : A :=
  match new with Some v => v | None => old end.

Definition spread (j : Job) (u : PartialJob) : Job :=
  {| id := over (id j) (p_id u);
     createdAt := over (createdAt j) (p_createdAt u);
     status := over (status j) (p_status u);
     prompt := over (prompt j) (p_prompt u);
     inputType := over (inputType j) (p_inputType u);
     model := over (model j) (p_model u);
     aspectRatio := over (aspectRatio j) (p_aspectRatio u);
     resolution := over (resolution j) (p_resolution u);
     imageFile := over (imageFile j) (p_imageFile u);
     videoUri := over (videoUri j) (p_videoUri u);
     error := over (error j) (p_error u);
     progress := over (progress j) (p_progress u);
     startTime := over (startTime j) (p_startTime u);
     progressMessage := over (progressMessage j) (p_progressMessage u) |}.

(** The empty object literal [{}]. *)
Definition noFields : PartialJob :=
  mkPartial None None None None None None None None None None None None None None.

End Types.

Import Types.

(* ===================================================================== *)
(** ** services/geminiService.ts *)
(* ===================================================================== *)

Module GeminiService.

(** *** The SDK's data, as far as the service touches it *)

Record Image := mkImage {
  imageBytes : option string;
  mimeType : string
}.

Record GenerateVideosConfig := mkConfig {
  numberOfVideos : Z;
  cfg_aspectRatio : AspectRatio;
  cfg_resolution : Resolution
}.

Record GenerateVideosParameters := mkParams {
  req_model : VeoModel;
  req_prompt : option string;
  req_image : option Image;
  req_config : GenerateVideosConfig
}.

Record Video := mkVideo { uri : option string }.
Record GeneratedVideo := mkGenerated { video : option Video }.
Record GenerateVideosResponse := mkResponse {
  generatedVideos : option (list GeneratedVideo)
}.

Record Operation := mkOperation {
  done : bool;
  op_error : option Js.Error;
  response : option GenerateVideosResponse
}.

(** *** The environment of one call

    What the outside world answers during one run of
    [generateVideoForJob]: the value of [process.env.API_KEY], what the
    [FileReader] produces for a file ([None]: its [onerror] fires), what
    [ai.models.generateVideos] answers, and the successive answers of
    [ai.operations.getVideosOperation]. *)
Record Env := mkEnv {
  API_KEY : option string;
  readAsDataURL : File -> option string;
  generateVideos : GenerateVideosParameters -> Js.Error + Operation;
  polls : list (Js.Error + Operation)
}.

(** *** Asynchronous computations

    A run yields the calls it made on the outside world, in order, and
    how it ended.  [Suspended] is a run still awaiting an answer when the
    environment's script ends. *)
Inductive Effect :=
| OnProgress (msg : string)
| ReadFile (file : File)
| GenerateVideos (params : GenerateVideosParameters)
| GetVideosOperation (operation : Operation).

Inductive Outcome (A : Type) :=
| Resolved (a : A)
| Rejected (e : Js.Error)
| Suspended.
Arguments Resolved {A} a.
Arguments Rejected {A} e.
Arguments Suspended {A}.

Definition Async (A : Type) : Type := (list Effect * Outcome A)%type.

Definition ret {A} (a : A) : Async A := ([], Resolved a).
Definition throw {A} (e : Js.Error) : Async A := ([], Rejected e).
Definition suspended {A} : Async A := ([], Suspended).
Definition perform (eff : Effect) : Async unit := ([eff], Resolved tt).

Definition bind {A B} (m : Async A) (k : A -> Async B) : Async B :=
  match m with
  | (t, Resolved a) => let (t', o) := k a in (t ++ t', o)
  | (t, Rejected e) => (t, Rejected e)
  | (t, Suspended) => (t, Suspended)
  end.

Notation "x <- m ;; k" := (bind m (fun x => k))
  (at level 61, m at next level, right associativity).
Notation "m ;; k" := (bind m (fun _ => k))
  (at level 61, right associativity).

Definition await {A} (answer : Js.Error + A) : Async A :=
  match answer with
  | inl e => throw e
  | inr a => ret a
  end.

(** *** fileToBas64 *)

(** The [FileReader] rejects with a [ProgressEvent], which carries no
    [message]. *)
Definition progressEvent : Js.Error := {| Js.message := None |}.

Definition fileToBas64 (env : Env) (file : File) : Async (option string) :=
  perform (ReadFile file) ;;
  match readAsDataURL env file with
  | Some result => ret (nth_error (Js.split "," result) 1)
  | None => throw progressEvent
  end.

(** *** generateVideoForJob *)

(** [operation.response?.generatedVideos?.[0]?.video?.uri]. *)
Definition responseUri (operation : Operation) : option string :=
  match response operation with
  | None => None
  | Some r =>
      match generatedVideos r with
      | None => None
      | Some vs =>
          match nth_error vs 0 with
          | None => None
          | Some g =>
              match video g with
              | None => None
              | Some v => uri v
              end
          end
      end
  end.

(** The polling loop [while (!operation.done)], one answer of the
    environment per iteration. *)
Fixpoint poll (answers : list (Js.Error + Operation)) (attempts : nat)
         (operation : Operation) {struct answers} : Async Operation :=
  if done operation then ret operation
  else
    let attempts := S attempts in
    let elapsed := (attempts * (5000 / 1000))%nat in
    perform (OnProgress ("Generating video... (" ++ Js.of_nat elapsed ++ "s elapsed)")%string) ;;
    perform (GetVideosOperation operation) ;;
    match answers with
    | [] => suspended
    | answer :: rest =>
        operation <- await answer ;;
        poll rest attempts operation
    end.

Definition generateVideoForJob (env : Env) (job : Job) : Async string :=
  match Js.truthy (API_KEY env) with
  | None => throw (Js.newError "API Key not found. Please select a key.")
  | Some apiKey =>
      let commonConfig :=
        {| numberOfVideos := 1;
           cfg_aspectRatio := aspectRatio job;
           cfg_resolution := R720p |} in
      perform (OnProgress "Uploading input data...") ;;
      operation <-
        match inputType job, imageFile job with
        | IMAGE, Some file =>
            base64Image <- fileToBas64 env file ;;
            perform (OnProgress "Sending generation request...") ;;
            let params :=
              {| req_model := model job;
                 req_prompt := Js.truthy (Some (prompt job));
                 req_image := Some {| imageBytes := base64Image;
                                      mimeType := file_type file |};
                 req_config := commonConfig |} in
            perform (GenerateVideos params) ;;
            await (generateVideos env params)
        | _, _ =>
            perform (OnProgress "Sending generation request...") ;;
            let params :=
              {| req_model := model job;
                 req_prompt := Some (prompt job);
                 req_image := None;
                 req_config := commonConfig |} in
            perform (GenerateVideos params) ;;
            await (generateVideos env params)
        end ;;
      operation <- poll (polls env) 0 operation ;;
      perform (OnProgress "Finalizing download...") ;;
      match op_error operation with
      | Some e =>
          throw (Js.newError
                   (Js.or_else (Js.message e)
                               "Unknown error during video generation"))
      | None =>
          match Js.truthy (responseUri operation) with
          | None => throw (Js.newError "No video URI returned from API")
          | Some videoUri => ret (videoUri ++ "&key=" ++ apiKey)%string
          end
      end
  end.

(** The progress messages of a run, and the requests it submitted. *)
Definition progressOf (t : list Effect) : list string :=
  flat_map (fun e => match e with OnProgress m => [m] | _ => [] end) t.

Definition submittedOf (t : list Effect) : list GenerateVideosParameters :=
  flat_map (fun e => match e with GenerateVideos p => [p] | _ => [] end) t.

End GeminiService.

(* ===================================================================== *)
(** ** components/JobForm.tsx *)
(* ===================================================================== *)

Module JobForm.

(** The form's React state.  [quantity] is [parseInt] of the input
    field: [None] stands for [NaN]. *)
Record FormState := mkForm {
  f_prompt : string;
  f_inputType : InputType;
  f_model : VeoModel;
  f_aspectRatio : AspectRatio;
  f_quantity : option Z;
  f_imageFile : option File
}.

(** Number of iterations of [for (let i = 0; i < quantity; i++)]. *)
Definition iterations (quantity : option Z) : nat :=
  match quantity with
  | Some q => Z.to_nat q
  | None => 0
  end.

Definition newJob (f : FormState) (uuid : string) (now : Z) : Job :=
  {| id := uuid;
     createdAt := now;
     status := IDLE;
     prompt := f_prompt f;
     inputType := f_inputType f;
     model := f_model f;
     aspectRatio := f_aspectRatio f;
     resolution := R720p;
     imageFile := f_imageFile f;
     videoUri := None;
     error := None;
     progress := None;
     startTime := None;
     progressMessage := None |}.

(** [handleSubmit]: the jobs handed to [onAddJob], in order.  [fresh]
    holds the results of the successive [uuidv4()] and [Date.now()]
    calls. *)
Definition handleSubmit (f : FormState) (fresh : list (string * Z)) : list Job :=
  if InputType_eqb (f_inputType f) TEXT && (Js.trim (f_prompt f) =? "")%string then []
  else if InputType_eqb (f_inputType f) IMAGE
          && match f_imageFile f with None => true | Some _ => false end then []
  else map (fun '(uuid, now) => newJob f uuid now)
           (firstn (iterations (f_quantity f)) fresh).

(** [handleSubmit]: the form's state once the handler has returned.  A
    rejected submission returns before the reset; an accepted one clears
    the prompt and the image and keeps the configuration. *)
Definition afterSubmit (f : FormState) : FormState :=
  if InputType_eqb (f_inputType f) TEXT && (Js.trim (f_prompt f) =? "")%string then f
  else if InputType_eqb (f_inputType f) IMAGE
          && match f_imageFile f with None => true | Some _ => false end then f
  else {| f_prompt := "";
          f_inputType := f_inputType f;
          f_model := f_model f;
          f_aspectRatio := f_aspectRatio f;
          f_quantity := f_quantity f;
          f_imageFile := None |}.

End JobForm.

(* ===================================================================== *)
(** ** components/JobQueue.tsx *)
(* ===================================================================== *)

Module JobQueue.

(** The condition under which a job's card renders its "Remove Job"
    button. *)
Definition rendersRemoveButton (job : Job) : bool :=
  JobStatus_eqb (status job) IDLE
  || JobStatus_eqb (status job) FAILED
  || JobStatus_eqb (status job) COMPLETED.

(** A click on the remove control of the [k]-th card: the argument passed
    to [onRemoveJob], if the card exists and renders the button. *)
Definition clickRemove (jobs : list Job) (k : nat) : option string :=
  match nth_error jobs k with
  | Some job => if rendersRemoveButton job then Some (id job) else None
  | None => None
  end.

(** A click on the duplicate button of the [k]-th card: the argument
    passed to [onDuplicateJob]. *)
Definition clickDuplicate (jobs : list Job) (k : nat) : option Job :=
  nth_error jobs k.

(** [ElapsedTimer]: the value the effect stores in [elapsed] at time
    [now].  Without a (truthy) [startTime] the effect returns at once and
    [elapsed] keeps its initial value 0. *)
Definition elapsedAt (startTime : option Z) (now : Z) : Z :=
  match startTime with
  | None => 0
  | Some t => if (t =? 0)%Z then 0 else ((now - t) / 1000)%Z
  end.

(** [formatTime]: [Math.floor] of the quotient is [Z.div], and [%] is the
    truncating remainder [Z.rem]. *)
Definition formatTime (seconds : Z) : string :=
  let mins := (seconds / 60)%Z in
  let secs := Z.rem seconds 60 in
  (Js.of_Z mins ++ ":" ++ Js.padStart 2 "0" (Js.of_Z secs))%string.

(** The text the timer of a card shows at time [now]. *)
Definition timerText (job : Job) (now : Z) : string :=
  formatTime (elapsedAt (startTime job) now).

End JobQueue.

(* ===================================================================== *)
(** ** App.tsx *)
(* ===================================================================== *)

Module App.

Import GeminiService.

Definition MAX_CONCURRENT_JOBS : nat := 4.

(** *** The job store: the updaters handed to [setJobs] *)

Definition addJob (job : Job) (prev : list Job) : list Job :=
  prev ++ [job].

Definition removeJob (id : string) (prev : list Job) : list Job :=
  filter (fun j => negb (Types.id j =? id)%string) prev.

Definition duplicated (job : Job) (uuid : string) (now : Z) : Job :=
  spread job
    {| p_id := Some uuid;
       p_createdAt := Some now;
       p_status := Some IDLE;
       p_prompt := None;
       p_inputType := None;
       p_model := None;
       p_aspectRatio := None;
       p_resolution := None;
       p_imageFile := None;
       p_videoUri := Some None;
       p_error := Some None;
       p_progress := None;
       p_startTime := Some None;
       p_progressMessage := Some None |}.

Definition duplicateJob (job : Job) (uuid : string) (now : Z)
           (prev : list Job) : list Job :=
  prev ++ [duplicated job uuid now].

Definition updateJob (id : string) (updates : PartialJob)
           (prev : list Job) : list Job :=
  map (fun j => if (Types.id j =? id)%string then spread j updates else j) prev.

(** *** The object literals passed to [updateJob] by [processQueue] *)

Definition started (now : Z) : PartialJob :=
  {| p_id := None; p_createdAt := None;
     p_status := Some PROCESSING;
     p_prompt := None; p_inputType := None; p_model := None;
     p_aspectRatio := None; p_resolution := None; p_imageFile := None;
     p_videoUri := None; p_error := None; p_progress := None;
     p_startTime := Some (Some now);
     p_progressMessage := Some (Some "Initializing...") |}.

Definition progressed (progressMessage : string) : PartialJob :=
  {| p_id := None; p_createdAt := None; p_status := None;
     p_prompt := None; p_inputType := None; p_model := None;
     p_aspectRatio := None; p_resolution := None; p_imageFile := None;
     p_videoUri := None; p_error := None; p_progress := None;
     p_startTime := None;
     p_progressMessage := Some (Some progressMessage) |}.

Definition completed (videoUri : string) : PartialJob :=
  {| p_id := None; p_createdAt := None;
     p_status := Some COMPLETED;
     p_prompt := None; p_inputType := None; p_model := None;
     p_aspectRatio := None; p_resolution := None; p_imageFile := None;
     p_videoUri := Some (Some videoUri);
     p_error := None; p_progress := None; p_startTime := None;
     p_progressMessage := Some (Some "Completed") |}.

Definition failed (errorMessage : string) : PartialJob :=
  {| p_id := None; p_createdAt := None;
     p_status := Some FAILED;
     p_prompt := None; p_inputType := None; p_model := None;
     p_aspectRatio := None; p_resolution := None; p_imageFile := None;
     p_videoUri := None;
     p_error := Some (Some errorMessage);
     p_progress := None; p_startTime := None;
     p_progressMessage := None |}.

(** *** Component state *)

Record State := mkState {
  jobs : list Job;
  apiKeyReady : bool;
  isQueueRunning : bool
}.

Definition setJobs (f : list Job -> list Job) (s : State) : State :=
  {| jobs := f (jobs s);
     apiKeyReady := apiKeyReady s;
     isQueueRunning := isQueueRunning s |}.

Definition setApiKeyReady (b : bool) (s : State) : State :=
  {| jobs := jobs s; apiKeyReady := b; isQueueRunning := isQueueRunning s |}.

Definition setIsQueueRunning (b : bool) (s : State) : State :=
  {| jobs := jobs s; apiKeyReady := apiKeyReady s; isQueueRunning := b |}.

Definition initialState : State :=
  {| jobs := []; apiKeyReady := false; isQueueRunning := false |}.

(** *** processQueue *)

Definition isProcessing (j : Job) : bool := JobStatus_eqb (status j) PROCESSING.
Definition isIdle (j : Job) : bool := JobStatus_eqb (status j) IDLE.

(** Steps 1 and 2: the concurrency check and the choice of [nextJob]. *)
Definition nextJob (jobs : list Job) : option Job :=
  let processingCount := List.length (filter isProcessing jobs) in
  if (MAX_CONCURRENT_JOBS <=? processingCount)%nat then None
  else find isIdle jobs.

(** Step 3, the synchronous part of a launch. *)
Definition start (job : Job) (now : Z) (s : State) : State :=
  setJobs (updateJob (id job) (started now)) s.

(** The progress callback handed to [generateVideoForJob]. *)
Definition onProgress (jobId : string) (progressMessage : string) (s : State) : State :=
  setJobs (updateJob jobId (progressed progressMessage)) s.

(** The continuation after [await generateVideoForJob(...)]. *)
Definition onResolved (jobId : string) (videoUri : string) (s : State) : State :=
  setJobs (updateJob jobId (completed videoUri)) s.

Definition looksLikeKeyError (errorMessage : string) : bool :=
  Js.includes errorMessage "Requested entity was not found"
  || Js.includes errorMessage "API key".

(** The [catch] block. *)
Definition onRejected (jobId : string) (error : Js.Error) (s : State) : State :=
  let errorMessage := Js.or_else (Js.message error) "Unknown error" in
  if looksLikeKeyError errorMessage then
    setJobs (updateJob jobId
               (failed "API Key Invalid or Expired. Please select key again."))
      (setIsQueueRunning false (setApiKeyReady false s))
  else
    setJobs (updateJob jobId (failed errorMessage)) s.

(** *** Computed stats *)

Record Stats := mkStats {
  stat_total : nat;
  stat_completed : nat;
  stat_failed : nat;
  stat_pending : nat
}.

Definition stats (jobs : list Job) : Stats :=
  {| stat_total := List.length jobs;
     stat_completed :=
       List.length (filter (fun j => JobStatus_eqb (status j) COMPLETED) jobs);
     stat_failed :=
       List.length (filter (fun j => JobStatus_eqb (status j) FAILED) jobs);
     stat_pending :=
       List.length (filter (fun j => JobStatus_eqb (status j) IDLE
                                     || JobStatus_eqb (status j) PROCESSING) jobs) |}.

End App.

(* ===================================================================== *)
(** ** The running application *)
(* ===================================================================== *)

(** The component together with its surroundings: the generations that
    [processQueue] has started and whose callbacks are still to run, and
    the identifiers [uuidv4] has handed out so far.

    JavaScript runs one handler at a time, so every event below is one
    atomic step.  After each change of [jobs] React renders again and the
    effect re-installs the timer with a closure over the new array, so a
    firing of the timer reads the store as the previous step left it, and
    the cards of the queue show that same store.  The callbacks of a
    started generation (progress reports, then the settlement of the
    promise) are delivered one per step, in the order the service issues
    them, interleaved freely with everything else. *)

Module System.

Import GeminiService App.

(** A started [generateVideoForJob]: the [jobId] its callbacks close
    over, the progress messages it will still report, and how the
    promise settles. *)
Record Flight := mkFlight {
  flight_jobId : string;
  flight_progress : list string;
  flight_outcome : Outcome string
}.

Record World := mkWorld {
  component : State;
  inflight : list Flight;
  issued : list string
}.

Definition initialWorld : World :=
  {| component := initialState; inflight := []; issued := [] |}.

(** What can happen: [checkApiKey] finishes after mounting;
    the "Select API Key" button is pressed; the form is submitted (with
    the values the successive [uuidv4()] and [Date.now()] calls return);
    the remove or the duplicate control of the [k]-th card is clicked; the
    start/pause button is pressed; the timer fires (at time [now], the
    generation it may start running against [env]); the next callback of
    the generation started for [jobId] runs. *)
Inductive Event :=
| Mounted (hasKey : bool)
| SelectKey (canOpen : bool)
| Submit (form : JobForm.FormState) (fresh : list (string * Z))
| ClickRemove (k : nat)
| ClickDuplicate (k : nat) (uuid : string) (now : Z)
| ToggleQueue
| Tick (now : Z) (env : Env)
| Deliver (jobId : string).

Inductive Callback :=
| Progress (msg : string)
| Fulfil (videoUri : string)
| Reject (error : Js.Error).

(** The next callback of the generation started for [jobId], and the
    generations left once it has run. *)
Fixpoint nextCallback (jobId : string) (fs : list Flight)
  : option (Callback * list Flight) :=
  match fs with
  | [] => None
  | f :: rest =>
      if (flight_jobId f =? jobId)%string then
        match flight_progress f, flight_outcome f with
        | msg :: more, o =>
            Some (Progress msg,
                  {| flight_jobId := flight_jobId f;
                     flight_progress := more;
                     flight_outcome := o |} :: rest)
        | [], Resolved v => Some (Fulfil v, rest)
        | [], Rejected e => Some (Reject e, rest)
        | [], Suspended => None
        end
      else
        match nextCallback jobId rest with
        | Some (c, rest') => Some (c, f :: rest')
        | None => None
        end
  end.

Definition runCallback (jobId : string) (c : Callback) (s : State) : State :=
  match c with
  | Progress msg => onProgress jobId msg s
  | Fulfil videoUri => onResolved jobId videoUri s
  | Reject error => onRejected jobId error s
  end.

(** One firing of the interval timer.  The effect installs the timer
    only while the queue runs and the key is ready. *)
Definition tick (now : Z) (env : Env) (w : World) : World :=
  if isQueueRunning (component w) && apiKeyReady (component w) then
    match nextJob (jobs (component w)) with
    | None => w
    | Some job =>
        let '(trace, outcome) := generateVideoForJob env job in
        {| component := start job now (component w);
           inflight := inflight w ++
                       [ {| flight_jobId := id job;
                            flight_progress := progressOf trace;
                            flight_outcome := outcome |} ];
           issued := issued w |}
    end
  else w.

Definition withApp (f : State -> State) (w : World) : World :=
  {| component := f (component w); inflight := inflight w; issued := issued w |}.

(** The form, the queue and the start/pause button are on screen only
    while [apiKeyReady] holds; otherwise the component renders the key
    selection screen alone. *)
Definition step (w : World) (e : Event) : World :=
  match e with
  | Mounted hasKey =>
      if hasKey then withApp (setApiKeyReady true) w else w
  | SelectKey canOpen =>
      if negb (apiKeyReady (component w)) && canOpen
      then withApp (setApiKeyReady true) w else w
  | Submit form fresh =>
      if apiKeyReady (component w) then
        let added := JobForm.handleSubmit form fresh in
        {| component := setJobs (fun prev => fold_left (fun p j => addJob j p) added prev) (component w);
           inflight := inflight w;
           issued := issued w ++ map id added |}
      else w
  | ClickRemove k =>
      if apiKeyReady (component w) then
        match JobQueue.clickRemove (jobs (component w)) k with
        | Some jobId => withApp (setJobs (removeJob jobId)) w
        | None => w
        end
      else w
  | ClickDuplicate k uuid now =>
      if apiKeyReady (component w) then
        match JobQueue.clickDuplicate (jobs (component w)) k with
        | Some job =>
            {| component := setJobs (duplicateJob job uuid now) (component w);
               inflight := inflight w;
               issued := issued w ++ [uuid] |}
        | None => w
        end
      else w
  | ToggleQueue =>
      if apiKeyReady (component w)
      then withApp (setIsQueueRunning (negb (isQueueRunning (component w)))) w
      else w
  | Tick now env => tick now env w
  | Deliver jobId =>
      match nextCallback jobId (inflight w) with
      | Some (c, rest) =>
          {| component := runCallback jobId c (component w);
             inflight := rest;
             issued := issued w |}
      | None => w
      end
  end.

(** [uuidv4] never returns the same identifier twice. *)
Definition admissible (w : World) (e : Event) : Prop :=
  match e with
  | Submit _ fresh =>
      NoDup (map fst fresh) /\ forall u, In u (map fst fresh) -> ~ In u (issued w)
  | ClickDuplicate _ uuid _ => ~ In uuid (issued w)
  | _ => True
  end.

Inductive reachable : World -> Prop :=
| reachable_initial : reachable initialWorld
| reachable_step w e :
    reachable w -> admissible w e -> reachable (step w e).

Definition run (w : World) (es : list Event) : World := fold_left step es w.

(** Admissibility of a whole sequence of events from [w]. *)
Fixpoint admissibleAll (w : World) (es : list Event) : Prop :=
  match es with
  | [] => True
  | e :: es' => admissible w e /\ admissibleAll (step w e) es'
  end.

End System.

Import GeminiService App System.

(* ===================================================================== *)
(** ** Vocabulary of the statements *)
(* ===================================================================== *)

(** *** The store *)

Definition ids (l : list Job) : list string := map id l.

Definition processingCount (l : list Job) : nat :=
  List.length (filter isProcessing l).

(** [l1] is [l2] with some elements left out, order kept. *)
Inductive Subseq {A : Type} : list A -> list A -> Prop :=
| Subseq_nil : Subseq [] []
| Subseq_skip x l1 l2 : Subseq l1 l2 -> Subseq l1 (x :: l2)
| Subseq_take x l1 l2 : Subseq l1 l2 -> Subseq (x :: l1) (x :: l2).

(** *** The invariant of the running application *)

(** A job's result fields agree with its status. *)
Definition wellFormed (j : Job) : Prop :=
  match status j with
  | IDLE | PROCESSING => videoUri j = None /\ error j = None
  | PENDING => False
  | COMPLETED => videoUri j <> None /\ error j = None
  | FAILED => videoUri j = None /\ error j <> None
  end.

(** [l] is the store, [fl] the identifiers of the generations in flight,
    [iss] the identifiers handed out so far. *)
Record StoreInv (l : list Job) (fl iss : list string) : Prop := {
  inv_nodup : NoDup (ids l);
  inv_issued : incl (ids l) iss;
  inv_flights_nodup : NoDup fl;
  inv_flights_stored : incl fl (ids l);
  inv_settled : forall j, In j l -> status j <> PROCESSING -> ~ In (id j) fl;
  inv_fields : forall j, In j l -> wellFormed j;
  inv_cap : processingCount l <= MAX_CONCURRENT_JOBS
}.

Definition flightIds (w : World) : list string := map flight_jobId (inflight w).

Definition Inv (w : World) : Prop :=
  StoreInv (jobs (component w)) (flightIds w) (issued w).

(** Launch order: while the job named [a] is idle in the store, the job
    named [b], if present, is idle too and stands behind it. *)
Definition Ordered (a b : string) (l : list Job) : Prop :=
  forall ja jb, In ja l -> In jb l -> id ja = a -> id jb = b ->
    status ja = IDLE ->
    status jb = IDLE /\ exists la lb lc, l = la ++ ja :: lb ++ jb :: lc.

(** *** Callbacks *)

(** The object literal a callback hands to [updateJob]. *)
Definition surfaced (error : Js.Error) : string :=
  let errorMessage := Js.or_else (Js.message error) "Unknown error" in
  if looksLikeKeyError errorMessage
  then "API Key Invalid or Expired. Please select key again."
  else errorMessage.

Definition updatesOf (c : Callback) : PartialJob :=
  match c with
  | Progress msg => progressed msg
  | Fulfil videoUri => completed videoUri
  | Reject error => failed (surfaced error)
  end.

(** *** The generation service *)

(** The request built for a job: the model, the prompt (dropped when empty
    in image mode), the image when the job is an image job that carries a
    file, the job's aspect ratio, one video, and the resolution 720p. *)
Definition requestMatches (env : Env) (job : Job) (p : GenerateVideosParameters) : Prop :=
  req_model p = model job /\
  cfg_aspectRatio (req_config p) = aspectRatio job /\
  numberOfVideos (req_config p) = 1%Z /\
  cfg_resolution (req_config p) = R720p /\
  match inputType job, imageFile job with
  | IMAGE, Some file =>
      req_prompt p = Js.truthy (Some (prompt job)) /\
      exists result,
        readAsDataURL env file = Some result /\
        req_image p = Some {| imageBytes := nth_error (Js.split "," result) 1;
                              mimeType := file_type file |}
  | _, _ =>
      req_prompt p = Some (prompt job) /\ req_image p = None
  end.

(** The three phases of [generateVideoForJob] after the key check, named
    for the proofs: building and sending the request, polling, and
    reading the finished operation. *)
Definition requestPhase (env : Env) (job : Job) : Async Operation :=
  let commonConfig :=
    {| numberOfVideos := 1;
       cfg_aspectRatio := aspectRatio job;
       cfg_resolution := R720p |} in
  match inputType job, imageFile job with
  | IMAGE, Some file =>
      base64Image <- fileToBas64 env file ;;
      perform (OnProgress "Sending generation request...") ;;
      let params :=
        {| req_model := model job;
           req_prompt := Js.truthy (Some (prompt job));
           req_image := Some {| imageBytes := base64Image;
                                mimeType := file_type file |};
           req_config := commonConfig |} in
      perform (GenerateVideos params) ;;
      await (generateVideos env params)
  | _, _ =>
      perform (OnProgress "Sending generation request...") ;;
      let params :=
        {| req_model := model job;
           req_prompt := Some (prompt job);
           req_image := None;
           req_config := commonConfig |} in
      perform (GenerateVideos params) ;;
      await (generateVideos env params)
  end.

Definition resultPhase (apiKey : string) (operation : Operation) : Async string :=
  perform (OnProgress "Finalizing download...") ;;
  match op_error operation with
  | Some e =>
      throw (Js.newError
               (Js.or_else (Js.message e)
                           "Unknown error during video generation"))
  | None =>
      match Js.truthy (responseUri operation) with
      | None => throw (Js.newError "No video URI returned from API")
      | Some videoUri => ret (videoUri ++ "&key=" ++ apiKey)%string
      end
  end.

(** *** Scenarios *)

(** Concrete environments, jobs and runs used to exercise the statements
    below. *)

Module Scenario.

Definition waiting : Operation :=
  {| done := false; op_error := None; response := None |}.

Definition finished (uri : string) : Operation :=
  {| done := true; op_error := None;
     response := Some {| generatedVideos :=
                           Some [ {| video := Some {| GeminiService.uri := Some uri |} |} ] |} |}.

(** A remote side that accepts the request and finishes on the second
    poll. *)
Definition healthy : Env :=
  {| API_KEY := Some "SECRET";
     readAsDataURL := fun _ => Some "data:image/png;base64,iVBORw0KGgo=";
     generateVideos := fun _ => inr waiting;
     polls := [inr waiting; inr (finished "https://video.example/v1?alt=media")] |}.

(** No key in [process.env.API_KEY]. *)
Definition keyless : Env :=
  {| API_KEY := None;
     readAsDataURL := fun _ => None;
     generateVideos := fun _ => inr waiting;
     polls := [] |}.

(** The request is refused with a server-side message. *)
Definition refusing (msg : string) : Env :=
  {| API_KEY := Some "SECRET";
     readAsDataURL := fun _ => None;
     generateVideos := fun _ => inl (Js.newError msg);
     polls := [] |}.

(** The remote side never finishes within the script. *)
Definition stalled : Env :=
  {| API_KEY := Some "SECRET";
     readAsDataURL := fun _ => None;
     generateVideos := fun _ => inr waiting;
     polls := [] |}.

Definition textForm (quantity : Z) : JobForm.FormState :=
  {| JobForm.f_prompt := "a lighthouse at dusk";
     JobForm.f_inputType := TEXT;
     JobForm.f_model := FAST;
     JobForm.f_aspectRatio := Landscape_16_9;
     JobForm.f_quantity := Some quantity;
     JobForm.f_imageFile := None |}.

Definition imageForm : JobForm.FormState :=
  {| JobForm.f_prompt := "";
     JobForm.f_inputType := IMAGE;
     JobForm.f_model := FAST;
     JobForm.f_aspectRatio := Portrait_9_16;
     JobForm.f_quantity := Some 1%Z;
     JobForm.f_imageFile :=
       Some {| file_name := "frame.png"; file_type := "image/png" |} |}.

Definition six : list (string * Z) :=
  [("j1", 101); ("j2", 102); ("j3", 103); ("j4", 104); ("j5", 105); ("j6", 106)]%Z.

(** Six jobs are queued and the timer fires six times while the remote
    side stalls. *)
Definition saturate : list Event :=
  [ SelectKey true; Submit (textForm 6) six; ToggleQueue;
    Tick 201 stalled; Tick 202 stalled; Tick 203 stalled;
    Tick 204 stalled; Tick 205 stalled; Tick 206 stalled ].

(** One job runs to completion. *)
Definition complete_first : list Event :=
  [ SelectKey true; Submit (textForm 2) (firstn 2 six); ToggleQueue;
    Tick 201 healthy;
    Deliver "j1"; Deliver "j1"; Deliver "j1"; Deliver "j1";
    Deliver "j1"; Deliver "j1" ].

Ltac distinct := repeat constructor; simpl; intuition discriminate.

End Scenario.

(** A failure whose error has no message: the [FileReader] fails on the
    image of an image job. *)
Definition unreadable : Env :=
  {| API_KEY := Some "SECRET";
     readAsDataURL := fun _ => None;
     generateVideos := fun _ => inr Scenario.waiting;
     polls := [] |}.

Definition imageJob : Job :=
  {| id := "j1"; createdAt := 101; status := PROCESSING;
     prompt := ""; inputType := IMAGE; model := FAST;
     aspectRatio := Portrait_9_16; resolution := R720p;
     imageFile := Some {| file_name := "frame.png"; file_type := "image/png" |};
     videoUri := None; error := None; progress := None;
     startTime := Some 201%Z; progressMessage := Some "Uploading input data..." |}.

(** *** Further vocabulary: histories, counters, composition *)

Definition idleCount (l : list Job) : nat :=
  List.length (filter isIdle l).

(** The fields no handler ever writes after creation. *)
Definition sameParameters (j j' : Job) : Prop :=
  id j' = id j /\
  createdAt j' = createdAt j /\
  prompt j' = prompt j /\
  inputType j' = inputType j /\
  model j' = model j /\
  aspectRatio j' = aspectRatio j /\
  resolution j' = resolution j /\
  imageFile j' = imageFile j /\
  progress j' = progress j.

Definition settled (j : Job) : Prop :=
  status j = COMPLETED \/ status j = FAILED.

(** [j'] is a later state of the job [j]. *)
Definition follows (j j' : Job) : Prop :=
  sameParameters j j' /\
  (startTime j <> None -> startTime j' = startTime j) /\
  (status j <> IDLE -> status j' <> IDLE) /\
  (settled j -> j' = j).

(** Two object literals spread one after the other: [{ ...u1, ...u2 }]. *)
Definition later {A} (first second : option A) : option A :=
  match second with
  | Some v => Some v
  | None => first
  end.

Definition mergeUpdates (u1 u2 : PartialJob) : PartialJob :=
  {| p_id := later (p_id u1) (p_id u2);
     p_createdAt := later (p_createdAt u1) (p_createdAt u2);
     p_status := later (p_status u1) (p_status u2);
     p_prompt := later (p_prompt u1) (p_prompt u2);
     p_inputType := later (p_inputType u1) (p_inputType u2);
     p_model := later (p_model u1) (p_model u2);
     p_aspectRatio := later (p_aspectRatio u1) (p_aspectRatio u2);
     p_resolution := later (p_resolution u1) (p_resolution u2);
     p_imageFile := later (p_imageFile u1) (p_imageFile u2);
     p_videoUri := later (p_videoUri u1) (p_videoUri u2);
     p_error := later (p_error u1) (p_error u2);
     p_progress := later (p_progress u1) (p_progress u2);
     p_startTime := later (p_startTime u1) (p_startTime u2);
     p_progressMessage := later (p_progressMessage u1) (p_progressMessage u2) |}.

(** The scheduler may start a job only while the queue runs and the key
    is ready. *)
Definition gateOpen (s : State) : bool := isQueueRunning s && apiKeyReady s.

(** The events by which the user can open that gate. *)
Definition opensGate (e : Event) : bool :=
  match e with
  | ToggleQueue => true
  | Mounted hasKey => hasKey
  | SelectKey canOpen => canOpen
  | _ => false
  end.

(** Firings of the timer with nothing in between. *)
Definition firings (ts : list (Z * Env)) : list Event :=
  map (fun '(now, env) => Tick now env) ts.

(** Reading back what [formatTime] shows: minutes and seconds around the
    colon. *)
Definition parseTime (text : string) : option Z :=
  match Js.split ":" text with
  | [m; sec] =>
      match NilEmpty.int_of_string m, NilEmpty.int_of_string sec with
      | Some a, Some b => Some (Z.of_int a * 60 + Z.of_int b)%Z
      | _, _ => None
      end
  | _ => None
  end.

(** No occurrence of the character [c] in [s]. *)
Fixpoint lacksb (c : ascii) (s : string) : bool :=
  match s with
  | EmptyString => true
  | String a s' => negb (Ascii.eqb a c) && lacksb c s'
  end.

Definition lacks (c : ascii) (s : string) : Prop := lacksb c s = true.

(** Only white space, or nothing at all: a sequence of code points that
    are all white space. *)
Inductive blank : string -> Prop :=
| blank_nothing : blank ""
| blank_more c s : Js.isWhiteSpace c = true -> blank s -> blank (c ++ s)%string.

(** What the form requires before it creates jobs: a prompt with something
    in it for a text job, an image for an image job. *)
Definition acceptable (f : JobForm.FormState) : Prop :=
  match JobForm.f_inputType f with
  | TEXT => ~ blank (JobForm.f_prompt f)
  | IMAGE => JobForm.f_imageFile f <> None
  end.

(** The operations a run handed to [getVideosOperation], in order. *)
Definition polledOf (t : list Effect) : list Operation :=
  flat_map (fun e => match e with GetVideosOperation o => [o] | _ => [] end) t.

(** The first job of [Scenario.complete_first], right after the timer has
    started it and once its generation has been fulfilled. *)
Definition firstStarted : Job :=
  {| id := "j1"; createdAt := 101; status := PROCESSING;
     prompt := "a lighthouse at dusk"; inputType := TEXT; model := FAST;
     aspectRatio := Landscape_16_9; resolution := R720p;
     imageFile := None; videoUri := None; error := None; progress := None;
     startTime := Some 201%Z; progressMessage := Some "Initializing..." |}.

Definition firstCompleted : Job :=
  {| id := "j1"; createdAt := 101; status := COMPLETED;
     prompt := "a lighthouse at dusk"; inputType := TEXT; model := FAST;
     aspectRatio := Landscape_16_9; resolution := R720p;
     imageFile := None;
     videoUri := Some "https://video.example/v1?alt=media&key=SECRET";
     error := None; progress := None;
     startTime := Some 201%Z; progressMessage := Some "Completed" |}.

(** The text of the [k]-th progress report of the polling loop. *)
Definition pollingMessage (k : nat) : string :=
  ("Generating video... (" ++ Js.of_nat (5 * k) ++ "s elapsed)")%string.

(** *** Errors and their causes *)

(** The error by which the service reports that no credential is set. *)
Definition credentialMissing : Js.Error :=
  Js.newError "API Key not found. Please select a key.".

(** An authentication error, as far as the program can tell one: the
    service's own error for a missing credential, or an error whose text
    carries one of the two signatures by which the [catch] block detects
    an invalid or expired credential. *)
Definition authenticationError (e : Js.Error) : Prop :=
  e = credentialMissing \/
  looksLikeKeyError (Js.or_else (Js.message e) "Unknown error") = true.

(** A remote side that accepts the request, under a valid key, and
    reports a failed generation whose message happens to quote the words
    of a signature. *)
Definition promptRefused : Env :=
  {| API_KEY := Some "SECRET";
     readAsDataURL := fun _ => None;
     generateVideos := fun _ =>
       inr {| done := true;
              op_error := Some (Js.newError
                                  "Prompt rejected: it must not quote an API key");
              response := None |};
     polls := [] |}.

(** The operation the polling loop ends with when it starts on [first]:
    [first] itself when it is finished; otherwise the first finished
    operation among the answers to the polls, all answers before it being
    unfinished operations. *)
Definition endsWith (env : Env) (first final : Operation) : Prop :=
  done final = true /\
  (final = first \/
   (done first = false /\
    exists pending rest,
      polls env = map inr pending ++ inr final :: rest /\
      Forall (fun o => done o = false) pending)).

(** Why a run of [generateVideoForJob] for [job] in [env] fails with
    [e]. *)
Inductive FailureCause (env : Env) (job : Job) : Js.Error -> Prop :=
| NoKey :
    Js.truthy (API_KEY env) = None ->
    FailureCause env job (Js.newError "API Key not found. Please select a key.")
| ImageUnreadable apiKey file :
    Js.truthy (API_KEY env) = Some apiKey ->
    inputType job = IMAGE -> imageFile job = Some file ->
    readAsDataURL env file = None ->
    FailureCause env job progressEvent
| RequestRefused apiKey p e :
    Js.truthy (API_KEY env) = Some apiKey ->
    requestMatches env job p ->
    generateVideos env p = inl e ->
    FailureCause env job e
| PollFailed apiKey p first pending rest e :
    Js.truthy (API_KEY env) = Some apiKey ->
    requestMatches env job p ->
    generateVideos env p = inr first ->
    done first = false ->
    polls env = map inr pending ++ inl e :: rest ->
    Forall (fun o => done o = false) pending ->
    FailureCause env job e
| GenerationFailed apiKey p first final cause :
    Js.truthy (API_KEY env) = Some apiKey ->
    requestMatches env job p ->
    generateVideos env p = inr first ->
    endsWith env first final ->
    op_error final = Some cause ->
    FailureCause env job
      (Js.newError (Js.or_else (Js.message cause)
                               "Unknown error during video generation"))
| NoVideo apiKey p first final :
    Js.truthy (API_KEY env) = Some apiKey ->
    requestMatches env job p ->
    generateVideos env p = inr first ->
    endsWith env first final ->
    op_error final = None ->
    Js.truthy (responseUri final) = None ->
    FailureCause env job (Js.newError "No video URI returned from API").

(** *** Results *)

(** A generation in flight was started by the timer: it settles as
    [generateVideoForJob] does for a job with its [jobId] in some
    environment. *)
Definition launched (f : Flight) : Prop :=
  exists env job,
    flight_jobId f = id job /\
    flight_outcome f = snd (generateVideoForJob env job).

(** [v] is the video URI of a finished operation of [env] (the answer to
    the request or to one of the polls) followed by [&key=] and the
    non-empty API key of [env]; in particular it is not the bare URI. *)
Definition embedsKey (env : Env) (v : string) : Prop :=
  exists apiKey operation uri,
    API_KEY env = Some apiKey /\ apiKey <> "" /\
    ((exists p, generateVideos env p = inr operation) \/
     In (inr operation) (polls env)) /\
    done operation = true /\
    responseUri operation = Some uri /\ uri <> "" /\
    v = (uri ++ "&key=" ++ apiKey)%string /\
    v <> uri.

(* ===================================================================== *)
(** ** The job store *)
(* ===================================================================== *)

Section Store.

Implicit Types (j : Job) (l prev : list Job) (u : PartialJob) (i : string).

Lemma JobStatus_eqb_spec a b : reflect (a = b) (JobStatus_eqb a b).
Proof. destruct a, b; simpl; constructor; congruence. Qed.

Lemma isProcessing_true j : isProcessing j = true <-> status j = PROCESSING.
Proof. unfold isProcessing. destruct (JobStatus_eqb_spec (status j) PROCESSING); split; congruence. Qed.

Lemma isIdle_true j : isIdle j = true <-> status j = IDLE.
Proof. unfold isIdle. destruct (JobStatus_eqb_spec (status j) IDLE); split; congruence. Qed.

Lemma processingCount_app l1 l2 :
  processingCount (l1 ++ l2) = processingCount l1 + processingCount l2.
Proof. unfold processingCount. now rewrite filter_app, length_app. Qed.

Lemma processingCount_cons j l :
  processingCount (j :: l) = (if isProcessing j then 1 else 0) + processingCount l.
Proof. unfold processingCount. simpl. now destruct (isProcessing j). Qed.

(** *** addJob *)

Lemma addJob_fold added prev :
  fold_left (fun p j => addJob j p) added prev = prev ++ added.
Proof.
  revert prev. induction added as [|a added IH]; intros prev; simpl.
  - now rewrite app_nil_r.
  - rewrite IH. unfold addJob. now rewrite <- app_assoc.
Qed.

(** *** removeJob *)

Lemma removeJob_In i j l : In j (removeJob i l) <-> In j l /\ id j <> i.
Proof.
  unfold removeJob. rewrite filter_In, negb_true_iff.
  destruct (String.eqb_spec (id j) i); intuition congruence.
Qed.

Lemma removeJob_ids_incl i l x : In x (ids (removeJob i l)) -> In x (ids l).
Proof.
  unfold ids. rewrite !in_map_iff. intros (j & <- & Hj).
  apply removeJob_In in Hj. exists j. tauto.
Qed.

Lemma removeJob_NoDup i l : NoDup (ids l) -> NoDup (ids (removeJob i l)).
Proof.
  unfold ids, removeJob. induction l as [|a l IH]; simpl; intros H; [constructor|].
  inversion H as [|? ? Hin Hnd]; subst.
  destruct (negb (id a =? i)%string); simpl; auto.
  constructor; auto. intros Hc. apply Hin.
  now apply (removeJob_ids_incl i l).
Qed.

Lemma removeJob_count i l : processingCount (removeJob i l) <= processingCount l.
Proof.
  unfold removeJob. induction l as [|a l IH]; simpl; [lia|].
  destruct (negb (id a =? i)%string); rewrite ?processingCount_cons;
    destruct (isProcessing a); lia.
Qed.

(** *** updateJob *)

Lemma updateJob_In i u l j' :
  In j' (updateJob i u l) <->
  exists j, In j l /\ j' = (if (id j =? i)%string then spread j u else j).
Proof.
  unfold updateJob. rewrite in_map_iff. split; intros (j & H1 & H2).
  - exists j. split; [exact H2 | now symmetry].
  - exists j. split; [now symmetry | exact H1].
Qed.

Lemma updateJob_length i u l : List.length (updateJob i u l) = List.length l.
Proof. apply length_map. Qed.

Lemma updateJob_app i u l1 l2 :
  updateJob i u (l1 ++ l2) = updateJob i u l1 ++ updateJob i u l2.
Proof. apply map_app. Qed.

(** An update aimed at an identifier that is not in the store changes
    nothing. *)
Lemma updateJob_absent i u l : ~ In i (ids l) -> updateJob i u l = l.
Proof.
  unfold updateJob, ids. induction l as [|a l IH]; simpl; intros H; [reflexivity|].
  destruct (String.eqb_spec (id a) i) as [E|E].
  - exfalso. apply H. now left.
  - f_equal. apply IH. intros Hc. apply H. now right.
Qed.

(** With distinct identifiers an update rewrites one position. *)
Lemma updateJob_at i u l1 j l2 :
  NoDup (ids (l1 ++ j :: l2)) -> id j = i ->
  updateJob i u (l1 ++ j :: l2) = l1 ++ spread j u :: l2.
Proof.
  intros Hnd Hi. unfold ids in Hnd. rewrite map_app in Hnd. simpl in Hnd.
  pose proof (NoDup_remove_2 _ _ _ Hnd) as Hout.
  rewrite in_app_iff in Hout.
  rewrite updateJob_app. simpl.
  rewrite (updateJob_absent i u l1), (updateJob_absent i u l2).
  - subst i. now rewrite String.eqb_refl.
  - unfold ids. rewrite <- Hi. tauto.
  - unfold ids. rewrite <- Hi. tauto.
Qed.

Lemma updateJob_ids i u l : p_id u = None -> ids (updateJob i u l) = ids l.
Proof.
  intros Hu. unfold ids, updateJob. rewrite map_map. apply map_ext.
  intros a. destruct (id a =? i)%string; [|reflexivity].
  simpl. now rewrite Hu.
Qed.

Lemma updateJob_count_le i u l :
  p_status u <> Some PROCESSING ->
  processingCount (updateJob i u l) <= processingCount l.
Proof.
  intros Hu. induction l as [|a l IH]; simpl; [lia|].
  rewrite !processingCount_cons.
  destruct (id a =? i)%string; [|lia].
  assert (isProcessing (spread a u) = true -> isProcessing a = true) as H.
  { rewrite !isProcessing_true. simpl. destruct (p_status u) as [s|]; simpl; congruence. }
  destruct (isProcessing (spread a u)); [rewrite H by reflexivity|]; lia.
Qed.

Lemma updateJob_count_S i u l :
  NoDup (ids l) ->
  processingCount (updateJob i u l) <= S (processingCount l).
Proof.
  intros Hnd. destruct (in_dec string_dec i (ids l)) as [Hin|Hout].
  - unfold ids in Hin. apply in_map_iff in Hin. destruct Hin as (j & Hj & Hin).
    apply in_split in Hin. destruct Hin as (l1 & l2 & ->).
    rewrite updateJob_at by assumption.
    rewrite !processingCount_app, !processingCount_cons.
    destruct (isProcessing (spread j u)), (isProcessing j); lia.
  - rewrite updateJob_absent by assumption. lia.
Qed.

End Store.

(* ===================================================================== *)
(** ** The scheduling decision *)
(* ===================================================================== *)

Section Selection.

Lemma find_first {A} (p : A -> bool) (l : list A) (x : A) :
  find p l = Some x ->
  exists l1 l2, l = l1 ++ x :: l2 /\ p x = true /\ Forall (fun y => p y = false) l1.
Proof.
  induction l as [|a l IH]; simpl; [discriminate|].
  destruct (p a) eqn:Ha.
  - intros [= ->]. exists [], l. repeat split; auto.
  - intros H. destruct (IH H) as (l1 & l2 & -> & Hx & Hl1).
    exists (a :: l1), l2. repeat split; auto.
Qed.

Lemma find_none_all {A} (p : A -> bool) (l : list A) :
  find p l = None -> Forall (fun y => p y = false) l.
Proof.
  induction l as [|a l IH]; simpl; [constructor|].
  destruct (p a) eqn:Ha; [discriminate|]. intros H. constructor; auto.
Qed.

(** What [nextJob] returns: nothing when the cap is reached or no job is
    idle; otherwise the idle job with no idle job before it. *)
Lemma nextJob_Some (l : list Job) (j : Job) :
  nextJob l = Some j ->
  processingCount l < MAX_CONCURRENT_JOBS /\
  exists l1 l2, l = l1 ++ j :: l2 /\ status j = IDLE /\
                Forall (fun y => status y <> IDLE) l1.
Proof.
  unfold nextJob. fold (processingCount l).
  destruct (Nat.leb_spec MAX_CONCURRENT_JOBS (processingCount l)) as [Hc|Hc];
    [discriminate|].
  intros H. split; [assumption|].
  destruct (find_first _ _ _ H) as (l1 & l2 & -> & Hj & Hl1).
  exists l1, l2. split; [reflexivity|]. split; [now apply isIdle_true|].
  eapply Forall_impl; [|exact Hl1]. intros y Hy Hi.
  apply isIdle_true in Hi. congruence.
Qed.

Lemma nextJob_None (l : list Job) :
  nextJob l = None ->
  MAX_CONCURRENT_JOBS <= processingCount l \/ Forall (fun y => status y <> IDLE) l.
Proof.
  unfold nextJob. fold (processingCount l).
  destruct (Nat.leb_spec MAX_CONCURRENT_JOBS (processingCount l)) as [Hc|Hc];
    [now left|].
  intros H. right. apply find_none_all in H.
  eapply Forall_impl; [|exact H]. intros y Hy Hi.
  apply isIdle_true in Hi. congruence.
Qed.

End Selection.

(* ===================================================================== *)
(** ** The invariant of the running application *)
(* ===================================================================== *)

Section Invariant.

Lemma status_dec (a b : JobStatus) : {a = b} + {a <> b}.
Proof. decide equality. Defined.

Lemma StoreInv_inflight_processing l fl iss j :
  StoreInv l fl iss -> In j l -> In (id j) fl ->
  status j = PROCESSING /\ videoUri j = None /\ error j = None.
Proof.
  intros H Hj Hfl.
  destruct (status_dec (status j) PROCESSING) as [E|E].
  - split; [assumption|]. pose proof (inv_fields _ _ _ H j Hj) as W.
    unfold wellFormed in W. now rewrite E in W.
  - exfalso. exact (inv_settled _ _ _ H j Hj E Hfl).
Qed.

Lemma StoreInv_update i u l fl fl' iss :
  StoreInv l fl iss ->
  p_id u = None ->
  NoDup fl' -> incl fl' (ids l) ->
  (forall x, x <> i -> In x fl' -> In x fl) ->
  (forall j, In j l -> id j = i ->
             wellFormed (spread j u) /\
             (status (spread j u) <> PROCESSING -> ~ In i fl')) ->
  processingCount (updateJob i u l) <= MAX_CONCURRENT_JOBS ->
  StoreInv (updateJob i u l) fl' iss.
Proof.
  intros H Hu Hnd Hiss Hfl Hj Hcap.
  constructor; rewrite ?updateJob_ids by assumption;
    try (apply H); try assumption.
  - intros j' Hin Hst. apply updateJob_In in Hin. destruct Hin as (j & Hin & ->).
    destruct (String.eqb_spec (id j) i) as [E|E].
    + destruct (Hj j Hin E) as [_ Hs]. simpl. rewrite Hu. simpl.
      rewrite E. now apply Hs.
    + intros Hc. apply Hfl in Hc; [|assumption].
      exact (inv_settled _ _ _ H j Hin Hst Hc).
  - intros j' Hin. apply updateJob_In in Hin. destruct Hin as (j & Hin & ->).
    destruct (String.eqb_spec (id j) i) as [E|E].
    + now apply Hj.
    + now apply H.
Qed.

Lemma StoreInv_append l added fl iss :
  StoreInv l fl iss ->
  NoDup (ids added) ->
  (forall x, In x (ids added) -> ~ In x iss) ->
  (forall j, In j added ->
             status j = IDLE /\ videoUri j = None /\ error j = None) ->
  StoreInv (l ++ added) fl (iss ++ ids added).
Proof.
  intros H Hnd Hfresh Hidle.
  assert (incl fl iss) as Hfl.
  { intros x Hx. apply (inv_issued _ _ _ H). now apply (inv_flights_stored _ _ _ H). }
  constructor.
  - unfold ids. rewrite map_app. apply NoDup_app; [apply H | exact Hnd |].
    intros x Hx Hx'. apply (Hfresh x Hx'). now apply (inv_issued _ _ _ H).
  - unfold ids. rewrite map_app. intros x Hx. apply in_app_iff in Hx.
    apply in_app_iff. destruct Hx as [Hx|Hx]; [left|right]; auto.
    now apply (inv_issued _ _ _ H).
  - apply H.
  - intros x Hx. unfold ids. rewrite map_app. apply in_app_iff. left.
    now apply (inv_flights_stored _ _ _ H).
  - intros j Hj Hst. apply in_app_iff in Hj. destruct Hj as [Hj|Hj].
    + now apply (inv_settled _ _ _ H).
    + intros Hc. apply (Hfresh (id j)).
      * unfold ids. now apply in_map.
      * now apply Hfl.
  - intros j Hj. apply in_app_iff in Hj. destruct Hj as [Hj|Hj].
    + now apply H.
    + destruct (Hidle j Hj) as (Hs & Hv & He).
      unfold wellFormed. rewrite Hs. now split.
  - rewrite processingCount_app.
    assert (processingCount added = 0) as ->.
    { unfold processingCount. clear Hnd Hfresh.
      induction added as [|a added IH]; simpl; [reflexivity|].
      destruct (isProcessing a) eqn:Ea.
      - apply isProcessing_true in Ea.
        destruct (Hidle a (or_introl eq_refl)) as (Hs & _). congruence.
      - apply IH. intros j Hj. apply Hidle. now right. }
    pose proof (inv_cap _ _ _ H). lia.
Qed.

Lemma StoreInv_remove i l fl iss :
  StoreInv l fl iss -> ~ In i fl -> StoreInv (removeJob i l) fl iss.
Proof.
  intros H Hi. constructor; try apply H.
  - apply removeJob_NoDup, H.
  - intros x Hx. apply (inv_issued _ _ _ H). now apply (removeJob_ids_incl i).
  - intros x Hx. pose proof (inv_flights_stored _ _ _ H x Hx) as Hs.
    unfold ids in *. apply in_map_iff in Hs. destruct Hs as (j & <- & Hj).
    apply in_map. apply removeJob_In. split; [exact Hj|]. congruence.
  - intros j Hj. apply removeJob_In in Hj. now apply (inv_settled _ _ _ H).
  - intros j Hj. apply removeJob_In in Hj. now apply (inv_fields _ _ _ H).
  - pose proof (removeJob_count i l). pose proof (inv_cap _ _ _ H). lia.
Qed.

End Invariant.

Section Preservation.

Lemma firstn_In_incl {A} n (l : list A) x : In x (firstn n l) -> In x l.
Proof.
  intros H. rewrite <- (firstn_skipn n l). apply in_app_iff. now left.
Qed.

Lemma firstn_NoDup {A} n (l : list A) : NoDup l -> NoDup (firstn n l).
Proof.
  intros H. rewrite <- (firstn_skipn n l) in H.
  exact (NoDup_app_remove_r _ _ H).
Qed.

Lemma same_id_same_job (l : list Job) (a b : Job) :
  NoDup (ids l) -> In a l -> In b l -> id a = id b -> a = b.
Proof.
  unfold ids. induction l as [|c l IH]; simpl; [tauto|].
  intros Hnd Ha Hb E. inversion Hnd as [|? ? Hout Hnd']; subst.
  destruct Ha as [->|Ha], Hb as [->|Hb]; auto.
  - exfalso. apply Hout. rewrite E. now apply in_map.
  - exfalso. apply Hout. rewrite <- E. now apply in_map.
Qed.

(** *** JobForm *)

Lemma handleSubmit_shape f fresh :
  exists n, JobForm.handleSubmit f fresh =
            map (fun '(uuid, now) => JobForm.newJob f uuid now) (firstn n fresh).
Proof.
  unfold JobForm.handleSubmit.
  destruct (_ && _); [now exists 0|].
  destruct (_ && _); [now exists 0|].
  now eexists.
Qed.

Lemma handleSubmit_ids f fresh :
  exists n, ids (JobForm.handleSubmit f fresh) = firstn n (map fst fresh).
Proof.
  destruct (handleSubmit_shape f fresh) as (n & ->). exists n.
  unfold ids. rewrite map_map, firstn_map. apply map_ext. now intros [u t].
Qed.

Lemma handleSubmit_idle f fresh j :
  In j (JobForm.handleSubmit f fresh) ->
  status j = IDLE /\ videoUri j = None /\ error j = None /\ resolution j = R720p.
Proof.
  destruct (handleSubmit_shape f fresh) as (n & ->).
  rewrite in_map_iff. intros ([u t] & <- & _). now simpl.
Qed.

(** *** JobQueue *)

Lemma rendersRemoveButton_true job :
  JobQueue.rendersRemoveButton job = true <->
  status job = IDLE \/ status job = FAILED \/ status job = COMPLETED.
Proof.
  unfold JobQueue.rendersRemoveButton. destruct (status job); simpl;
    intuition congruence.
Qed.

Lemma clickRemove_Some l k i :
  JobQueue.clickRemove l k = Some i ->
  exists job, nth_error l k = Some job /\ status job <> PROCESSING /\ id job = i.
Proof.
  unfold JobQueue.clickRemove. destruct (nth_error l k) as [job|]; [|discriminate].
  destruct (JobQueue.rendersRemoveButton job) eqn:Hb; [|discriminate].
  intros [= <-]. exists job. repeat split; auto.
  apply rendersRemoveButton_true in Hb. intuition congruence.
Qed.

(** *** Callbacks *)

Lemma nextCallback_spec i fs c rest :
  nextCallback i fs = Some (c, rest) ->
  In i (map flight_jobId fs) /\
  (forall x, In x (map flight_jobId rest) -> In x (map flight_jobId fs)) /\
  (NoDup (map flight_jobId fs) ->
   NoDup (map flight_jobId rest) /\
   match c with
   | Progress _ => True
   | _ => ~ In i (map flight_jobId rest)
   end).
Proof.
  revert rest. induction fs as [|f fs IH]; simpl; intros rest; [discriminate|].
  destruct (String.eqb_spec (flight_jobId f) i) as [E|E].
  - destruct (flight_progress f) as [|msg more].
    + destruct (flight_outcome f); intros [= <- <-]; simpl;
        (split; [now left|]); (split; [now right|]);
        intros Hnd; inversion Hnd; subst; split; auto.
    + intros [= <- <-]. simpl. split; [now left|]. split; [auto|]. auto.
  - destruct (nextCallback i fs) as [[c' rest']|]; [|discriminate].
    intros [= <- <-]. destruct (IH rest' eq_refl) as (H1 & H2 & H3).
    simpl. split; [now right|]. split.
    + intros x [Hx|Hx]; [now left | right; auto].
    + intros Hnd. inversion Hnd as [|? ? Hout Hnd']; subst.
      destruct (H3 Hnd') as (H4 & H5). split.
      * constructor; auto.
      * destruct c'; auto; intros [Hc|Hc]; auto.
Qed.

Lemma runCallback_jobs i c s :
  jobs (runCallback i c s) = updateJob i (updatesOf c) (jobs s).
Proof.
  destruct c; simpl; try reflexivity.
  unfold onRejected, surfaced.
  now destruct (looksLikeKeyError _).
Qed.

Lemma updatesOf_keeps_id c : p_id (updatesOf c) = None.
Proof. now destruct c. Qed.

Lemma updatesOf_not_processing c : p_status (updatesOf c) <> Some PROCESSING.
Proof. destruct c; simpl; congruence. Qed.

(** *** Every event preserves the invariant *)

Lemma Inv_tick now env w : Inv w -> Inv (tick now env w).
Proof.
  unfold Inv, tick, flightIds. intros H.
  destruct (isQueueRunning (component w) && apiKeyReady (component w)); [|exact H].
  destruct (nextJob (jobs (component w))) as [job|] eqn:Hnext; [|exact H].
  destruct (generateVideoForJob env job) as [trace outcome]. simpl.
  apply nextJob_Some in Hnext.
  destruct Hnext as (Hlt & l1 & l2 & Hl & Hidle & _).
  assert (In job (jobs (component w))) as Hin
      by (rewrite Hl; apply in_elt).
  assert (~ In (id job) (map flight_jobId (inflight w))) as Hnew.
  { apply (inv_settled _ _ _ H job Hin). congruence. }
  rewrite map_app. simpl.
  eapply StoreInv_update; try exact H; try reflexivity.
  - apply NoDup_app; [apply H | repeat constructor; auto |].
    intros a Ha [<-|[]]. contradiction.
  - intros x Hx. apply in_app_iff in Hx. destruct Hx as [Hx|[<-|[]]].
    + now apply (inv_flights_stored _ _ _ H).
    + unfold ids. now apply in_map.
  - intros x Hne Hx. apply in_app_iff in Hx. destruct Hx as [Hx|[<-|[]]]; tauto.
  - intros j Hj E.
    assert (j = job) as -> by (eapply same_id_same_job; eauto; apply H).
    pose proof (inv_fields _ _ _ H job Hin) as W.
    unfold wellFormed in *. rewrite Hidle in W. simpl. split; [exact W|congruence].
  - pose proof (updateJob_count_S (id job) (started now) (jobs (component w))
                                  (inv_nodup _ _ _ H)).
    lia.
Qed.

Lemma Inv_deliver i w : Inv w -> Inv (step w (Deliver i)).
Proof.
  unfold Inv, flightIds. simpl. intros H.
  destruct (nextCallback i (inflight w)) as [[c rest]|] eqn:Hcb; [|exact H].
  simpl. rewrite runCallback_jobs.
  apply nextCallback_spec in Hcb. destruct Hcb as (Hi & Hsub & Hnd).
  destruct (Hnd (inv_flights_nodup _ _ _ H)) as (Hnd' & Hgone).
  eapply StoreInv_update; try exact H; auto using updatesOf_keeps_id.
  - intros x Hx. apply (inv_flights_stored _ _ _ H). auto.
  - intros j Hj E. rewrite <- E in Hi.
    destruct (StoreInv_inflight_processing _ _ _ _ H Hj Hi) as (Hs & Hv & He).
    unfold wellFormed.
    destruct c; simpl; rewrite ?Hs, ?Hv, ?He; simpl;
      (split; [split; congruence|]); congruence.
  - pose proof (updateJob_count_le i (updatesOf c) (jobs (component w))
                                   (updatesOf_not_processing c)).
    pose proof (inv_cap _ _ _ H). lia.
Qed.

Lemma Inv_step w e : Inv w -> admissible w e -> Inv (step w e).
Proof.
  intros H Ha. destruct e as [hasKey|canOpen|form fresh|k|k uuid now| |now env|i].
  - simpl. destruct hasKey; exact H.
  - simpl. destruct (_ && _); exact H.
  - simpl. destruct (apiKeyReady (component w)); [|exact H].
    unfold Inv, flightIds. simpl. rewrite addJob_fold.
    destruct Ha as (Hnd & Hfresh).
    destruct (handleSubmit_ids form fresh) as (n & Hids).
    apply StoreInv_append; [exact H | | | ].
    + rewrite Hids. now apply firstn_NoDup.
    + intros x Hx. apply Hfresh. rewrite Hids in Hx.
      now apply firstn_In_incl in Hx.
    + intros j Hj. apply handleSubmit_idle in Hj. tauto.
  - simpl. destruct (apiKeyReady (component w)); [|exact H].
    destruct (JobQueue.clickRemove _ k) as [i|] eqn:Hclick; [|exact H].
    apply StoreInv_remove; [exact H|].
    apply clickRemove_Some in Hclick.
    destruct Hclick as (job & Hk & Hst & <-).
    apply (inv_settled _ _ _ H job); [now apply nth_error_In in Hk | exact Hst].
  - simpl. destruct (apiKeyReady (component w)); [|exact H].
    destruct (JobQueue.clickDuplicate _ k) as [job|]; [|exact H].
    unfold Inv, flightIds. simpl. unfold duplicateJob.
    change (issued w ++ [uuid]) with (issued w ++ ids [duplicated job uuid now]).
    apply StoreInv_append; [exact H | | | ].
    + simpl. repeat constructor. auto.
    + simpl. intros x [<-|[]]. exact Ha.
    + intros j [<-|[]]. now simpl.
  - simpl. destruct (apiKeyReady (component w)); exact H.
  - now apply Inv_tick.
  - now apply Inv_deliver.
Qed.

Lemma Inv_initial : Inv initialWorld.
Proof.
  constructor; simpl; try constructor; try easy.
  unfold processingCount, MAX_CONCURRENT_JOBS. simpl. lia.
Qed.

Lemma reachable_Inv w : reachable w -> Inv w.
Proof.
  induction 1 as [|w e _ IH Ha]; [apply Inv_initial | now apply Inv_step].
Qed.

(** A run of admissible events from the initial world ends in a
    reachable world. *)
Lemma reachable_run w es :
  reachable w -> admissibleAll w es -> reachable (run w es).
Proof.
  revert w. induction es as [|e es IH]; simpl; intros w Hw Ha; [exact Hw|].
  destruct Ha as (Ha & Hrest). apply IH; [|exact Hrest].
  now apply reachable_step.
Qed.

End Preservation.

(* ===================================================================== *)
(** ** Scenarios *)
(* ===================================================================== *)

Lemma saturate_admissible : admissibleAll initialWorld Scenario.saturate.
Proof. simpl. repeat split; try Scenario.distinct. Qed.

Lemma complete_first_admissible : admissibleAll initialWorld Scenario.complete_first.
Proof. simpl. repeat split; try Scenario.distinct. Qed.

Example saturate_statuses :
  map status (jobs (component (run initialWorld Scenario.saturate))) =
  [PROCESSING; PROCESSING; PROCESSING; PROCESSING; IDLE; IDLE].
Proof. reflexivity. Qed.

Example complete_first_result :
  map (fun j => (status j, videoUri j))
      (jobs (component (run initialWorld Scenario.complete_first))) =
  [(COMPLETED, Some "https://video.example/v1?alt=media&key=SECRET"); (IDLE, None)].
Proof. reflexivity. Qed.


(* ===================================================================== *)
(** ** Properties of the scheduler *)
(* ===================================================================== *)

(** C1.  Whatever sequence of submissions, removals, duplications, timer
    firings and callbacks the application goes through, the store never
    holds more than [MAX_CONCURRENT_JOBS] jobs in status [PROCESSING], and
    that constant is 4.  (Every prefix of a run is a run, so the bound holds
    at every instant.) *)
Theorem concurrency_cap (es : list Event) :
  admissibleAll initialWorld es ->
  List.length (filter (fun j => JobStatus_eqb (status j) PROCESSING)
                      (jobs (component (run initialWorld es))))
  <= MAX_CONCURRENT_JOBS
  /\ MAX_CONCURRENT_JOBS = 4.
Proof.
  intros Ha. split; [|reflexivity].
  pose proof (reachable_run _ _ reachable_initial Ha) as Hr.
  exact (inv_cap _ _ _ (reachable_Inv _ Hr)).
Qed.

Lemma concurrency_cap_witness :
  admissibleAll initialWorld Scenario.saturate /\
  (List.length (filter (fun j => JobStatus_eqb (status j) PROCESSING)
                       (jobs (component (run initialWorld Scenario.saturate))))
   <= MAX_CONCURRENT_JOBS
   /\ MAX_CONCURRENT_JOBS = 4).
Proof.
  split.
  - exact saturate_admissible.
  - exact (concurrency_cap Scenario.saturate saturate_admissible).
Defined.

(** If the first idle job sits at the end of [l1] and an idle job [a] sits
    at the end of [la] in the same list, then everything behind [a] is
    also behind the first idle job. *)
Lemma behind_first_idle (l1 l2 la r : list Job) (j a : Job) :
  l1 ++ j :: l2 = la ++ a :: r ->
  Forall (fun y => status y <> IDLE) l1 ->
  status a = IDLE ->
  exists x, l2 = x ++ r.
Proof.
  intros E Hl1 Ha.
  apply app_eq_app in E. destruct E as (x & [(E1 & E2)|(E1 & E2)]).
  - destruct x as [|c x]; simpl in E2.
    + injection E2 as _ ->. now exists [].
    + injection E2 as <- _. exfalso.
      rewrite Forall_forall in Hl1. apply (Hl1 a); [|exact Ha].
      rewrite E1. apply in_elt.
  - destruct x as [|c x]; simpl in E2.
    + injection E2 as _ ->. now exists [].
    + injection E2 as _ ->. exists (x ++ [a]). now rewrite <- app_assoc.
Qed.

(** What one firing of the timer does to a reachable world. *)
Lemma tick_cases (w : World) (now : Z) (env : Env) :
  reachable w ->
  tick now env w = w \/
  exists l1 j l2 f,
    jobs (component w) = l1 ++ j :: l2 /\
    Forall (fun y => status y <> IDLE) l1 /\
    status j = IDLE /\
    jobs (component (tick now env w)) = l1 ++ spread j (started now) :: l2 /\
    inflight (tick now env w) = inflight w ++ [f] /\
    flight_jobId f = id j.
Proof.
  intros Hr. pose proof (reachable_Inv _ Hr) as H.
  unfold tick.
  destruct (isQueueRunning (component w) && apiKeyReady (component w)); [|now left].
  destruct (nextJob (jobs (component w))) as [job|] eqn:Hnext; [|now left].
  right. apply nextJob_Some in Hnext.
  destruct Hnext as (_ & l1 & l2 & Hl & Hidle & Hl1).
  destruct (generateVideoForJob env job) as [trace outcome]. simpl.
  exists l1, job, l2. eexists. repeat split; eauto.
  rewrite Hl. apply updateJob_at; [|reflexivity].
  rewrite <- Hl. apply H.
Qed.

(** *** Launch order along a run *)

Section LaunchOrder.

Variables a b : string.

Lemma Ordered_append l added :
  Ordered a b l ->
  (forall j, In j added -> id j <> a /\ id j <> b) ->
  Ordered a b (l ++ added).
Proof.
  intros H Hnew ja jb Hja Hjb Ea Eb Ha.
  apply in_app_iff in Hja. apply in_app_iff in Hjb.
  destruct Hja as [Hja|Hja]; [|destruct (Hnew ja Hja); contradiction].
  destruct Hjb as [Hjb|Hjb]; [|destruct (Hnew jb Hjb); contradiction].
  destruct (H ja jb Hja Hjb Ea Eb Ha) as (Hb & la & lb & lc & ->).
  split; [exact Hb|]. exists la, lb, (lc ++ added).
  now rewrite <- app_assoc; simpl; rewrite <- app_assoc.
Qed.

Lemma Ordered_remove i l : Ordered a b l -> Ordered a b (removeJob i l).
Proof.
  intros H ja jb Hja Hjb Ea Eb Ha.
  pose proof Hja as Ka. pose proof Hjb as Kb.
  apply removeJob_In in Ka. apply removeJob_In in Kb.
  destruct (H ja jb (proj1 Ka) (proj1 Kb) Ea Eb Ha) as (Hb & la & lb & lc & ->).
  split; [exact Hb|].
  exists (removeJob i la), (removeJob i lb), (removeJob i lc).
  unfold removeJob. rewrite filter_app. simpl.
  destruct (String.eqb_spec (id ja) i) as [E|_]; [destruct Ka; contradiction|].
  simpl. rewrite filter_app. simpl.
  destruct (String.eqb_spec (id jb) i) as [E|_]; [destruct Kb; contradiction|].
  reflexivity.
Qed.

Lemma Ordered_update i u l :
  Ordered a b l ->
  p_id u = None ->
  p_status u <> Some IDLE ->
  (forall ja jb, In ja l -> In jb l -> id ja = a -> id jb = b ->
                 status ja = IDLE -> status jb = IDLE -> i <> b) ->
  Ordered a b (updateJob i u l).
Proof.
  intros H Hid Hst Hother ja' jb' Hja Hjb Ea Eb Ha.
  apply updateJob_In in Hja. destruct Hja as (ja & Hja & ->).
  apply updateJob_In in Hjb. destruct Hjb as (jb & Hjb & ->).
  set (f := fun j => if (id j =? i)%string then spread j u else j).
  change (status (f ja) = IDLE) in Ha.
  change (id (f ja) = a) in Ea. change (id (f jb) = b) in Eb.
  change (status (f jb) = IDLE /\
          exists la lb lc, map f l = la ++ f ja :: lb ++ f jb :: lc).
  assert (forall j, id (f j) = id j) as Hfid.
  { intros j. unfold f. destruct (id j =? i)%string; [|reflexivity].
    simpl. now rewrite Hid. }
  assert (status ja = IDLE) as Ha0.
  { unfold f in Ha. destruct (id ja =? i)%string; [|exact Ha].
    simpl in Ha. destruct (p_status u) as [s|]; simpl in Ha; congruence. }
  rewrite Hfid in Ea, Eb.
  destruct (H ja jb Hja Hjb Ea Eb Ha0) as (Hb & la & lb & lc & Hl).
  split.
  - unfold f. destruct (String.eqb_spec (id jb) i) as [E|_]; [|exact Hb].
    exfalso. apply (Hother ja jb Hja Hjb Ea Eb Ha0 Hb). congruence.
  - exists (map f la), (map f lb), (map f lc).
    rewrite Hl. now rewrite map_app; simpl; rewrite map_app.
Qed.

Lemma Ordered_step (w : World) (e : Event) :
  Inv w -> admissible w e ->
  In a (issued w) -> In b (issued w) ->
  Ordered a b (jobs (component w)) ->
  Ordered a b (jobs (component (step w e))) /\
  In a (issued (step w e)) /\ In b (issued (step w e)).
Proof.
  intros H Hadm Ia Ib Ho.
  destruct e as [hasKey|canOpen|form fresh|k|k uuid now| |now env|i]; simpl.
  - destruct hasKey; auto.
  - destruct (_ && _); auto.
  - destruct (apiKeyReady (component w)); [|auto]. simpl.
    rewrite addJob_fold. destruct Hadm as (_ & Hfresh).
    split; [|split; apply in_app_iff; now left].
    apply Ordered_append; [exact Ho|].
    intros j Hj.
    assert (~ In (id j) (issued w)) as Hnot.
    { apply Hfresh. destruct (handleSubmit_ids form fresh) as (n & Hids).
      apply (firstn_In_incl n). rewrite <- Hids. unfold ids. now apply in_map. }
    split; congruence.
  - destruct (apiKeyReady (component w)); [|auto].
    destruct (JobQueue.clickRemove _ k); [|auto]. simpl.
    split; [now apply Ordered_remove | auto].
  - destruct (apiKeyReady (component w)); [|auto].
    destruct (JobQueue.clickDuplicate _ k) as [job|]; [|auto]. simpl.
    split; [|split; apply in_app_iff; now left].
    apply Ordered_append; [exact Ho|].
    intros j [<-|[]]. simpl in *. split; congruence.
  - destruct (apiKeyReady (component w)); auto.
  - split; [|unfold tick; destruct (_ && _); [|auto];
             destruct (nextJob _); [|auto];
             destruct (generateVideoForJob _ _); auto].
    unfold tick. destruct (_ && _); [|exact Ho].
    destruct (nextJob (jobs (component w))) as [job|] eqn:Hnext; [|exact Ho].
    destruct (generateVideoForJob env job) as [trace outcome]. simpl.
    apply nextJob_Some in Hnext.
    destruct Hnext as (_ & l1 & l2 & Hl & Hidle & Hl1).
    apply Ordered_update; [exact Ho | reflexivity | simpl; congruence |].
    intros ja jb Hja Hjb Ea Eb Ha Hb Ei.
    destruct (Ho ja jb Hja Hjb Ea Eb Ha) as (_ & la & lb & lc & Hl').
    assert (jb = job) as ->.
    { apply (same_id_same_job (jobs (component w))); try congruence; try apply H.
      rewrite Hl. apply in_elt. }
    rewrite Hl in Hl'.
    destruct (behind_first_idle _ _ _ _ _ _ Hl' Hl1 Ha) as (x & ->).
    pose proof (inv_nodup _ _ _ H) as Hnd. rewrite Hl in Hnd.
    unfold ids in Hnd. rewrite map_app in Hnd. simpl in Hnd.
    apply NoDup_remove_2 in Hnd. apply Hnd.
    apply in_app_iff. right. apply in_map.
    apply in_app_iff. right. apply in_app_iff. right. now left.
  - destruct (nextCallback i (inflight w)) as [[c rest]|] eqn:Hcb; [|auto]. simpl.
    split; [|auto]. rewrite runCallback_jobs.
    apply nextCallback_spec in Hcb. destruct Hcb as (Hi & _).
    apply Ordered_update; [exact Ho | apply updatesOf_keeps_id | destruct c; simpl; congruence |].
    intros ja jb Hja Hjb Ea Eb Ha Hb Ei. subst i. rewrite <- Eb in Hi.
    destruct (StoreInv_inflight_processing _ _ _ _ H Hjb Hi) as (Hs & _).
    congruence.
Qed.

Lemma Ordered_run (es : list Event) (w : World) :
  reachable w -> admissibleAll w es ->
  In a (issued w) -> In b (issued w) ->
  Ordered a b (jobs (component w)) ->
  Ordered a b (jobs (component (run w es))).
Proof.
  revert w. induction es as [|e es IH]; simpl; intros w Hr Hadm Ia Ib Ho; [exact Ho|].
  destruct Hadm as (Hadm & Hrest).
  destruct (Ordered_step w e (reachable_Inv _ Hr) Hadm Ia Ib Ho) as (Ho' & Ia' & Ib').
  apply IH; auto. now apply reachable_step.
Qed.

End LaunchOrder.

Lemma Ordered_here (w : World) (la lb lc : list Job) (a b : Job) :
  reachable w ->
  jobs (component w) = la ++ a :: lb ++ b :: lc ->
  status b = IDLE ->
  Ordered (id a) (id b) (jobs (component w)).
Proof.
  intros Hr Hl Hb ja jb Hja Hjb Ea Eb _.
  pose proof (inv_nodup _ _ _ (reachable_Inv _ Hr)) as Hnd.
  assert (ja = a) as ->.
  { apply (same_id_same_job _ _ _ Hnd Hja); [|exact Ea]. rewrite Hl. apply in_elt. }
  assert (jb = b) as ->.
  { apply (same_id_same_job _ _ _ Hnd Hjb); [|exact Eb].
    rewrite Hl. apply in_app_iff. right. right. apply in_elt. }
  split; [exact Hb|]. now exists la, lb, lc.
Qed.

(** C3.  One firing of the timer starts at most one generation: either the
    world is unchanged, or exactly one job changes, from [IDLE] to
    [PROCESSING], exactly one generation is started, for that job, and no
    idle job precedes it in the store (which keeps insertion order).
    Consequently, when [a] precedes [b] and both are idle, a firing of the
    timer does not start [b]: afterwards [b] is still in the store as it
    was, idle, with no generation in flight.  And along every further run
    of the application, as long as the job named as [a] is still idle in
    the store, the job named as [b] is idle too: [b] is never started
    before [a]. *)
Theorem tick_launches_first_idle (w : World) :
  reachable w ->
  (forall now env,
     tick now env w = w \/
     exists l1 j l2 f,
       jobs (component w) = l1 ++ j :: l2 /\
       Forall (fun y => status y <> IDLE) l1 /\
       status j = IDLE /\
       jobs (component (tick now env w)) = l1 ++ spread j (started now) :: l2 /\
       status (spread j (started now)) = PROCESSING /\
       inflight (tick now env w) = inflight w ++ [f] /\
       flight_jobId f = id j)
  /\
  (forall la a lb b lc,
     jobs (component w) = la ++ a :: lb ++ b :: lc ->
     status a = IDLE -> status b = IDLE ->
     (forall now env,
        In b (jobs (component (tick now env w))) /\
        ~ In (id b) (map flight_jobId (inflight (tick now env w))))
     /\
     (forall es, admissibleAll w es ->
        forall a' b',
          In a' (jobs (component (run w es))) ->
          In b' (jobs (component (run w es))) ->
          id a' = id a -> id b' = id b ->
          status a' = IDLE -> status b' = IDLE)).
Proof.
  intros Hr. split.
  - intros now env.
    destruct (tick_cases w now env Hr) as [E|(l1 & j & l2 & f & H)]; [now left|].
    right. exists l1, j, l2, f. intuition.
  - intros la a lb b lc Hl Ha Hb. split.
    + intros now env.
      assert (In b (jobs (component (tick now env w)))) as Hin.
      { destruct (tick_cases w now env Hr)
          as [E|(l1 & j & l2 & f & H1 & H2 & H3 & H4 & _)].
        - rewrite E, Hl. apply in_app_iff. right. right. apply in_elt.
        - rewrite Hl in H1. symmetry in H1.
          destruct (behind_first_idle _ _ _ _ _ _ H1 H2 Ha) as (x & ->).
          rewrite H4. apply in_app_iff. right. right.
          apply in_app_iff. right. apply in_elt. }
      split; [exact Hin|].
      assert (reachable (tick now env w)) as Hr'
          by (apply (reachable_step w (Tick now env) Hr); exact I).
      apply (inv_settled _ _ _ (reachable_Inv _ Hr') b Hin). congruence.
    + intros es Hadm a' b' Ha' Hb' Ea Eb Hidle.
      pose proof (inv_issued _ _ _ (reachable_Inv _ Hr)) as Hiss.
      assert (Ordered (id a) (id b) (jobs (component (run w es)))) as Ho.
      { apply Ordered_run; auto.
        - apply Hiss. unfold ids. apply in_map. rewrite Hl. apply in_elt.
        - apply Hiss. unfold ids. apply in_map. rewrite Hl.
          apply in_app_iff. right. right. apply in_elt.
        - now apply (Ordered_here w la lb lc). }
      now destruct (Ho a' b' Ha' Hb' Ea Eb Hidle).
Qed.

Lemma tick_launches_first_idle_witness :
  let w := run initialWorld (firstn 3 Scenario.saturate) in
  reachable w /\
  (tick 201 Scenario.stalled w = w \/
   exists l1 j l2 f,
     jobs (component w) = l1 ++ j :: l2 /\
     Forall (fun y => status y <> IDLE) l1 /\
     status j = IDLE /\
     jobs (component (tick 201 Scenario.stalled w)) = l1 ++ spread j (started 201) :: l2 /\
     status (spread j (started 201)) = PROCESSING /\
     inflight (tick 201 Scenario.stalled w) = inflight w ++ [f] /\
     flight_jobId f = id j).
Proof.
  intros w.
  assert (reachable w) as Hr.
  { apply reachable_run; [apply reachable_initial|].
    simpl. repeat split; try Scenario.distinct. }
  split; [exact Hr|].
  exact (proj1 (tick_launches_first_idle w Hr) 201%Z Scenario.stalled).
Defined.

(* ===================================================================== *)
(** ** Result and error *)
(* ===================================================================== *)

Lemma tick_jobs (now : Z) (env : Env) (w : World) :
  jobs (component (tick now env w)) = jobs (component w) \/
  exists job, jobs (component (tick now env w)) =
              updateJob (id job) (started now) (jobs (component w)).
Proof.
  unfold tick. destruct (_ && _); [|now left].
  destruct (nextJob _) as [job|]; [|now left].
  destruct (generateVideoForJob env job). right. now exists job.
Qed.

(** C4.  In every reachable state no job has both [videoUri] and [error]
    set; a job with [videoUri] set is [COMPLETED] and a job with [error]
    set is [FAILED].  And across any single event each job of the new
    state either has neither field set, or has the fields it had before,
    or was [PROCESSING] with neither field set and the event is the
    settlement of its generation: on success it becomes [COMPLETED] with
    only [videoUri] set, on failure [FAILED] with only [error] set. *)
Theorem result_and_error_exclusive (w : World) :
  reachable w ->
  (forall j, In j (jobs (component w)) ->
     ~ (videoUri j <> None /\ error j <> None) /\
     (videoUri j <> None -> status j = COMPLETED) /\
     (error j <> None -> status j = FAILED))
  /\
  (forall e, admissible w e ->
   forall j', In j' (jobs (component (step w e))) ->
     (videoUri j' = None /\ error j' = None) \/
     exists j, In j (jobs (component w)) /\ id j' = id j /\
       ((videoUri j' = videoUri j /\ error j' = error j) \/
        (status j = PROCESSING /\ videoUri j = None /\ error j = None /\
         e = Deliver (id j) /\
         exists c rest, nextCallback (id j) (inflight w) = Some (c, rest) /\
           match c with
           | Progress _ => False
           | Fulfil v =>
               status j' = COMPLETED /\ videoUri j' = Some v /\ error j' = None
           | Reject err =>
               status j' = FAILED /\ videoUri j' = None /\
               error j' = Some (surfaced err)
           end))).
Proof.
  intros Hr. pose proof (reachable_Inv _ Hr) as H. split.
  - intros j Hj. pose proof (inv_fields _ _ _ H j Hj) as W.
    unfold wellFormed in W.
    destruct (status j); try contradiction; destruct W as (Hv & He);
      repeat split; try tauto; try congruence.
  - intros e Hadm j' Hj'.
    assert (forall j, In j (jobs (component w)) ->
              (videoUri j = None /\ error j = None) \/
              exists j0, In j0 (jobs (component w)) /\ id j = id j0 /\
                ((videoUri j = videoUri j0 /\ error j = error j0) \/
                 (status j0 = PROCESSING /\ videoUri j0 = None /\ error j0 = None /\
                  e = Deliver (id j0) /\
                  exists c rest, nextCallback (id j0) (inflight w) = Some (c, rest) /\
                    match c with
                    | Progress _ => False
                    | Fulfil v =>
                        status j = COMPLETED /\ videoUri j = Some v /\ error j = None
                    | Reject err =>
                        status j = FAILED /\ videoUri j = None /\
                        error j = Some (surfaced err)
                    end))) as Same.
    { intros j Hj. right. exists j. auto. }
    destruct e as [hasKey|canOpen|form fresh|k|k uuid now| |now env|i]; simpl in Hj'.
    + destruct hasKey; auto.
    + destruct (_ && _); auto.
    + destruct (apiKeyReady (component w)); [|auto]. simpl in Hj'.
      rewrite addJob_fold in Hj'. apply in_app_iff in Hj'.
      destruct Hj' as [Hj'|Hj']; [auto|].
      left. apply handleSubmit_idle in Hj'. tauto.
    + destruct (apiKeyReady (component w)); [|auto].
      destruct (JobQueue.clickRemove _ k); [|auto]. simpl in Hj'.
      apply removeJob_In in Hj'. apply Same. tauto.
    + destruct (apiKeyReady (component w)); [|auto].
      destruct (JobQueue.clickDuplicate _ k) as [job|]; [|auto]. simpl in Hj'.
      apply in_app_iff in Hj'. destruct Hj' as [Hj'|[<-|[]]]; [auto|].
      left. now simpl.
    + destruct (apiKeyReady (component w)); auto.
    + destruct (tick_jobs now env w) as [E|(job & E)]; rewrite E in Hj'; [auto|].
      apply updateJob_In in Hj'. destruct Hj' as (j & Hj & ->).
      right. exists j. split; [exact Hj|].
      destruct (id j =? id job)%string; simpl; auto.
    + destruct (nextCallback i (inflight w)) as [[c rest]|] eqn:Hcb; [|auto].
      simpl in Hj'. rewrite runCallback_jobs in Hj'.
      apply updateJob_In in Hj'. destruct Hj' as (j & Hj & ->).
      destruct (String.eqb_spec (id j) i) as [E|E]; [|auto].
      right. exists j. split; [exact Hj|].
      split; [simpl; now rewrite updatesOf_keeps_id|].
      pose proof (nextCallback_spec _ _ _ _ Hcb) as (Hi & _).
      rewrite <- E in Hi.
      destruct (StoreInv_inflight_processing _ _ _ _ H Hj Hi) as (Hs & Hv & He).
      destruct c as [msg|v|err]; simpl.
      * now left.
      * right. rewrite E. repeat split; auto. exists (Fulfil v), rest. auto.
      * right. rewrite E. repeat split; auto. exists (Reject err), rest. auto.
Qed.

Lemma result_and_error_exclusive_witness :
  let w := run initialWorld Scenario.complete_first in
  reachable w /\
  forall j, In j (jobs (component w)) ->
    ~ (videoUri j <> None /\ error j <> None) /\
    (videoUri j <> None -> status j = COMPLETED) /\
    (error j <> None -> status j = FAILED).
Proof.
  intros w.
  assert (reachable w) as Hr.
  { apply reachable_run; [apply reachable_initial|].
    simpl. repeat split; try Scenario.distinct. }
  split; [exact Hr|].
  exact (proj1 (result_and_error_exclusive w Hr)).
Defined.

(* ===================================================================== *)
(** ** The store operations *)
(* ===================================================================== *)

(** C5.  Duplicating the job shown on the [k]-th card appends one job to
    the store.  Its [id] is the identifier [uuidv4] just returned, which
    no job of the store carries; its [createdAt] is the current time; it
    is [IDLE]; [videoUri], [error], [progressMessage] and [startTime] are
    unset; and [prompt], [inputType], [model], [aspectRatio] and
    [resolution] are those of the duplicated job. *)
Theorem duplicate_is_fresh_idle_copy
        (w : World) (k : nat) (uuid : string) (now : Z) (job : Job) :
  reachable w ->
  admissible w (ClickDuplicate k uuid now) ->
  apiKeyReady (component w) = true ->
  nth_error (jobs (component w)) k = Some job ->
  exists new,
    jobs (component (step w (ClickDuplicate k uuid now)))
    = jobs (component w) ++ [new] /\
    new = duplicated job uuid now /\
    id new = uuid /\
    ~ In (id new) (map id (jobs (component w))) /\
    createdAt new = now /\
    status new = IDLE /\
    videoUri new = None /\
    error new = None /\
    progressMessage new = None /\
    startTime new = None /\
    prompt new = prompt job /\
    inputType new = inputType job /\
    model new = model job /\
    aspectRatio new = aspectRatio job /\
    resolution new = resolution job.
Proof.
  intros Hr Hadm Hready Hk.
  exists (duplicated job uuid now). simpl.
  rewrite Hready. unfold JobQueue.clickDuplicate. rewrite Hk. simpl.
  repeat split; try reflexivity.
  intros Hin. apply Hadm.
  exact (inv_issued _ _ _ (reachable_Inv _ Hr) uuid Hin).
Qed.

Lemma duplicate_is_fresh_idle_copy_witness :
  let w := run initialWorld Scenario.complete_first in
  exists job,
    nth_error (jobs (component w)) 0 = Some job /\
    status job = COMPLETED /\
    videoUri job = Some "https://video.example/v1?alt=media&key=SECRET" /\
    exists new,
      jobs (component (step w (ClickDuplicate 0 "j7" 300)))
      = jobs (component w) ++ [new] /\
      new = duplicated job "j7" 300 /\
      id new = "j7" /\
      ~ In (id new) (map id (jobs (component w))) /\
      createdAt new = 300%Z /\
      status new = IDLE /\
      videoUri new = None /\
      error new = None /\
      progressMessage new = None /\
      startTime new = None /\
      prompt new = prompt job /\
      inputType new = inputType job /\
      model new = model job /\
      aspectRatio new = aspectRatio job /\
      resolution new = resolution job.
Proof.
  intros w.
  assert (reachable w) as Hr.
  { apply reachable_run; [apply reachable_initial|].
    simpl. repeat split; try Scenario.distinct. }
  eexists. split; [reflexivity|]. split; [reflexivity|]. split; [reflexivity|].
  apply (duplicate_is_fresh_idle_copy w 0 "j7" 300%Z _ Hr).
  - simpl. intuition discriminate.
  - reflexivity.
  - reflexivity.
Defined.

(** [removeJob] itself does not look at the status: the guard lives in the
    job card. *)
Remark removeJob_unguarded (j : Job) :
  removeJob (id j) [j] = [].
Proof. unfold removeJob. simpl. now rewrite String.eqb_refl. Qed.

(** C8.  For the job shown on the [k]-th card of the queue: while it is
    [PROCESSING] the card offers no remove control, no removal reaches the
    store and the world is unchanged; when it is [IDLE], [COMPLETED] or
    [FAILED] the removal goes through, the job and its identifier are gone
    from the store, and jobs with other identifiers are untouched. *)
Theorem removal_guarded_by_status (w : World) (k : nat) (job : Job) :
  apiKeyReady (component w) = true ->
  nth_error (jobs (component w)) k = Some job ->
  (status job = PROCESSING ->
     JobQueue.clickRemove (jobs (component w)) k = None /\
     step w (ClickRemove k) = w)
  /\
  (status job = IDLE \/ status job = COMPLETED \/ status job = FAILED ->
     jobs (component (step w (ClickRemove k)))
     = removeJob (id job) (jobs (component w)) /\
     ~ In job (jobs (component (step w (ClickRemove k)))) /\
     ~ In (id job) (map id (jobs (component (step w (ClickRemove k))))) /\
     forall j, id j <> id job ->
       (In j (jobs (component (step w (ClickRemove k))))
        <-> In j (jobs (component w)))).
Proof.
  intros Hready Hk. split.
  - intros Hs. simpl. unfold JobQueue.clickRemove, JobQueue.rendersRemoveButton.
    rewrite Hready, Hk, Hs. simpl. now split.
  - intros Hs.
    assert (JobQueue.clickRemove (jobs (component w)) k = Some (id job)) as Hc.
    { unfold JobQueue.clickRemove. rewrite Hk.
      now rewrite (proj2 (rendersRemoveButton_true job)) by tauto. }
    simpl. rewrite Hready, Hc. simpl.
    split; [reflexivity|]. split; [|split].
    + intros Hin. apply removeJob_In in Hin. now destruct Hin.
    + intros Hin. apply in_map_iff in Hin. destruct Hin as (j & Ej & Hin).
      apply removeJob_In in Hin. now destruct Hin.
    + intros j Hne. rewrite removeJob_In. tauto.
Qed.

Lemma removal_guarded_by_status_witness :
  let w := run initialWorld (firstn 4 Scenario.saturate) in
  exists started idle,
    apiKeyReady (component w) = true /\
    nth_error (jobs (component w)) 0 = Some started /\
    nth_error (jobs (component w)) 1 = Some idle /\
    status started = PROCESSING /\ status idle = IDLE /\
    step w (ClickRemove 0) = w /\
    ~ In idle (jobs (component (step w (ClickRemove 1)))).
Proof.
  intros w. vm_compute in (value of w). eexists. eexists.
  split; [reflexivity|]. split; [reflexivity|]. split; [reflexivity|].
  split; [reflexivity|]. split; [reflexivity|]. split.
  - apply (removal_guarded_by_status w 0 _ eq_refl eq_refl). reflexivity.
  - apply (removal_guarded_by_status w 1 _ eq_refl eq_refl). now left.
Defined.



(* ===================================================================== *)
(** ** The generation service *)
(* ===================================================================== *)

Section Service.

Lemma truthy_Some (x : option string) (s : string) :
  Js.truthy x = Some s -> x = Some s /\ s <> "".
Proof.
  unfold Js.truthy. destruct x as [[|c x]|]; try discriminate.
  intros [= <-]. split; [reflexivity|discriminate].
Qed.

Lemma bind_resolved {A B} (m : Async A) (k : A -> Async B) t b :
  bind m k = (t, Resolved b) ->
  exists t1 a t2, m = (t1, Resolved a) /\ k a = (t2, Resolved b) /\ t = t1 ++ t2.
Proof.
  unfold bind. destruct m as [t1 [a|e|]]; try discriminate.
  destruct (k a) as [t2 o] eqn:Hk. intros [= <- ->].
  now exists t1, a, t2.
Qed.

Lemma bind_trace {A B} (m : Async A) (k : A -> Async B) :
  fst (bind m k) =
  fst m ++ match snd m with Resolved a => fst (k a) | _ => [] end.
Proof.
  unfold bind. destruct m as [t [a|e|]]; simpl; rewrite ?app_nil_r; auto.
  now destruct (k a).
Qed.

Lemma await_trace {A} (answer : Js.Error + A) : fst (await answer) = [].
Proof. now destruct answer. Qed.

Lemma await_resolved {A} (answer : Js.Error + A) t a :
  await answer = (t, Resolved a) -> answer = inr a /\ t = [].
Proof. destruct answer; simpl; unfold throw, ret; intros [= <- <-]; auto. Qed.

Lemma submittedOf_app t1 t2 :
  submittedOf (t1 ++ t2) = submittedOf t1 ++ submittedOf t2.
Proof. unfold submittedOf. apply flat_map_app. Qed.

(** The polling loop submits nothing, and an operation it returns is done
    and is either the one it was given or one of the answers. *)
Lemma poll_submits_nothing answers attempts operation :
  submittedOf (fst (poll answers attempts operation)) = [].
Proof.
  revert attempts operation.
  induction answers as [|answer rest IH]; intros attempts operation; simpl;
    destruct (done operation); simpl; try reflexivity.
  destruct answer as [e|op]; simpl; [reflexivity|].
  specialize (IH (S attempts) op).
  destruct (poll rest (S attempts) op) as [t o]. simpl in *. exact IH.
Qed.

Lemma poll_resolved answers attempts operation t final :
  poll answers attempts operation = (t, Resolved final) ->
  done final = true /\ (final = operation \/ In (inr final) answers).
Proof.
  revert attempts operation t.
  induction answers as [|answer rest IH]; intros attempts operation t; simpl;
    destruct (done operation) eqn:Hd.
  - intros [= <- <-]. auto.
  - discriminate.
  - intros [= <- <-]. auto.
  - destruct answer as [e|op]; simpl; [discriminate|].
    destruct (poll rest (S attempts) op) as [t' o] eqn:Hp. simpl.
    destruct o; intros [= <- <-].
    destruct (IH _ _ _ Hp) as (H1 & [->|H2]); auto.
Qed.

Lemma generateVideoForJob_phases (env : Env) (job : Job) :
  generateVideoForJob env job =
  match Js.truthy (API_KEY env) with
  | None => throw (Js.newError "API Key not found. Please select a key.")
  | Some apiKey =>
      perform (OnProgress "Uploading input data...") ;;
      operation <- requestPhase env job ;;
      operation <- poll (polls env) 0 operation ;;
      resultPhase apiKey operation
  end.
Proof. reflexivity. Qed.

Lemma resultPhase_submits_nothing apiKey operation :
  submittedOf (fst (resultPhase apiKey operation)) = [].
Proof.
  unfold resultPhase. destruct (op_error operation); simpl; [reflexivity|].
  destruct (Js.truthy (responseUri operation)); reflexivity.
Qed.

Lemma requestPhase_submits (env : Env) (job : Job) :
  submittedOf (fst (requestPhase env job)) = [] \/
  exists p, submittedOf (fst (requestPhase env job)) = [p] /\
            requestMatches env job p.
Proof.
  unfold requestPhase, requestMatches.
  destruct (inputType job); [|destruct (imageFile job) as [file|]].
  - right. eexists. split.
    + simpl. destruct (generateVideos env _); reflexivity.
    + simpl. repeat split; reflexivity.
  - unfold fileToBas64. simpl.
    destruct (readAsDataURL env file) as [result|]; simpl; [|now left].
    right. eexists. split.
    + destruct (generateVideos env _); reflexivity.
    + simpl. repeat split; try reflexivity. exists result. now split.
  - right. eexists. split.
    + simpl. destruct (generateVideos env _); reflexivity.
    + simpl. repeat split; reflexivity.
Qed.

Lemma requestPhase_resolved (env : Env) (job : Job) t operation :
  requestPhase env job = (t, Resolved operation) ->
  exists p, generateVideos env p = inr operation.
Proof.
  unfold requestPhase.
  destruct (inputType job); [|destruct (imageFile job) as [file|]].
  - simpl. destruct (generateVideos env _) as [e|op] eqn:Hg; simpl; [discriminate|].
    intros [= _ <-]. eauto.
  - unfold fileToBas64. simpl.
    destruct (readAsDataURL env file) as [result|]; simpl; [|discriminate].
    destruct (generateVideos env _) as [e|op] eqn:Hg; simpl; [discriminate|].
    intros [= _ <-]. eauto.
  - simpl. destruct (generateVideos env _) as [e|op] eqn:Hg; simpl; [discriminate|].
    intros [= _ <-]. eauto.
Qed.

Lemma submitted_requests (env : Env) (job : Job) :
  submittedOf (fst (generateVideoForJob env job)) = [] \/
  exists p, submittedOf (fst (generateVideoForJob env job)) = [p] /\
            requestMatches env job p.
Proof.
  rewrite generateVideoForJob_phases.
  destruct (Js.truthy (API_KEY env)) as [apiKey|]; [|now left].
  rewrite bind_trace, submittedOf_app. simpl.
  rewrite bind_trace, submittedOf_app.
  assert (forall op,
            submittedOf
              (fst (operation <- poll (polls env) 0 op ;;
                    resultPhase apiKey operation)) = []) as Htail.
  { intros op. rewrite bind_trace, submittedOf_app, poll_submits_nothing. simpl.
    destruct (snd (poll (polls env) 0 op)); try reflexivity.
    apply resultPhase_submits_nothing. }
  destruct (snd (requestPhase env job)) as [op| |]; rewrite ?Htail; simpl;
    rewrite app_nil_r; apply requestPhase_submits.
Qed.

End Service.

(* ===================================================================== *)
(** ** What the service sends and returns *)
(* ===================================================================== *)

(** Every job of a reachable store came out of the form, whose jobs are
    all 720p: there the fixed resolution and the job's own coincide. *)
Lemma reachable_resolution (w : World) :
  reachable w -> forall j, In j (jobs (component w)) -> resolution j = R720p.
Proof.
  induction 1 as [|w e Hr IH Hadm]; [intros j []|].
  intros j' Hj'.
  destruct e as [hasKey|canOpen|form fresh|k|k uuid now| |now env|i]; simpl in Hj'.
  - destruct hasKey; auto.
  - destruct (_ && _); auto.
  - destruct (apiKeyReady (component w)); [|auto]. simpl in Hj'.
    rewrite addJob_fold in Hj'. apply in_app_iff in Hj'.
    destruct Hj' as [Hj'|Hj']; [auto|].
    apply handleSubmit_idle in Hj'. tauto.
  - destruct (apiKeyReady (component w)); [|auto].
    destruct (JobQueue.clickRemove _ k); [|auto]. simpl in Hj'.
    apply removeJob_In in Hj'. apply IH. tauto.
  - destruct (apiKeyReady (component w)); [|auto].
    destruct (JobQueue.clickDuplicate _ k) as [job|] eqn:Hk; [|auto]. simpl in Hj'.
    apply in_app_iff in Hj'. destruct Hj' as [Hj'|[<-|[]]]; [auto|].
    simpl. apply IH. unfold JobQueue.clickDuplicate in Hk.
    now apply nth_error_In in Hk.
  - destruct (apiKeyReady (component w)); auto.
  - destruct (tick_jobs now env w) as [E|(job & E)]; rewrite E in Hj'; [auto|].
    apply updateJob_In in Hj'. destruct Hj' as (j & Hj & ->).
    destruct (id j =? id job)%string; simpl; auto.
  - destruct (nextCallback i (inflight w)) as [[c rest]|]; [|auto].
    simpl in Hj'. rewrite runCallback_jobs in Hj'.
    apply updateJob_In in Hj'. destruct Hj' as (j & Hj & ->).
    destruct (id j =? i)%string; [|auto].
    destruct c; simpl; auto.
Qed.

Lemma requestPhase_submits_exact (env : Env) (job : Job) :
  (submittedOf (fst (requestPhase env job)) = [] /\
   exists file, inputType job = IMAGE /\ imageFile job = Some file /\
                readAsDataURL env file = None)
  \/ exists p, submittedOf (fst (requestPhase env job)) = [p] /\
               requestMatches env job p.
Proof.
  unfold requestPhase, requestMatches.
  destruct (inputType job); [|destruct (imageFile job) as [file|]].
  - right. eexists. split.
    + simpl. destruct (generateVideos env _); reflexivity.
    + simpl. repeat split; reflexivity.
  - unfold fileToBas64. simpl.
    destruct (readAsDataURL env file) as [result|] eqn:Hread; simpl.
    + right. eexists. split.
      * destruct (generateVideos env _); reflexivity.
      * simpl. repeat split; try reflexivity. exists result. now split.
    + left. split; [reflexivity|]. now exists file.
  - right. eexists. split.
    + simpl. destruct (generateVideos env _); reflexivity.
    + simpl. repeat split; reflexivity.
Qed.






Lemma append_nonempty_differs (s t : string) : t <> "" -> (s ++ t)%string <> s.
Proof.
  intros Ht. induction s as [|c s IH]; simpl.
  - exact Ht.
  - intros [= E]. now apply IH.
Qed.

Lemma nextCallback_launched i fs c rest :
  nextCallback i fs = Some (c, rest) ->
  Forall launched fs -> Forall launched rest.
Proof.
  revert rest. induction fs as [|f fs IH]; simpl; intros rest; [discriminate|].
  intros Hcb Hall. inversion Hall as [|? ? Hf Hfs]; subst.
  destruct (flight_jobId f =? i)%string.
  - destruct (flight_progress f) as [|msg more].
    + destruct (flight_outcome f); inversion Hcb; subst; auto.
    + inversion Hcb; subst. constructor; auto.
  - destruct (nextCallback i fs) as [[c' rest']|]; [|discriminate].
    inversion Hcb; subst. constructor; auto.
Qed.

Lemma nextCallback_settled i fs c rest :
  nextCallback i fs = Some (c, rest) ->
  exists f, In f fs /\ flight_jobId f = i /\
    match c with
    | Progress _ => True
    | Fulfil v => flight_outcome f = Resolved v
    | Reject e => flight_outcome f = Rejected e
    end.
Proof.
  revert rest. induction fs as [|f fs IH]; simpl; intros rest; [discriminate|].
  destruct (String.eqb_spec (flight_jobId f) i) as [E|E].
  - destruct (flight_progress f) as [|msg more].
    + destruct (flight_outcome f) eqn:Ho; intros [= <- <-];
        exists f; repeat split; auto.
    + intros [= <- <-]. exists f. repeat split; auto.
  - destruct (nextCallback i fs) as [[c' rest']|]; [|discriminate].
    intros [= <- <-]. destruct (IH rest' eq_refl) as (f' & Hin & Hid & Hc).
    exists f'. repeat split; auto.
Qed.

(** Every generation in flight stems from a launch by the timer. *)
Lemma reachable_launched (w : World) : reachable w -> Forall launched (inflight w).
Proof.
  induction 1 as [|w e Hr IH Hadm]; [constructor|].
  destruct e as [hasKey|canOpen|form fresh|k|k uuid now| |now env|i]; simpl.
  - destruct hasKey; auto.
  - destruct (_ && _); auto.
  - destruct (apiKeyReady (component w)); auto.
  - destruct (apiKeyReady (component w)); [|auto].
    destruct (JobQueue.clickRemove _ k); auto.
  - destruct (apiKeyReady (component w)); [|auto].
    destruct (JobQueue.clickDuplicate _ k); auto.
  - destruct (apiKeyReady (component w)); auto.
  - unfold tick. destruct (_ && _); [|auto].
    destruct (nextJob _) as [job|]; [|auto].
    destruct (generateVideoForJob env job) as [trace outcome] eqn:Hg. simpl.
    apply Forall_app. split; [exact IH|]. constructor; [|constructor].
    exists env, job. simpl. now rewrite Hg.
  - destruct (nextCallback i (inflight w)) as [[c rest]|] eqn:Hcb; [|auto].
    simpl. now apply (nextCallback_launched i (inflight w) c).
Qed.

(** What [generateVideoForJob] resolves with embeds the key of the
    environment it ran in. *)
Lemma resolved_value_embeds_key
      (env : Env) (job : Job) (trace : list Effect) (v : string) :
  generateVideoForJob env job = (trace, Resolved v) -> embedsKey env v.
Proof.
  unfold embedsKey. rewrite generateVideoForJob_phases.
  destruct (Js.truthy (API_KEY env)) as [apiKey|] eqn:Hkey; [|discriminate].
  apply truthy_Some in Hkey. destruct Hkey as (Hkey & Hne).
  intros H.
  apply bind_resolved in H. destruct H as (t1 & [] & t2 & _ & H & _).
  apply bind_resolved in H. destruct H as (t3 & op0 & t4 & Hreq & H & _).
  apply requestPhase_resolved in Hreq.
  apply bind_resolved in H. destruct H as (t5 & final & t6 & Hpoll & H & _).
  apply poll_resolved in Hpoll. destruct Hpoll as (Hdone & Hfrom).
  unfold resultPhase in H.
  apply bind_resolved in H. destruct H as (t7 & [] & t8 & _ & H & _).
  destruct (op_error final); [discriminate|].
  destruct (Js.truthy (responseUri final)) as [uri|] eqn:Huri; [|discriminate].
  apply truthy_Some in Huri. destruct Huri as (Huri & Hune).
  injection H as _ <-.
  exists apiKey, final, uri.
  split; [exact Hkey|]. split; [exact Hne|].
  split; [destruct Hfrom as [->|Hin]; [now left | now right]|].
  repeat split; auto.
  apply append_nonempty_differs. discriminate.
Qed.

(** C10.  Whatever [generateVideoForJob] resolves with is the video URI
    of the finished operation followed by the text [&key=] and the API
    key of the environment it ran in, never the bare URI.  And that value
    is what ends up on the job: when the generation started for job [i]
    is fulfilled with [v] in a reachable state, [v] is the value a run of
    [generateVideoForJob] for job [i] resolved with (so it embeds the key
    of that run's environment), the job named [i] is in the store with
    status [PROCESSING] and no result, and the continuation replaces it,
    in place, by the job with status [COMPLETED], [videoUri] set to [v]
    and no [error]; nothing else in the store changes, and the generation
    is no longer in flight. *)
Theorem stored_result_embeds_key
        (env : Env) (job : Job) (trace : list Effect)
        (w : World) (i v : string) (rest : list Flight) :
  (generateVideoForJob env job = (trace, Resolved v) -> embedsKey env v)
  /\
  (reachable w ->
   nextCallback i (inflight w) = Some (Fulfil v, rest) ->
   let w' := step w (Deliver i) in
   (exists env' job',
      id job' = i /\
      snd (generateVideoForJob env' job') = Resolved v /\
      embedsKey env' v) /\
   exists l1 j l2 j',
     jobs (component w) = l1 ++ j :: l2 /\
     id j = i /\ status j = PROCESSING /\ videoUri j = None /\
     jobs (component w') = l1 ++ j' :: l2 /\
     j' = spread j (completed v) /\
     id j' = i /\ status j' = COMPLETED /\
     videoUri j' = Some v /\ error j' = None /\
     inflight w' = rest /\ ~ In i (map flight_jobId rest)).
Proof.
  split; [apply resolved_value_embeds_key|].
  intros Hr Hcb w'. subst w'. simpl. rewrite Hcb. simpl.
  pose proof (reachable_Inv _ Hr) as H.
  pose proof (nextCallback_spec _ _ _ _ Hcb) as (Hi & _ & Hgone).
  split.
  - destruct (nextCallback_settled _ _ _ _ Hcb) as (f & Hf & Hid & Hout).
    pose proof (reachable_launched w Hr) as Hall.
    rewrite Forall_forall in Hall.
    destruct (Hall f Hf) as (env' & job' & Hj & Ho).
    rewrite Hout in Ho.
    destruct (generateVideoForJob env' job') as [trace' o] eqn:Hg.
    simpl in Ho. subst o.
    exists env', job'. rewrite Hg. repeat split; [congruence|].
    exact (resolved_value_embeds_key env' job' trace' v Hg).
  - pose proof (inv_flights_stored _ _ _ H i Hi) as Hs.
    unfold ids in Hs. apply in_map_iff in Hs. destruct Hs as (j & Ej & Hj).
    rewrite <- Ej in Hi.
    destruct (StoreInv_inflight_processing _ _ _ _ H Hj Hi) as (Hst & _).
    pose proof (inv_fields _ _ _ H j Hj) as Hwf. unfold wellFormed in Hwf.
    rewrite Hst in Hwf. destruct Hwf as (Hv & He).
    apply in_split in Hj. destruct Hj as (l1 & l2 & Hl).
    exists l1, j, l2, (spread j (completed v)).
    repeat split; auto.
    + unfold onResolved. simpl. rewrite Hl. apply updateJob_at; [|exact Ej].
      rewrite <- Hl. apply H.
    + apply (proj2 (Hgone (inv_flights_nodup _ _ _ H))).
Qed.

Lemma stored_result_embeds_key_witness :
  let job := JobForm.newJob (Scenario.textForm 2) "j1" 101 in
  let v := "https://video.example/v1?alt=media&key=SECRET" in
  let w := run initialWorld (firstn 9 Scenario.complete_first) in
  generateVideoForJob Scenario.healthy job
  = (fst (generateVideoForJob Scenario.healthy job), Resolved v) /\
  reachable w /\
  nextCallback "j1" (inflight w) = Some (Fulfil v, []) /\
  embedsKey Scenario.healthy v /\
  map (fun j => (status j, videoUri j))
      (jobs (component (step w (Deliver "j1"))))
  = [ (COMPLETED, Some v); (IDLE, None) ] /\
  exists l1 j l2 j',
    jobs (component w) = l1 ++ j :: l2 /\
    id j = "j1" /\ status j = PROCESSING /\ videoUri j = None /\
    jobs (component (step w (Deliver "j1"))) = l1 ++ j' :: l2 /\
    j' = spread j (completed v) /\
    id j' = "j1" /\ status j' = COMPLETED /\
    videoUri j' = Some v /\ error j' = None /\
    inflight (step w (Deliver "j1")) = [] /\ ~ In "j1" (map flight_jobId []).
Proof.
  intros job v w.
  assert (reachable w) as Hr.
  { apply reachable_run; [apply reachable_initial|].
    vm_compute. repeat split; try Scenario.distinct. }
  vm_compute in (value of w).
  destruct (stored_result_embeds_key
              Scenario.healthy job (fst (generateVideoForJob Scenario.healthy job))
              w "j1" v []) as (HA & HB).
  split; [reflexivity|]. split; [exact Hr|]. split; [reflexivity|].
  split; [exact (HA eq_refl)|]. split; [reflexivity|].
  exact (proj2 (HB Hr eq_refl)).
Defined.

(* ===================================================================== *)
(** ** Failures *)
(* ===================================================================== *)

(** What the [catch] block does with an error whose text matches one of
    the two signatures: the key is marked not ready, the queue is stopped,
    the job is failed with the fixed advice, and the timer no longer
    starts anything. *)
Lemma key_error_pauses (i : string) (e : Js.Error) (s : State) :
  looksLikeKeyError (Js.or_else (Js.message e) "Unknown error") = true ->
  apiKeyReady (onRejected i e s) = false /\
  isQueueRunning (onRejected i e s) = false /\
  jobs (onRejected i e s) =
    updateJob i (failed "API Key Invalid or Expired. Please select key again.")
              (jobs s) /\
  forall w now env, component w = onRejected i e s -> tick now env w = w.
Proof.
  intros Hk. unfold onRejected. rewrite Hk. simpl.
  repeat split. intros w now env Hw. unfold tick. rewrite Hw. reflexivity.
Qed.

(** An invalid key, end to end: the request is refused with the remote
    side's "API key not valid" text.  The job fails with the fixed advice,
    the key no longer counts as ready, the queue is stopped, and a further
    firing of the timer starts nothing although a job is idle. *)
Example invalid_key_run :
  let refused :=
    Scenario.refusing "API key not valid. Please pass a valid API key." in
  let w := run initialWorld
               [ SelectKey true;
                 Submit (Scenario.textForm 2) (firstn 2 Scenario.six);
                 ToggleQueue;
                 Tick 201 refused;
                 Deliver "j1"; Deliver "j1"; Deliver "j1" ] in
  map (fun j => (status j, error j)) (jobs (component w))
  = [ (FAILED, Some "API Key Invalid or Expired. Please select key again.");
      (IDLE, None) ] /\
  apiKeyReady (component w) = false /\
  isQueueRunning (component w) = false /\
  step w (Tick 202 Scenario.healthy) = w.
Proof. repeat split. Qed.

(** C2 fails on the credential-missing error.  With no key in
    [process.env.API_KEY] the service rejects at once with "API Key not
    found. Please select a key.".  That text contains neither
    "Requested entity was not found" nor "API key" (the service writes
    "API Key"), so the [catch] block leaves [apiKeyReady] and
    [isQueueRunning] as they are and stores the raw text on the job. *)
Theorem missing_key_not_recognised
        (rd : File -> option string)
        (gv : GenerateVideosParameters -> Js.Error + Operation)
        (ps : list (Js.Error + Operation)) (job : Job) (s : State) :
  let env := {| API_KEY := None; readAsDataURL := rd;
                generateVideos := gv; polls := ps |} in
  let raw := "API Key not found. Please select a key." in
  generateVideoForJob env job = ([], Rejected (Js.newError raw)) /\
  looksLikeKeyError raw = false /\
  apiKeyReady (onRejected (id job) (Js.newError raw) s) = apiKeyReady s /\
  isQueueRunning (onRejected (id job) (Js.newError raw) s) = isQueueRunning s /\
  jobs (onRejected (id job) (Js.newError raw) s)
  = updateJob (id job) (failed raw) (jobs s).
Proof. intros env raw. repeat split. Qed.

(** The same, end to end: two jobs are queued, the timer fires with no key
    in the environment, the rejection is delivered, and the timer fires
    again.  The first job has failed with the raw text, the key still
    counts as ready, the queue still runs, and the second job has been
    started. *)
Example keyless_run :
  let w := run initialWorld
               [ SelectKey true;
                 Submit (Scenario.textForm 2) (firstn 2 Scenario.six);
                 ToggleQueue;
                 Tick 201 Scenario.keyless; Deliver "j1";
                 Tick 202 Scenario.keyless ] in
  map (fun j => (status j, error j)) (jobs (component w))
  = [ (FAILED, Some "API Key not found. Please select a key.");
      (PROCESSING, None) ] /\
  apiKeyReady (component w) = true /\
  isQueueRunning (component w) = true.
Proof. repeat split. Qed.

(** C7, as stated, fails, in two ways.  First, the generation of
    [imageJob] is rejected with a value that has no message, which is not
    an authentication error, and the job's [error] becomes "Unknown
    error"; likewise an error whose message is the empty string is not
    surfaced as it is.  The first case arises in a run of the application:
    an image job is queued and started, the [FileReader] fails, and the
    job ends [FAILED] with "Unknown error".  Second, a failure that has
    nothing to do with the credential is taken for an authentication
    error when its text contains a signature: under a valid key the
    request is accepted and the finished operation reports "Prompt
    rejected: it must not quote an API key"; the job ends [FAILED] with
    the fixed advice instead of that message, the key no longer counts as
    ready and the queue is stopped although another job is idle. *)
Lemma message_not_always_verbatim :
  let s := {| jobs := [imageJob]; apiKeyReady := true; isQueueRunning := true |} in
  let w := run initialWorld
               [ SelectKey true;
                 Submit Scenario.imageForm (firstn 1 Scenario.six);
                 ToggleQueue;
                 Tick 201 unreadable;
                 Deliver "j1"; Deliver "j1" ] in
  let refusal := Js.newError "Prompt rejected: it must not quote an API key" in
  let w2 := run initialWorld
                [ SelectKey true;
                  Submit (Scenario.textForm 2) (firstn 2 Scenario.six);
                  ToggleQueue;
                  Tick 201 promptRefused;
                  Deliver "j1"; Deliver "j1"; Deliver "j1"; Deliver "j1" ] in
  snd (generateVideoForJob unreadable imageJob) = Rejected progressEvent /\
  Js.message progressEvent = None /\
  looksLikeKeyError (Js.or_else (Js.message progressEvent) "Unknown error") = false /\
  map error (jobs (onRejected "j1" progressEvent s)) = [Some "Unknown error"] /\
  map error (jobs (onRejected "j1" progressEvent s)) <> [Js.message progressEvent] /\
  looksLikeKeyError (Js.or_else (Js.message (Js.newError "")) "Unknown error") = false /\
  map error (jobs (onRejected "j1" (Js.newError "") s)) = [Some "Unknown error"] /\
  map error (jobs (onRejected "j1" (Js.newError "") s))
  <> [Js.message (Js.newError "")] /\
  map (fun j => (status j, error j)) (jobs (component w))
  = [ (FAILED, Some "Unknown error") ] /\
  ~ authenticationError progressEvent /\
  ~ authenticationError (Js.newError "") /\
  API_KEY promptRefused = Some "SECRET" /\
  snd (generateVideoForJob promptRefused
         (JobForm.newJob (Scenario.textForm 2) "j1" 101)) = Rejected refusal /\
  refusal <> credentialMissing /\
  map (fun j => (status j, error j)) (jobs (component w2))
  = [ (FAILED, Some "API Key Invalid or Expired. Please select key again.");
      (IDLE, None) ] /\
  isQueueRunning (component w2) = false /\
  apiKeyReady (component w2) = false.
Proof.
  vm_compute.
  repeat split; try discriminate; intros [H|H]; discriminate.
Qed.

(** C7, amended.  When the generation started for job [i] is rejected with
    an error that is not an authentication error (neither the service's
    own credential-missing error nor an error whose text contains one of
    the two signatures), the job with identifier [i] is in the store with
    status [PROCESSING] and becomes [FAILED]; its [error] is the error's
    message as it is when that message is a non-empty string, and "Unknown
    error" when the error has no message or an empty one; every other
    job, the order of the store, [apiKeyReady] and [isQueueRunning] are
    unchanged. *)
Theorem request_error_fails_only_its_job
        (w : World) (i : string) (e : Js.Error) (rest : list Flight) :
  reachable w ->
  nextCallback i (inflight w) = Some (Reject e, rest) ->
  ~ authenticationError e ->
  let w' := step w (Deliver i) in
  exists l1 j l2 j',
    jobs (component w) = l1 ++ j :: l2 /\
    id j = i /\ status j = PROCESSING /\
    jobs (component w') = l1 ++ j' :: l2 /\
    j' = spread j (failed (Js.or_else (Js.message e) "Unknown error")) /\
    status j' = FAILED /\
    (forall msg, Js.message e = Some msg -> msg <> "" -> error j' = Some msg) /\
    (Js.truthy (Js.message e) = None -> error j' = Some "Unknown error") /\
    apiKeyReady (component w') = apiKeyReady (component w) /\
    isQueueRunning (component w') = isQueueRunning (component w).
Proof.
  intros Hr Hcb Hauth w'.
  assert (looksLikeKeyError (Js.or_else (Js.message e) "Unknown error") = false)
    as Hnot.
  { destruct (looksLikeKeyError _) eqn:Hk; [|reflexivity].
    exfalso. apply Hauth. now right. }
  subst w'. simpl. rewrite Hcb. simpl.
  unfold onRejected. rewrite Hnot. simpl.
  pose proof (reachable_Inv _ Hr) as H.
  pose proof (nextCallback_spec _ _ _ _ Hcb) as (Hi & _).
  pose proof (inv_flights_stored _ _ _ H i Hi) as Hs.
  unfold ids in Hs. apply in_map_iff in Hs. destruct Hs as (j & Ej & Hj).
  rewrite <- Ej in Hi.
  destruct (StoreInv_inflight_processing _ _ _ _ H Hj Hi) as (Hst & _).
  apply in_split in Hj. destruct Hj as (l1 & l2 & Hl).
  exists l1, j, l2. eexists. repeat split; try eassumption.
  - rewrite Hl. apply updateJob_at; [|exact Ej].
    rewrite <- Hl. apply H.
  - intros msg Hm Hne. simpl. unfold Js.or_else, Js.truthy. rewrite Hm.
    destruct msg; [contradiction|reflexivity].
  - intros Hm. simpl. unfold Js.or_else. now rewrite Hm.
Qed.

Lemma request_error_fails_only_its_job_witness :
  let refused := Scenario.refusing "Quota exceeded for this project" in
  let w := run initialWorld
               [ SelectKey true;
                 Submit (Scenario.textForm 2) (firstn 2 Scenario.six);
                 ToggleQueue;
                 Tick 201 refused; Tick 202 Scenario.stalled;
                 Deliver "j1"; Deliver "j1" ] in
  reachable w /\
  nextCallback "j1" (inflight w)
  = Some (Reject (Js.newError "Quota exceeded for this project"), skipn 1 (inflight w)) /\
  ~ authenticationError (Js.newError "Quota exceeded for this project") /\
  map (fun j => (status j, error j)) (jobs (component (step w (Deliver "j1"))))
  = [ (FAILED, Some "Quota exceeded for this project"); (PROCESSING, None) ] /\
  isQueueRunning (component (step w (Deliver "j1"))) = true.
Proof.
  intros refused w.
  assert (reachable w) as Hr.
  { apply reachable_run; [apply reachable_initial|].
    vm_compute. repeat split; try Scenario.distinct. }
  assert (~ authenticationError (Js.newError "Quota exceeded for this project"))
    as Hna.
  { intros [Hc|Hc]; discriminate. }
  vm_compute in (value of w).
  split; [exact Hr|]. split; [reflexivity|]. split; [exact Hna|].
  destruct (request_error_fails_only_its_job
              w "j1" (Js.newError "Quota exceeded for this project")
              (skipn 1 (inflight w)) Hr eq_refl Hna)
    as (l1 & j & l2 & j' & _ & _ & _ & _ & _ & _ & _ & _ & _ & Hq).
  split; [reflexivity|].
  rewrite Hq. reflexivity.
Defined.

(* ===================================================================== *)
(** ** Store order is insertion order *)
(* ===================================================================== *)

Section InsertionOrder.

Lemma Subseq_refl {A} (l : list A) : Subseq l l.
Proof. induction l; [apply Subseq_nil | now apply Subseq_take]. Qed.

Lemma Subseq_trans {A} (l1 l2 l3 : list A) :
  Subseq l1 l2 -> Subseq l2 l3 -> Subseq l1 l3.
Proof.
  intros H12 H23. revert l1 H12.
  induction H23 as [|x l2 l3 H IH|x l2 l3 H IH]; intros l1 H12.
  - exact H12.
  - apply Subseq_skip. auto.
  - inversion H12; subst; [apply Subseq_skip | apply Subseq_take]; auto.
Qed.

Lemma Subseq_app {A} (l1 l2 r : list A) :
  Subseq l1 l2 -> Subseq (l1 ++ r) (l2 ++ r).
Proof.
  induction 1; simpl;
    [apply Subseq_refl | now apply Subseq_skip | now apply Subseq_take].
Qed.

Lemma removeJob_Subseq i l : Subseq (ids (removeJob i l)) (ids l).
Proof.
  unfold ids, removeJob. induction l as [|a l IH]; simpl; [constructor|].
  destruct (negb (id a =? i)%string); simpl;
    [now apply Subseq_take | now apply Subseq_skip].
Qed.

(** The identifiers of the store, in store order, are among the
    identifiers handed out, in the order they were handed out: a job
    stands before another in the store exactly when it was added first. *)
Lemma store_keeps_insertion_order (w : World) :
  reachable w -> Subseq (ids (jobs (component w))) (issued w).
Proof.
  induction 1 as [|w e Hr IH Hadm]; [constructor|].
  destruct e as [hasKey|canOpen|form fresh|k|k uuid now| |now env|i]; simpl.
  - destruct hasKey; auto.
  - destruct (_ && _); auto.
  - destruct (apiKeyReady (component w)); [|auto]. simpl.
    rewrite addJob_fold. unfold ids in *. rewrite map_app. now apply Subseq_app.
  - destruct (apiKeyReady (component w)); [|auto].
    destruct (JobQueue.clickRemove _ k); [|auto]. simpl.
    eapply Subseq_trans; [apply removeJob_Subseq | exact IH].
  - destruct (apiKeyReady (component w)); [|auto].
    destruct (JobQueue.clickDuplicate _ k) as [job|]; [|auto]. simpl.
    unfold duplicateJob, ids in *. rewrite map_app. now apply Subseq_app.
  - destruct (apiKeyReady (component w)); auto.
  - destruct (tick_jobs now env w) as [E|(job & E)]; rewrite E.
    + unfold tick. destruct (_ && _); [|auto]. destruct (nextJob _); [|auto].
      now destruct (generateVideoForJob _ _).
    + rewrite updateJob_ids by reflexivity.
      unfold tick. destruct (_ && _); [|auto]. destruct (nextJob _); [|auto].
      now destruct (generateVideoForJob _ _).
  - destruct (nextCallback i (inflight w)) as [[c rest]|]; [|auto]. simpl.
    rewrite runCallback_jobs, updateJob_ids by apply updatesOf_keeps_id. exact IH.
Qed.

End InsertionOrder.

(** One firing starts one job even when four slots are free. *)
Example one_launch_per_tick :
  map status (jobs (component (run initialWorld (firstn 4 Scenario.saturate))))
  = [PROCESSING; IDLE; IDLE; IDLE; IDLE; IDLE].
Proof. reflexivity. Qed.

(* ===================================================================== *)
(** ** Where the jobs of the next state come from *)
(* ===================================================================== *)

Section Histories.

(** Every job of the state after an event is a new job with a fresh
    identifier, or a job of the state before, or the job the timer just
    started, or the job a callback just updated. *)
Lemma step_job_origin (w : World) (e : Event) (j' : Job) :
  reachable w -> admissible w e ->
  In j' (jobs (component (step w e))) ->
  (~ In (id j') (issued w) /\ status j' = IDLE /\ startTime j' = None)
  \/ In j' (jobs (component w))
  \/ (exists j now,
        In j (jobs (component w)) /\ status j = IDLE /\
        j' = spread j (started now))
  \/ (exists j c,
        In j (jobs (component w)) /\ status j = PROCESSING /\
        j' = spread j (updatesOf c)).
Proof.
  intros Hr Hadm Hj'. pose proof (reachable_Inv _ Hr) as H.
  destruct e as [hasKey|canOpen|form fresh|k|k uuid now| |now env|i]; simpl in Hj'.
  - destruct hasKey; auto.
  - destruct (_ && _); auto.
  - destruct (apiKeyReady (component w)); [|auto]. simpl in Hj'.
    rewrite addJob_fold in Hj'. apply in_app_iff in Hj'.
    destruct Hj' as [Hj'|Hj']; [auto|]. left.
    destruct Hadm as (_ & Hfresh). split.
    + apply Hfresh. destruct (handleSubmit_ids form fresh) as (n & Hids).
      apply (firstn_In_incl n). rewrite <- Hids. unfold ids. now apply in_map.
    + destruct (handleSubmit_shape form fresh) as (n & E). rewrite E in Hj'.
      apply in_map_iff in Hj'. destruct Hj' as ([u t] & <- & _). now simpl.
  - destruct (apiKeyReady (component w)); [|auto].
    destruct (JobQueue.clickRemove _ k); [|auto]. simpl in Hj'.
    apply removeJob_In in Hj'. tauto.
  - destruct (apiKeyReady (component w)); [|auto].
    destruct (JobQueue.clickDuplicate _ k) as [job|]; [|auto]. simpl in Hj'.
    apply in_app_iff in Hj'. destruct Hj' as [Hj'|[<-|[]]]; [auto|].
    left. simpl. auto.
  - destruct (apiKeyReady (component w)); auto.
  - destruct (tick_cases w now env Hr)
      as [E|(l1 & j & l2 & f & H1 & _ & H3 & H4 & _)].
    + rewrite E in Hj'. auto.
    + rewrite H4 in Hj'. apply in_app_iff in Hj'.
      destruct Hj' as [Hj'|[<-|Hj']].
      * right. left. rewrite H1. apply in_app_iff. now left.
      * right. right. left. exists j, now. repeat split; auto.
        rewrite H1. apply in_elt.
      * right. left. rewrite H1. apply in_app_iff. right. now right.
  - destruct (nextCallback i (inflight w)) as [[c rest]|] eqn:Hcb; [|auto].
    simpl in Hj'. rewrite runCallback_jobs in Hj'.
    apply updateJob_In in Hj'. destruct Hj' as (j & Hj & ->).
    destruct (String.eqb_spec (id j) i) as [E|E]; [|auto].
    right. right. right. exists j, c. repeat split; auto.
    pose proof (nextCallback_spec _ _ _ _ Hcb) as (Hi & _). rewrite <- E in Hi.
    now destruct (StoreInv_inflight_processing _ _ _ _ H Hj Hi).
Qed.

Lemma updatesOf_id (j : Job) (c : Callback) : id (spread j (updatesOf c)) = id j.
Proof. now destruct c. Qed.

(** A property of single jobs that holds for the jobs the form and the
    duplicate button create and survives a start and a callback holds for
    every job of every reachable state. *)
Lemma reachable_jobwise (P : Job -> Prop) :
  (forall j, status j = IDLE -> startTime j = None -> P j) ->
  (forall j now, P j -> status j = IDLE -> P (spread j (started now))) ->
  (forall j c, P j -> status j = PROCESSING -> P (spread j (updatesOf c))) ->
  forall w, reachable w -> forall j, In j (jobs (component w)) -> P j.
Proof.
  intros Hnew Hstart Hcall w Hr.
  induction Hr as [|w e Hr IH Hadm]; [intros j []|].
  intros j' Hj'.
  destruct (step_job_origin w e j' Hr Hadm Hj')
    as [(_ & Hs & Ht)|[Hold|[(j & now & Hj & Hs & ->)|(j & c & Hj & Hs & ->)]]]; auto.
Qed.

(** [startTime] is set exactly on the jobs that have been started. *)
Lemma started_iff_startTime (w : World) :
  reachable w ->
  forall j, In j (jobs (component w)) -> (status j = IDLE <-> startTime j = None).
Proof.
  apply (reachable_jobwise (fun j => status j = IDLE <-> startTime j = None)).
  - intros j Hs Ht. tauto.
  - intros j now _ _. simpl. split; discriminate.
  - intros j c Hiff Hs.
    assert (startTime j <> None) as Hne by (intros Hc; apply Hiff in Hc; congruence).
    destruct c; simpl; split; intros Hc; try congruence.
Qed.

Lemma follows_refl (j : Job) : follows j j.
Proof. unfold follows, sameParameters. tauto. Qed.

Lemma follows_trans (j1 j2 j3 : Job) :
  follows j1 j2 -> follows j2 j3 -> follows j1 j3.
Proof.
  unfold follows, sameParameters.
  intros (P12 & T12 & S12 & F12) (P23 & T23 & S23 & F23).
  split; [intuition congruence|]. split; [|split].
  - intros Hne. rewrite <- (T12 Hne). apply T23. rewrite (T12 Hne). exact Hne.
  - auto.
  - intros Hs. pose proof (F12 Hs) as E12. subst j2. auto.
Qed.

Lemma follows_step (w : World) (e : Event) (j j' : Job) :
  reachable w -> admissible w e ->
  In j (jobs (component w)) ->
  In j' (jobs (component (step w e))) ->
  id j' = id j ->
  follows j j'.
Proof.
  intros Hr Hadm Hj Hj' Hid. pose proof (reachable_Inv _ Hr) as H.
  pose proof (inv_nodup _ _ _ H) as Hnd.
  destruct (step_job_origin w e j' Hr Hadm Hj')
    as [(Hnew & _)|[Hold|[(j0 & now & Hj0 & Hs & ->)|(j0 & c & Hj0 & Hs & ->)]]].
  - exfalso. apply Hnew. rewrite Hid.
    apply (inv_issued _ _ _ H). unfold ids. now apply in_map.
  - assert (j' = j) as -> by (eapply same_id_same_job; eauto).
    apply follows_refl.
  - assert (j0 = j) as -> by (eapply same_id_same_job; eauto).
    pose proof (proj1 (started_iff_startTime w Hr j Hj) Hs) as Ht.
    unfold follows, sameParameters, settled. simpl.
    repeat split; try congruence. intros [Hc|Hc]; congruence.
  - rewrite updatesOf_id in Hid.
    assert (j0 = j) as -> by (eapply same_id_same_job; eauto).
    unfold follows, sameParameters, settled.
    destruct c; simpl; repeat split; try congruence;
      intros [Hc|Hc]; congruence.
Qed.

(** Identifiers are never handed out twice: a job of a later store whose
    identifier had been issued before the event was in the store then. *)
Lemma step_keeps_issued (w : World) (e : Event) (x : string) :
  In x (issued w) -> In x (issued (step w e)).
Proof.
  intros Hx.
  destruct e as [hasKey|canOpen|form fresh|k|k uuid now| |now env|i]; simpl.
  - destruct hasKey; auto.
  - destruct (_ && _); auto.
  - destruct (apiKeyReady (component w)); [|auto]. simpl. apply in_app_iff. now left.
  - destruct (apiKeyReady (component w)); [|auto].
    destruct (JobQueue.clickRemove _ k); auto.
  - destruct (apiKeyReady (component w)); [|auto].
    destruct (JobQueue.clickDuplicate _ k); [|auto]. simpl. apply in_app_iff. now left.
  - destruct (apiKeyReady (component w)); auto.
  - unfold tick. destruct (_ && _); [|auto]. destruct (nextJob _); [|auto].
    now destruct (generateVideoForJob _ _).
  - destruct (nextCallback i (inflight w)) as [[c rest]|]; auto.
Qed.

Lemma step_no_return (w : World) (e : Event) (x : string) :
  reachable w -> admissible w e ->
  In x (ids (jobs (component (step w e)))) -> In x (issued w) ->
  In x (ids (jobs (component w))).
Proof.
  intros Hr Hadm Hx Hiss. unfold ids in *.
  apply in_map_iff in Hx. destruct Hx as (j' & <- & Hj').
  destruct (step_job_origin w e j' Hr Hadm Hj')
    as [(Hnew & _)|[Hold|[(j0 & now & Hj0 & Hs & ->)|(j0 & c & Hj0 & Hs & ->)]]].
  - contradiction.
  - now apply in_map.
  - simpl. now apply in_map.
  - rewrite updatesOf_id. now apply in_map.
Qed.

Lemma follows_run (es : list Event) (w : World) (j j' : Job) :
  reachable w -> admissibleAll w es ->
  In j (jobs (component w)) ->
  In j' (jobs (component (run w es))) ->
  id j' = id j ->
  follows j j'.
Proof.
  revert w j. induction es as [|e es IH]; simpl; intros w j Hr Hadm Hj Hj' Hid.
  - pose proof (inv_nodup _ _ _ (reachable_Inv _ Hr)) as Hnd.
    assert (j' = j) as -> by (eapply same_id_same_job; eauto).
    apply follows_refl.
  - destruct Hadm as (Hadm & Hrest).
    pose proof (reachable_step w e Hr Hadm) as Hr1.
    assert (In (id j) (issued w)) as Hiss.
    { apply (inv_issued _ _ _ (reachable_Inv _ Hr)). unfold ids. now apply in_map. }
    assert (In (id j) (ids (jobs (component (step w e))))) as Hmid.
    { clear IH. revert Hj'. generalize (step_keeps_issued w e _ Hiss).
      generalize Hr1 Hrest. generalize (step w e). clear - Hid.
      induction es as [|e' es IH]; simpl; intros w1 Hr1 Hrest Hiss1 Hj'.
      - rewrite <- Hid. unfold ids. now apply in_map.
      - destruct Hrest as (Ha & Hrest).
        apply (step_no_return w1 e'); auto.
        apply IH; auto.
        + now apply reachable_step.
        + now apply step_keeps_issued. }
    unfold ids in Hmid. apply in_map_iff in Hmid. destruct Hmid as (j1 & E1 & Hj1).
    apply (follows_trans j j1 j').
    + now apply (follows_step w e).
    + apply (IH (step w e)); auto. congruence.
Qed.

End Histories.

(* ===================================================================== *)
(** ** Histories of single jobs *)
(* ===================================================================== *)

(** X1.  The parameters of a job are immutable: whatever the application
    goes through after a job is in the store, the job that carries its
    identifier later has the same [createdAt], [prompt], [inputType],
    [model], [aspectRatio], [resolution], [imageFile] and [progress]. *)
Theorem parameters_never_change (w : World) (es : list Event) (j j' : Job) :
  reachable w -> admissibleAll w es ->
  In j (jobs (component w)) ->
  In j' (jobs (component (run w es))) ->
  id j' = id j ->
  createdAt j' = createdAt j /\
  prompt j' = prompt j /\
  inputType j' = inputType j /\
  model j' = model j /\
  aspectRatio j' = aspectRatio j /\
  resolution j' = resolution j /\
  imageFile j' = imageFile j /\
  progress j' = progress j.
Proof.
  intros Hr Hadm Hj Hj' Hid.
  destruct (follows_run es w j j' Hr Hadm Hj Hj' Hid) as (P & _).
  unfold sameParameters in P. tauto.
Qed.

(** X2.  [startTime] is written once: in a reachable state it is set
    exactly on the jobs that are no longer [IDLE], and once set it keeps
    its value along every further run. *)
Theorem startTime_written_once (w : World) (es : list Event) (j j' : Job) :
  reachable w -> admissibleAll w es ->
  In j (jobs (component w)) ->
  In j' (jobs (component (run w es))) ->
  id j' = id j ->
  (status j = IDLE <-> startTime j = None) /\
  (startTime j <> None -> startTime j' = startTime j).
Proof.
  intros Hr Hadm Hj Hj' Hid. split.
  - now apply (started_iff_startTime w Hr).
  - now destruct (follows_run es w j j' Hr Hadm Hj Hj' Hid) as (_ & T & _).
Qed.

(** X3.  A finished job is final: once a job is [COMPLETED] or [FAILED],
    the job that carries its identifier in any later store is that very
    record: no retry, no late progress report, no change of result or
    error. *)
Theorem settled_jobs_are_final (w : World) (es : list Event) (j j' : Job) :
  reachable w -> admissibleAll w es ->
  In j (jobs (component w)) ->
  status j = COMPLETED \/ status j = FAILED ->
  In j' (jobs (component (run w es))) ->
  id j' = id j ->
  j' = j.
Proof.
  intros Hr Hadm Hj Hs Hj' Hid.
  destruct (follows_run es w j j' Hr Hadm Hj Hj' Hid) as (_ & _ & _ & F).
  now apply F.
Qed.

(** X4.  The status of a job only moves forward: a job that has left
    [IDLE] never is [IDLE] again, and no job of a reachable state has the
    status [PENDING] that the enumeration declares. *)
Theorem status_moves_forward (w : World) (es : list Event) (j j' : Job) :
  reachable w -> admissibleAll w es ->
  In j (jobs (component w)) ->
  In j' (jobs (component (run w es))) ->
  id j' = id j ->
  status j <> PENDING /\ status j' <> PENDING /\
  (status j = PROCESSING ->
     status j' = PROCESSING \/ status j' = COMPLETED \/ status j' = FAILED) /\
  (status j = COMPLETED -> status j' = COMPLETED) /\
  (status j = FAILED -> status j' = FAILED).
Proof.
  intros Hr Hadm Hj Hj' Hid.
  destruct (follows_run es w j j' Hr Hadm Hj Hj' Hid) as (_ & _ & S & F).
  pose proof (inv_fields _ _ _ (reachable_Inv _ Hr) j Hj) as W.
  pose proof (inv_fields _ _ _
                (reachable_Inv _ (reachable_run w es Hr Hadm)) j' Hj') as W'.
  unfold wellFormed in W, W'. unfold settled in F.
  assert (status j <> PENDING) as N by (intros E; now rewrite E in W).
  assert (status j' <> PENDING) as N' by (intros E; now rewrite E in W').
  repeat split; auto.
  - intros E. assert (status j' <> IDLE) by (apply S; congruence).
    destruct (status j'); tauto.
  - intros E. now rewrite (F (or_introl E)).
  - intros E. now rewrite (F (or_intror E)).
Qed.

Lemma complete_first_split :
  let w := run initialWorld (firstn 4 Scenario.complete_first) in
  let es := skipn 4 Scenario.complete_first in
  reachable w /\ admissibleAll w es /\
  In firstStarted (jobs (component w)) /\
  In firstCompleted (jobs (component (run w es))).
Proof.
  intros w es. split; [|split; [|split]].
  - apply reachable_run; [apply reachable_initial|].
    simpl. repeat split; try Scenario.distinct.
  - simpl. tauto.
  - vm_compute. now left.
  - vm_compute. now left.
Qed.

Lemma parameters_never_change_witness :
  createdAt firstCompleted = createdAt firstStarted /\
  prompt firstCompleted = prompt firstStarted /\
  inputType firstCompleted = inputType firstStarted /\
  model firstCompleted = model firstStarted /\
  aspectRatio firstCompleted = aspectRatio firstStarted /\
  resolution firstCompleted = resolution firstStarted /\
  imageFile firstCompleted = imageFile firstStarted /\
  progress firstCompleted = progress firstStarted.
Proof.
  destruct complete_first_split as (Hr & Hadm & Hj & Hj').
  exact (parameters_never_change _ _ firstStarted firstCompleted
                                 Hr Hadm Hj Hj' eq_refl).
Defined.

Lemma startTime_written_once_witness :
  (status firstStarted = IDLE <-> startTime firstStarted = None) /\
  (startTime firstStarted <> None ->
   startTime firstCompleted = startTime firstStarted).
Proof.
  destruct complete_first_split as (Hr & Hadm & Hj & Hj').
  exact (startTime_written_once _ _ firstStarted firstCompleted
                                Hr Hadm Hj Hj' eq_refl).
Defined.

Lemma status_moves_forward_witness :
  status firstStarted <> PENDING /\ status firstCompleted <> PENDING /\
  (status firstStarted = PROCESSING ->
     status firstCompleted = PROCESSING \/ status firstCompleted = COMPLETED
     \/ status firstCompleted = FAILED) /\
  (status firstStarted = COMPLETED -> status firstCompleted = COMPLETED) /\
  (status firstStarted = FAILED -> status firstCompleted = FAILED).
Proof.
  destruct complete_first_split as (Hr & Hadm & Hj & Hj').
  exact (status_moves_forward _ _ firstStarted firstCompleted
                              Hr Hadm Hj Hj' eq_refl).
Defined.

Lemma settled_jobs_are_final_witness :
  let w := run initialWorld Scenario.complete_first in
  let es := [ Tick 301 Scenario.stalled; Deliver "j1"; ClickDuplicate 0 "j7" 302;
              Deliver "j2" ] in
  In firstCompleted (jobs (component w)) /\
  In firstCompleted (jobs (component (run w es))) /\
  firstCompleted = firstCompleted.
Proof.
  intros w es.
  assert (reachable w) as Hr.
  { apply reachable_run; [apply reachable_initial|]. exact complete_first_admissible. }
  assert (admissibleAll w es) as Hadm.
  { simpl. repeat split; auto. vm_compute. intuition discriminate. }
  assert (In firstCompleted (jobs (component w))) as Hj by (vm_compute; now left).
  assert (In firstCompleted (jobs (component (run w es)))) as Hj'
      by (vm_compute; now left).
  split; [exact Hj|]. split; [exact Hj'|].
  exact (settled_jobs_are_final w es firstCompleted firstCompleted
                                Hr Hadm Hj (or_introl eq_refl) Hj' eq_refl).
Defined.
(* ===================================================================== *)
(** ** Generations in flight *)
(* ===================================================================== *)

Section Flights.

Lemma nextCallback_keeps i fs c rest :
  nextCallback i fs = Some (c, rest) ->
  (forall x, x <> i -> In x (map flight_jobId fs) -> In x (map flight_jobId rest)) /\
  (forall msg, c = Progress msg -> map flight_jobId rest = map flight_jobId fs).
Proof.
  revert rest. induction fs as [|f fs IH]; simpl; intros rest; [discriminate|].
  destruct (String.eqb_spec (flight_jobId f) i) as [E|E].
  - destruct (flight_progress f) as [|msg more].
    + destruct (flight_outcome f); intros [= <- <-]; split;
        try (intros msg; discriminate);
        intros x Hne [Hx|Hx]; congruence || auto.
    + intros [= <- <-]. simpl. split; auto.
  - destruct (nextCallback i fs) as [[c' rest']|]; [|discriminate].
    intros [= <- <-]. destruct (IH rest' eq_refl) as (H1 & H2).
    simpl. split.
    + intros x Hne [Hx|Hx]; [now left | right; auto].
    + intros msg Hc. f_equal. eauto.
Qed.

(** Every [PROCESSING] job has its generation in flight. *)
Lemma processing_in_flight (w : World) :
  reachable w ->
  forall j, In j (jobs (component w)) -> status j = PROCESSING ->
            In (id j) (flightIds w).
Proof.
  induction 1 as [|w e Hr IH Hadm]; [intros j []|].
  intros j' Hj' Hs. unfold flightIds in *.
  destruct e as [hasKey|canOpen|form fresh|k|k uuid now| |now env|i];
    simpl in Hj' |- *.
  - destruct hasKey; auto.
  - destruct (_ && _); auto.
  - destruct (apiKeyReady (component w)); [|auto]. simpl in Hj' |- *.
    rewrite addJob_fold in Hj'. apply in_app_iff in Hj'.
    destruct Hj' as [Hj'|Hj']; [auto|].
    apply handleSubmit_idle in Hj'. destruct Hj' as (Hi & _). congruence.
  - destruct (apiKeyReady (component w)); [|auto].
    destruct (JobQueue.clickRemove _ k); [|auto]. simpl in Hj' |- *.
    apply removeJob_In in Hj'. apply IH; tauto.
  - destruct (apiKeyReady (component w)); [|auto].
    destruct (JobQueue.clickDuplicate _ k) as [job|]; [|auto]. simpl in Hj' |- *.
    apply in_app_iff in Hj'. destruct Hj' as [Hj'|Hj']; [auto|].
    simpl in Hj'. destruct Hj' as [E|E]; [|contradiction].
    subst j'. simpl in Hs. discriminate.
  - destruct (apiKeyReady (component w)); auto.
  - destruct (tick_cases w now env Hr)
      as [E|(l1 & j & l2 & f & H1 & _ & H3 & H4 & H6 & H7)].
    + rewrite E in Hj' |- *. auto.
    + rewrite H4 in Hj'. rewrite H6, map_app. apply in_app_iff.
      apply in_app_iff in Hj'. destruct Hj' as [Hj'|[<-|Hj']].
      * left. apply IH; [|exact Hs]. rewrite H1. apply in_app_iff. now left.
      * right. simpl. left. exact H7.
      * left. apply IH; [|exact Hs]. rewrite H1. apply in_app_iff. right. now right.
  - destruct (nextCallback i (inflight w)) as [[c rest]|] eqn:Hcb; [|auto].
    simpl in Hj' |- *. rewrite runCallback_jobs in Hj'.
    apply updateJob_In in Hj'. destruct Hj' as (j & Hj & ->).
    destruct (nextCallback_keeps _ _ _ _ Hcb) as (Hother & Hprog).
    pose proof (nextCallback_spec _ _ _ _ Hcb) as (Hi & _).
    destruct (String.eqb_spec (id j) i) as [E|E].
    + rewrite updatesOf_id. destruct c as [msg|v|err]; simpl in Hs; try discriminate.
      rewrite (Hprog msg eq_refl). congruence.
    + apply Hother; [exact E|]. now apply IH.
Qed.

Lemma filter_ids_NoDup (p : Job -> bool) (l : list Job) :
  NoDup (ids l) -> NoDup (ids (filter p l)).
Proof.
  unfold ids. induction l as [|a l IH]; simpl; intros H; [constructor|].
  inversion H as [|? ? Hin Hnd]; subst.
  destruct (p a); simpl; auto.
  constructor; auto. intros Hc. apply Hin.
  apply in_map_iff in Hc. destruct Hc as (j & Ej & Hj).
  apply filter_In in Hj. apply in_map_iff. exists j. tauto.
Qed.

(** X5.  In every reachable state the generations in flight and the
    [PROCESSING] jobs match one to one: no two generations are in flight
    for the same job, a job has a generation in flight exactly when it is
    [PROCESSING], each generation in flight belongs to a job of the store,
    and there are as many of them as [PROCESSING] jobs, hence never more
    than [MAX_CONCURRENT_JOBS]. *)
Theorem one_generation_per_processing_job (w : World) :
  reachable w ->
  NoDup (map flight_jobId (inflight w)) /\
  (forall j, In j (jobs (component w)) ->
     (status j = PROCESSING <-> In (id j) (map flight_jobId (inflight w)))) /\
  (forall x, In x (map flight_jobId (inflight w)) ->
     In x (map id (jobs (component w)))) /\
  List.length (inflight w)
  = List.length (filter (fun j => JobStatus_eqb (status j) PROCESSING)
                        (jobs (component w))) /\
  List.length (inflight w) <= MAX_CONCURRENT_JOBS.
Proof.
  intros Hr. pose proof (reachable_Inv _ Hr) as H.
  assert (forall j, In j (jobs (component w)) ->
            (status j = PROCESSING <-> In (id j) (map flight_jobId (inflight w))))
    as Hiff.
  { intros j Hj. split.
    - now apply processing_in_flight.
    - intros Hin. now destruct (StoreInv_inflight_processing _ _ _ _ H Hj Hin). }
  assert (List.length (inflight w) = processingCount (jobs (component w))) as Hlen.
  { rewrite <- (length_map flight_jobId (inflight w)).
    unfold processingCount.
    rewrite <- (length_map id (filter isProcessing (jobs (component w)))).
    apply Nat.le_antisymm; apply NoDup_incl_length.
    - apply H.
    - intros x Hx. pose proof (inv_flights_stored _ _ _ H x Hx) as Hs.
      unfold ids in Hs. apply in_map_iff in Hs. destruct Hs as (j & <- & Hj).
      apply in_map. apply filter_In. split; [exact Hj|].
      apply isProcessing_true. now apply Hiff.
    - apply (filter_ids_NoDup isProcessing), H.
    - intros x Hx. apply in_map_iff in Hx. destruct Hx as (j & <- & Hj).
      apply filter_In in Hj. destruct Hj as (Hj & Hp).
      apply Hiff; [exact Hj|]. now apply isProcessing_true. }
  split; [apply H|]. split; [exact Hiff|]. split; [apply H|].
  split; [exact Hlen|]. rewrite Hlen. apply H.
Qed.

Lemma one_generation_per_processing_job_witness :
  let w := run initialWorld Scenario.saturate in
  reachable w /\
  List.length (inflight w)
  = List.length (filter (fun j => JobStatus_eqb (status j) PROCESSING)
                        (jobs (component w))) /\
  List.length (inflight w) <= MAX_CONCURRENT_JOBS.
Proof.
  intros w.
  assert (reachable w) as Hr.
  { apply reachable_run; [apply reachable_initial|]. exact saturate_admissible. }
  split; [exact Hr|].
  exact (proj2 (proj2 (proj2 (one_generation_per_processing_job w Hr)))).
Defined.

End Flights.

(* ===================================================================== *)
(** ** Identifiers and order *)
(* ===================================================================== *)

Section Identifiers.

Lemma issued_NoDup (w : World) : reachable w -> NoDup (issued w).
Proof.
  induction 1 as [|w e Hr IH Hadm]; [constructor|].
  destruct e as [hasKey|canOpen|form fresh|k|k uuid now| |now env|i]; simpl.
  - destruct hasKey; auto.
  - destruct (_ && _); auto.
  - destruct (apiKeyReady (component w)); [|auto]. simpl.
    destruct Hadm as (Hnd & Hfresh).
    destruct (handleSubmit_ids form fresh) as (n & Hids).
    unfold ids in Hids. rewrite Hids.
    apply NoDup_app; [exact IH | now apply firstn_NoDup |].
    intros x Hx Hx'. apply firstn_In_incl in Hx'. now apply (Hfresh x).
  - destruct (apiKeyReady (component w)); [|auto].
    destruct (JobQueue.clickRemove _ k); auto.
  - destruct (apiKeyReady (component w)); [|auto].
    destruct (JobQueue.clickDuplicate _ k); [|auto]. simpl.
    apply NoDup_app; [exact IH | repeat constructor; auto |].
    intros x Hx [<-|[]]. contradiction.
  - destruct (apiKeyReady (component w)); auto.
  - unfold tick. destruct (_ && _); [|auto]. destruct (nextJob _); [|auto].
    now destruct (generateVideoForJob _ _).
  - destruct (nextCallback i (inflight w)) as [[c rest]|]; auto.
Qed.

(** X6.  Identifiers are unique within the store: in every reachable state
    no two jobs of the store carry the same [id], so two jobs of the store
    with the same [id] are the same record. *)
Theorem identifiers_are_unique (w : World) :
  reachable w ->
  NoDup (map id (jobs (component w))) /\
  forall a b, In a (jobs (component w)) -> In b (jobs (component w)) ->
              id a = id b -> a = b.
Proof.
  intros Hr. pose proof (inv_nodup _ _ _ (reachable_Inv _ Hr)) as Hnd.
  split; [exact Hnd|]. intros a b. now apply same_id_same_job.
Qed.

Lemma identifiers_are_unique_witness :
  let w := run initialWorld Scenario.saturate in
  reachable w /\ NoDup (map id (jobs (component w))).
Proof.
  intros w.
  assert (reachable w) as Hr.
  { apply reachable_run; [apply reachable_initial|]. exact saturate_admissible. }
  split; [exact Hr|]. exact (proj1 (identifiers_are_unique w Hr)).
Defined.

(** X7.  The store keeps insertion order: the identifiers of the store,
    read front to back, are the identifiers [uuidv4] handed out, in the
    order it handed them out, with those of the removed jobs left out; and
    no identifier was handed out twice. *)
Theorem store_order_is_insertion_order (w : World) :
  reachable w ->
  Subseq (map id (jobs (component w))) (issued w) /\ NoDup (issued w).
Proof.
  intros Hr. split.
  - exact (store_keeps_insertion_order w Hr).
  - exact (issued_NoDup w Hr).
Qed.

Lemma store_order_is_insertion_order_witness :
  let w := run initialWorld
               (Scenario.saturate ++ [ClickRemove 4; ClickDuplicate 0 "j7" 300]) in
  reachable w /\
  map id (jobs (component w)) = ["j1"; "j2"; "j3"; "j4"; "j6"; "j7"] /\
  issued w = ["j1"; "j2"; "j3"; "j4"; "j5"; "j6"; "j7"] /\
  Subseq (map id (jobs (component w))) (issued w) /\ NoDup (issued w).
Proof.
  intros w.
  assert (reachable w) as Hr.
  { apply reachable_run; [apply reachable_initial|].
    vm_compute. repeat split; try Scenario.distinct. }
  split; [exact Hr|]. split; [reflexivity|]. split; [reflexivity|].
  exact (store_order_is_insertion_order w Hr).
Defined.

(** X8.  Every job that reaches the store carries the resolution 720p (the
    form writes that constant and duplication copies it), so for the jobs
    the application can hold the resolution of the request sent equals the
    job's own. *)
Theorem stored_jobs_are_720p (w : World) :
  reachable w ->
  forall j, In j (jobs (component w)) ->
    resolution j = R720p /\
    forall env p,
      In p (submittedOf (fst (generateVideoForJob env j))) ->
      cfg_resolution (req_config p) = resolution j.
Proof.
  intros Hr j Hj. pose proof (reachable_resolution w Hr j Hj) as E.
  split; [exact E|]. intros env p Hp. rewrite E.
  destruct (submitted_requests env j) as [Hnone|(q & Hq & Hm)].
  - rewrite Hnone in Hp. contradiction.
  - rewrite Hq in Hp. destruct Hp as [<-|[]].
    unfold requestMatches in Hm. tauto.
Qed.

Lemma stored_jobs_are_720p_witness :
  let w := run initialWorld (firstn 4 Scenario.complete_first) in
  reachable w /\ In firstStarted (jobs (component w)) /\
  resolution firstStarted = R720p.
Proof.
  intros w. destruct complete_first_split as (Hr & _ & Hj & _).
  split; [exact Hr|]. split; [exact Hj|].
  exact (proj1 (stored_jobs_are_720p w Hr firstStarted Hj)).
Defined.

End Identifiers.

(* ===================================================================== *)
(** ** When the scheduler starts jobs *)
(* ===================================================================== *)

Section Launching.

Lemma idleCount_app l1 l2 : idleCount (l1 ++ l2) = idleCount l1 + idleCount l2.
Proof. unfold idleCount. now rewrite filter_app, length_app. Qed.

Lemma idleCount_cons j l :
  idleCount (j :: l) = (if isIdle j then 1 else 0) + idleCount l.
Proof. unfold idleCount. simpl. now destruct (isIdle j). Qed.

Lemma find_idle_exists (l : list Job) :
  0 < idleCount l -> exists j, find isIdle l = Some j.
Proof.
  unfold idleCount. induction l as [|a l IH]; simpl; [lia|].
  destruct (isIdle a); [eauto|exact IH].
Qed.

Lemma find_idle_none (l : list Job) : idleCount l = 0 -> find isIdle l = None.
Proof.
  unfold idleCount. induction l as [|a l IH]; simpl; [reflexivity|].
  destruct (isIdle a); simpl; [discriminate|exact IH].
Qed.

Lemma tick_closed (now : Z) (env : Env) (w : World) :
  gateOpen (component w) = false -> tick now env w = w.
Proof. unfold gateOpen, tick. now intros ->. Qed.

Lemma tick_nothing_to_do (now : Z) (env : Env) (w : World) :
  nextJob (jobs (component w)) = None -> tick now env w = w.
Proof. unfold tick. intros ->. now destruct (_ && _). Qed.

Lemma tick_launch (now : Z) (env : Env) (w : World) (job : Job) :
  reachable w ->
  gateOpen (component w) = true ->
  nextJob (jobs (component w)) = Some job ->
  exists l1 l2,
    jobs (component w) = l1 ++ job :: l2 /\
    status job = IDLE /\
    jobs (component (tick now env w)) = l1 ++ spread job (started now) :: l2 /\
    List.length (inflight (tick now env w)) = S (List.length (inflight w)) /\
    gateOpen (component (tick now env w)) = true.
Proof.
  intros Hr Hg Hnext. pose proof (reachable_Inv _ Hr) as H.
  unfold tick. unfold gateOpen in Hg. rewrite Hg, Hnext.
  apply nextJob_Some in Hnext. destruct Hnext as (_ & l1 & l2 & Hl & Hidle & _).
  destruct (generateVideoForJob env job) as [trace outcome]. simpl.
  exists l1, l2. repeat split; auto.
  - rewrite Hl. apply updateJob_at; [|reflexivity]. rewrite <- Hl. apply H.
  - rewrite length_app. simpl. lia.
Qed.

Lemma tick_effect (w : World) (now : Z) (env : Env) :
  reachable w ->
  if gateOpen (component w)
     && (processingCount (jobs (component w)) <? MAX_CONCURRENT_JOBS)%nat
     && (0 <? idleCount (jobs (component w)))%nat
  then
    processingCount (jobs (component (tick now env w)))
    = S (processingCount (jobs (component w))) /\
    S (idleCount (jobs (component (tick now env w))))
    = idleCount (jobs (component w)) /\
    List.length (inflight (tick now env w)) = S (List.length (inflight w)) /\
    gateOpen (component (tick now env w)) = true
  else tick now env w = w.
Proof.
  intros Hr.
  destruct (gateOpen (component w)) eqn:Hg; simpl; [|now apply tick_closed].
  destruct (Nat.ltb_spec (processingCount (jobs (component w))) MAX_CONCURRENT_JOBS)
    as [Hlt|Hge]; simpl.
  - destruct (Nat.ltb_spec 0 (idleCount (jobs (component w)))) as [Hi|Hi].
    + destruct (find_idle_exists _ Hi) as (job & Hfind).
      assert (nextJob (jobs (component w)) = Some job) as Hnext.
      { unfold nextJob. fold (processingCount (jobs (component w))).
        destruct (Nat.leb_spec MAX_CONCURRENT_JOBS
                               (processingCount (jobs (component w)))); [lia|].
        exact Hfind. }
      destruct (tick_launch now env w job Hr Hg Hnext)
        as (l1 & l2 & Hl & Hs & Hl' & Hf & Hg').
      rewrite Hl', Hl.
      rewrite !processingCount_app, !processingCount_cons.
      rewrite !idleCount_app, !idleCount_cons.
      assert (isProcessing job = false) as ->.
      { destruct (isProcessing job) eqn:E; [|reflexivity].
        apply isProcessing_true in E. congruence. }
      assert (isIdle job = true) as -> by now apply isIdle_true.
      change (isProcessing (spread job (started now))) with true.
      change (isIdle (spread job (started now))) with false.
      repeat split; auto; lia.
    + apply tick_nothing_to_do. unfold nextJob.
      destruct (_ <=? _)%nat; [reflexivity|]. apply find_idle_none. lia.
  - apply tick_nothing_to_do. unfold nextJob.
    fold (processingCount (jobs (component w))).
    destruct (Nat.leb_spec MAX_CONCURRENT_JOBS
                           (processingCount (jobs (component w)))); [reflexivity|lia].
Qed.


(** X11.  A firing of the timer starts a job exactly when it can: while
    the queue runs, the key is ready, fewer than [MAX_CONCURRENT_JOBS]
    jobs are [PROCESSING] and some job is [IDLE], it turns one [IDLE] job
    into a [PROCESSING] one and starts one generation; in every other
    case it leaves the world as it is. *)
Theorem tick_starts_a_job_exactly_when_it_can (w : World) (now : Z) (env : Env) :
  reachable w ->
  if gateOpen (component w)
     && (processingCount (jobs (component w)) <? MAX_CONCURRENT_JOBS)%nat
     && (0 <? idleCount (jobs (component w)))%nat
  then
    processingCount (jobs (component (tick now env w)))
    = S (processingCount (jobs (component w))) /\
    S (idleCount (jobs (component (tick now env w))))
    = idleCount (jobs (component w)) /\
    List.length (inflight (tick now env w)) = S (List.length (inflight w)) /\
    gateOpen (component (tick now env w)) = true
  else tick now env w = w.
Proof. exact (tick_effect w now env). Qed.

Lemma tick_starts_a_job_exactly_when_it_can_witness :
  let w := run initialWorld (firstn 3 Scenario.saturate) in
  reachable w /\
  processingCount (jobs (component (tick 201 Scenario.stalled w)))
  = S (processingCount (jobs (component w))).
Proof.
  intros w.
  assert (reachable w) as Hr.
  { apply reachable_run; [apply reachable_initial|].
    simpl. repeat split; try Scenario.distinct. }
  split; [exact Hr|].
  exact (proj1 (tick_starts_a_job_exactly_when_it_can w 201%Z Scenario.stalled Hr)).
Defined.

(** X12.  Firings of the timer with nothing in between fill the free
    slots one per firing: after [n] firings from a reachable state in
    which the queue runs and the key is ready, with [p] jobs [PROCESSING]
    and [i] jobs [IDLE], the number of [PROCESSING] jobs is the least of
    [p + n], [MAX_CONCURRENT_JOBS] and [p + i], and the jobs started are
    exactly the [IDLE] jobs that are missing. *)
Theorem firings_fill_the_slots (ts : list (Z * Env)) (w : World) :
  reachable w ->
  gateOpen (component w) = true ->
  processingCount (jobs (component (run w (firings ts))))
  = Nat.min (processingCount (jobs (component w)) + List.length ts)
            (Nat.min MAX_CONCURRENT_JOBS
                     (processingCount (jobs (component w))
                      + idleCount (jobs (component w)))) /\
  processingCount (jobs (component (run w (firings ts))))
  + idleCount (jobs (component (run w (firings ts))))
  = processingCount (jobs (component w)) + idleCount (jobs (component w)).
Proof.
  revert w. induction ts as [|[now env] ts IH]; intros w Hr Hg.
  - unfold firings, run. cbn [map fold_left List.length].
    pose proof (inv_cap _ _ _ (reachable_Inv _ Hr)) as Hcap.
    unfold MAX_CONCURRENT_JOBS in *. lia.
  - simpl firings. simpl run. simpl List.length.
    pose proof (inv_cap _ _ _ (reachable_Inv _ Hr)) as Hcap.
    pose proof (tick_effect w now env Hr) as Ht.
    assert (reachable (tick now env w)) as Hr1
        by (apply (reachable_step w (Tick now env) Hr); exact I).
    rewrite Hg in Ht. simpl in Ht.
    destruct (Nat.ltb_spec (processingCount (jobs (component w))) MAX_CONCURRENT_JOBS)
      as [Hlt|Hge]; simpl in Ht.
    + destruct (Nat.ltb_spec 0 (idleCount (jobs (component w)))) as [Hi|Hi].
      * destruct Ht as (Hp & Hidle & _ & Hg1).
        destruct (IH (tick now env w) Hr1 Hg1) as (IH1 & IH2).
        change (step w (Tick now env)) with (tick now env w).
        unfold MAX_CONCURRENT_JOBS in *.
        split; [rewrite IH1, Hp | rewrite IH2, Hp]; lia.
      * change (step w (Tick now env)) with (tick now env w). rewrite Ht.
        destruct (IH w Hr Hg) as (IH1 & IH2).
        unfold MAX_CONCURRENT_JOBS in *.
        split; [rewrite IH1 | rewrite IH2]; lia.
    + change (step w (Tick now env)) with (tick now env w). rewrite Ht.
      destruct (IH w Hr Hg) as (IH1 & IH2).
      unfold MAX_CONCURRENT_JOBS in *.
      split; [rewrite IH1 | rewrite IH2]; lia.
Qed.

Lemma firings_fill_the_slots_witness :
  let w := run initialWorld (firstn 3 Scenario.saturate) in
  let ts := [ (201, Scenario.stalled); (202, Scenario.stalled);
              (203, Scenario.stalled); (204, Scenario.stalled);
              (205, Scenario.stalled) ]%Z in
  reachable w /\ gateOpen (component w) = true /\
  processingCount (jobs (component (run w (firings ts))))
  = Nat.min (processingCount (jobs (component w)) + List.length ts)
            (Nat.min MAX_CONCURRENT_JOBS
                     (processingCount (jobs (component w))
                      + idleCount (jobs (component w)))).
Proof.
  intros w ts.
  assert (reachable w) as Hr.
  { apply reachable_run; [apply reachable_initial|].
    simpl. repeat split; try Scenario.distinct. }
  split; [exact Hr|]. split; [reflexivity|].
  exact (proj1 (firings_fill_the_slots ts w Hr eq_refl)).
Defined.

(** *** A closed gate *)

Lemma runCallback_gate (i : string) (c : Callback) (s : State) :
  gateOpen s = false -> gateOpen (runCallback i c s) = false.
Proof.
  unfold gateOpen. destruct c as [msg|v|err]; simpl; auto.
  unfold onRejected. destruct (looksLikeKeyError _); simpl; auto.
Qed.

Lemma closed_gate_step (w : World) (e : Event) :
  gateOpen (component w) = false -> opensGate e = false ->
  gateOpen (component (step w e)) = false /\
  (forall x, In x (flightIds (step w e)) -> In x (flightIds w)) /\
  (forall j', In j' (jobs (component (step w e))) -> status j' = PROCESSING ->
     exists j, In j (jobs (component w)) /\ id j = id j' /\ status j = PROCESSING).
Proof.
  intros Hg He. unfold flightIds.
  assert (forall j', In j' (jobs (component w)) -> status j' = PROCESSING ->
            exists j, In j (jobs (component w)) /\ id j = id j' /\
                      status j = PROCESSING) as Same by eauto.
  destruct e as [hasKey|canOpen|form fresh|k|k uuid now| |now env|i]; simpl in *.
  - subst hasKey. auto.
  - subst canOpen. rewrite andb_false_r. auto.
  - destruct (apiKeyReady (component w)) eqn:Hk; [|auto]. simpl.
    split; [exact Hg|]. split; [auto|].
    intros j' Hj' Hs. rewrite addJob_fold in Hj'. apply in_app_iff in Hj'.
    destruct Hj' as [Hj'|Hj']; [auto|].
    apply handleSubmit_idle in Hj'. destruct Hj' as (Hi & _). congruence.
  - destruct (apiKeyReady (component w)) eqn:Hk; [|auto].
    destruct (JobQueue.clickRemove _ k); [|auto]. simpl.
    split; [exact Hg|]. split; [auto|].
    intros j' Hj' Hs. apply removeJob_In in Hj'. apply Same; tauto.
  - destruct (apiKeyReady (component w)) eqn:Hk; [|auto].
    destruct (JobQueue.clickDuplicate _ k) as [job|]; [|auto]. simpl.
    split; [exact Hg|]. split; [auto|].
    intros j' Hj' Hs. apply in_app_iff in Hj'.
    destruct Hj' as [Hj'|Hj']; [auto|].
    simpl in Hj'. destruct Hj' as [E|[]]. subst j'. simpl in Hs. discriminate.
  - discriminate.
  - rewrite (tick_closed now env w Hg). auto.
  - destruct (nextCallback i (inflight w)) as [[c rest]|] eqn:Hcb; [|auto]. simpl.
    split; [now apply runCallback_gate|].
    pose proof (nextCallback_spec _ _ _ _ Hcb) as (_ & Hsub & _).
    split; [exact Hsub|].
    intros j' Hj' Hs. rewrite runCallback_jobs in Hj'.
    apply updateJob_In in Hj'. destruct Hj' as (j & Hj & ->).
    destruct (String.eqb_spec (id j) i) as [E|E]; [|eauto].
    exists j. rewrite updatesOf_id. repeat split; auto.
    destruct c; simpl in Hs; congruence.
Qed.

(** X10.  While the queue is paused or the key is not ready, nothing is
    started: along any run in which the user neither presses start/pause
    nor (successfully) selects a key, the gate stays closed, no
    generation is added to those in flight, and every job that is
    [PROCESSING] at the end was [PROCESSING] at the beginning. *)
Theorem closed_gate_starts_nothing (es : list Event) (w : World) :
  gateOpen (component w) = false ->
  Forall (fun e => opensGate e = false) es ->
  gateOpen (component (run w es)) = false /\
  (forall x, In x (map flight_jobId (inflight (run w es))) ->
             In x (map flight_jobId (inflight w))) /\
  (forall j', In j' (jobs (component (run w es))) -> status j' = PROCESSING ->
     exists j, In j (jobs (component w)) /\ id j = id j' /\ status j = PROCESSING).
Proof.
  revert w. induction es as [|e es IH]; intros w Hg Hes; simpl.
  - repeat split; eauto.
  - inversion Hes as [|? ? He Hrest]; subst.
    destruct (closed_gate_step w e Hg He) as (Hg1 & Hf1 & Hp1).
    destruct (IH (step w e) Hg1 Hrest) as (Hg2 & Hf2 & Hp2).
    split; [exact Hg2|]. split.
    + intros x Hx. apply Hf1. now apply Hf2.
    + intros j' Hj' Hs. destruct (Hp2 j' Hj' Hs) as (j1 & Hj1 & E1 & Hs1).
      destruct (Hp1 j1 Hj1 Hs1) as (j & Hj & E & Hs0).
      exists j. repeat split; auto. congruence.
Qed.

Lemma closed_gate_starts_nothing_witness :
  let w := run initialWorld (firstn 2 Scenario.saturate) in
  let es := [ Tick 201 Scenario.healthy; ClickDuplicate 0 "j7" 202;
              Tick 203 Scenario.healthy; Deliver "j1" ] in
  gateOpen (component w) = false /\
  gateOpen (component (run w es)) = false /\
  map status (jobs (component (run w es)))
  = [IDLE; IDLE; IDLE; IDLE; IDLE; IDLE; IDLE].
Proof.
  intros w es. split; [reflexivity|]. split; [|reflexivity].
  refine (proj1 (closed_gate_starts_nothing es w eq_refl _)).
  repeat constructor.
Defined.

(** X9.  An error whose text contains one of the two signatures stops
    everything: when the generation of job [i] is rejected with such an
    error, the job goes from [PROCESSING] to [FAILED] with the fixed
    advice as its [error], every other job stays as it is, [apiKeyReady]
    and [isQueueRunning] both become false, and a firing of the timer from
    then on starts nothing. *)
Theorem signature_error_stops_the_queue
        (w : World) (i : string) (e : Js.Error) (rest : list Flight) :
  reachable w ->
  nextCallback i (inflight w) = Some (Reject e, rest) ->
  looksLikeKeyError (Js.or_else (Js.message e) "Unknown error") = true ->
  let w' := step w (Deliver i) in
  apiKeyReady (component w') = false /\
  isQueueRunning (component w') = false /\
  (forall now env, tick now env w' = w') /\
  exists l1 j l2 j',
    jobs (component w) = l1 ++ j :: l2 /\
    id j = i /\ status j = PROCESSING /\
    jobs (component w') = l1 ++ j' :: l2 /\
    status j' = FAILED /\
    error j' = Some "API Key Invalid or Expired. Please select key again." /\
    videoUri j' = None.
Proof.
  intros Hr Hcb Hkey w'. subst w'. simpl. rewrite Hcb. simpl.
  destruct (key_error_pauses i e (component w) Hkey) as (Hk & Hq & Hjobs & _).
  split; [exact Hk|]. split; [exact Hq|]. split.
  - intros now env. apply tick_closed. unfold gateOpen. simpl. now rewrite Hq.
  - rewrite Hjobs.
    pose proof (reachable_Inv _ Hr) as H.
    pose proof (nextCallback_spec _ _ _ _ Hcb) as (Hi & _).
    pose proof (inv_flights_stored _ _ _ H i Hi) as Hs.
    unfold ids in Hs. apply in_map_iff in Hs. destruct Hs as (j & Ej & Hj).
    rewrite <- Ej in Hi.
    destruct (StoreInv_inflight_processing _ _ _ _ H Hj Hi) as (Hst & Hv & _).
    apply in_split in Hj. destruct Hj as (l1 & l2 & Hl).
    exists l1, j, l2,
      (spread j (failed "API Key Invalid or Expired. Please select key again.")).
    repeat split; auto.
    rewrite Hl. apply updateJob_at; [|exact Ej]. rewrite <- Hl. apply H.
Qed.

Lemma signature_error_stops_the_queue_witness :
  let refused :=
    Scenario.refusing "API key not valid. Please pass a valid API key." in
  let w := run initialWorld
               [ SelectKey true;
                 Submit (Scenario.textForm 2) (firstn 2 Scenario.six);
                 ToggleQueue;
                 Tick 201 refused;
                 Deliver "j1"; Deliver "j1" ] in
  reachable w /\
  apiKeyReady (component (step w (Deliver "j1"))) = false /\
  isQueueRunning (component (step w (Deliver "j1"))) = false.
Proof.
  intros refused w.
  assert (reachable w) as Hr.
  { apply reachable_run; [apply reachable_initial|].
    simpl. repeat split; try Scenario.distinct. }
  split; [exact Hr|].
  destruct (signature_error_stops_the_queue
              w "j1"
              (Js.newError "API key not valid. Please pass a valid API key.")
              [] Hr eq_refl eq_refl) as (Hk & Hq & _).
  split; [exact Hk | exact Hq].
Defined.

End Launching.

(* ===================================================================== *)
(** ** The counters of the header *)
(* ===================================================================== *)

Section Stats.

Lemma stats_partition (l : list Job) :
  (forall j, In j l -> status j <> PENDING) ->
  stat_total (stats l)
  = stat_completed (stats l) + stat_failed (stats l) + stat_pending (stats l).
Proof.
  unfold stats. simpl. induction l as [|a l IH]; intros Hn; [reflexivity|].
  simpl. assert (status a <> PENDING) as Ha by (apply Hn; now left).
  rewrite IH by (intros j Hj; apply Hn; now right).
  destruct (status a); simpl; try congruence; lia.
Qed.

(** X13.  The counters of the header add up: in every reachable state the
    total is the sum of "Completed", "Failed" and "Pending", and "Pending"
    counts the [IDLE] and the [PROCESSING] jobs. *)
Theorem stats_add_up (w : World) :
  reachable w ->
  let s := stats (jobs (component w)) in
  stat_total s = stat_completed s + stat_failed s + stat_pending s /\
  stat_pending s
  = idleCount (jobs (component w)) + processingCount (jobs (component w)).
Proof.
  intros Hr s. subst s. split.
  - apply stats_partition. intros j Hj E.
    pose proof (inv_fields _ _ _ (reachable_Inv _ Hr) j Hj) as W.
    unfold wellFormed in W. now rewrite E in W.
  - unfold stats, idleCount, processingCount, isIdle, isProcessing. simpl.
    induction (jobs (component w)) as [|a l IH]; [reflexivity|].
    simpl. destruct (status a); simpl; lia.
Qed.

Lemma stats_add_up_witness :
  let w := run initialWorld Scenario.complete_first in
  reachable w /\
  stats (jobs (component w))
  = {| stat_total := 2; stat_completed := 1; stat_failed := 0; stat_pending := 1 |} /\
  stat_total (stats (jobs (component w)))
  = stat_completed (stats (jobs (component w)))
    + stat_failed (stats (jobs (component w)))
    + stat_pending (stats (jobs (component w))).
Proof.
  intros w.
  assert (reachable w) as Hr.
  { apply reachable_run; [apply reachable_initial|]. exact complete_first_admissible. }
  split; [exact Hr|]. split; [reflexivity|].
  exact (proj1 (stats_add_up w Hr)).
Defined.

End Stats.

(* ===================================================================== *)
(** ** How the store operations compose *)
(* ===================================================================== *)

Section Composition.

Lemma over_later {A} (a : A) (x y : option A) :
  over (over a x) y = over a (later x y).
Proof. now destruct x, y. Qed.

Lemma spread_mergeUpdates (j : Job) (u1 u2 : PartialJob) :
  spread (spread j u1) u2 = spread j (mergeUpdates u1 u2).
Proof. unfold spread, mergeUpdates. simpl. now rewrite !over_later. Qed.

(** X14.  Last write wins, field by field: two updates of the same job,
    one after the other, leave the store as the single update with the
    fields of both does, the second taking precedence where both give a
    field.  (The first update must not rename the job.) *)
Theorem successive_updates_merge
        (i : string) (u1 u2 : PartialJob) (l : list Job) :
  p_id u1 = None ->
  updateJob i u2 (updateJob i u1 l) = updateJob i (mergeUpdates u1 u2) l.
Proof.
  intros Hid. unfold updateJob. rewrite map_map. apply map_ext. intros j.
  destruct (String.eqb_spec (id j) i) as [E|E].
  - assert (id (spread j u1) = i) as E' by (simpl; now rewrite Hid).
    apply String.eqb_eq in E'. rewrite E'. apply spread_mergeUpdates.
  - apply String.eqb_neq in E. now rewrite E.
Qed.

Lemma successive_updates_merge_witness :
  let l := [firstStarted] in
  map (fun j => (status j, progressMessage j, videoUri j))
      (updateJob "j1" (completed "https://video.example/v1")
                 (updateJob "j1" (progressed "Finalizing download...") l))
  = [ (COMPLETED, Some "Completed", Some "https://video.example/v1") ] /\
  updateJob "j1" (completed "https://video.example/v1")
            (updateJob "j1" (progressed "Finalizing download...") l)
  = updateJob "j1" (mergeUpdates (progressed "Finalizing download...")
                            (completed "https://video.example/v1")) l.
Proof.
  intros l. split; [reflexivity|].
  exact (successive_updates_merge "j1" (progressed "Finalizing download...")
                                  (completed "https://video.example/v1") l eq_refl).
Defined.

(** X15.  Updates of different jobs do not disturb each other: applied in
    either order they give the same store, so a progress report of one
    job can never undo the start, the result or the failure of
    another. *)
Theorem updates_of_different_jobs_commute
        (i k : string) (u v : PartialJob) (l : list Job) :
  i <> k -> p_id u = None -> p_id v = None ->
  updateJob i u (updateJob k v l) = updateJob k v (updateJob i u l).
Proof.
  intros Hne Hu Hv. unfold updateJob. rewrite !map_map. apply map_ext. intros j.
  assert (id (spread j u) = id j) as Hidu by (simpl; now rewrite Hu).
  assert (id (spread j v) = id j) as Hidv by (simpl; now rewrite Hv).
  destruct (id j =? i)%string eqn:Hi; destruct (id j =? k)%string eqn:Hk;
    rewrite ?Hidu, ?Hidv, ?Hi, ?Hk; try reflexivity.
  apply String.eqb_eq in Hi. apply String.eqb_eq in Hk. congruence.
Qed.

Lemma updates_of_different_jobs_commute_witness :
  let l := [firstStarted; firstCompleted] in
  updateJob "j1" (progressed "Finalizing download...")
            (updateJob "j2" (failed "Quota exceeded") l)
  = updateJob "j2" (failed "Quota exceeded")
              (updateJob "j1" (progressed "Finalizing download...") l).
Proof.
  intros l.
  apply (updates_of_different_jobs_commute "j1" "j2"); [discriminate | reflexivity | reflexivity].
Defined.

Lemma removeJob_absent (i : string) (l : list Job) :
  ~ In i (map id l) -> removeJob i l = l.
Proof.
  unfold removeJob. induction l as [|a l IH]; simpl; intros H; [reflexivity|].
  destruct (String.eqb_spec (id a) i) as [E|E]; simpl.
  - exfalso. apply H. now left.
  - f_equal. apply IH. intros Hc. apply H. now right.
Qed.

(** X16.  Adding and removing: removing an identifier no job carries
    leaves the store as it is; removing the job just added (under a fresh
    identifier) gives back the store from before; removing twice is
    removing once; and removal never reorders or alters the jobs that
    stay. *)
Theorem add_then_remove (j : Job) (i : string) (l : list Job) :
  (~ In i (map id l) -> removeJob i l = l) /\
  (~ In (id j) (map id l) -> removeJob (id j) (addJob j l) = l) /\
  removeJob i (removeJob i l) = removeJob i l /\
  Subseq (removeJob i l) l.
Proof.
  split; [apply removeJob_absent|]. split; [|split].
  - intros H. unfold addJob, removeJob. rewrite filter_app. simpl.
    rewrite String.eqb_refl. simpl. rewrite app_nil_r.
    now apply removeJob_absent.
  - apply removeJob_absent. intros Hc. apply in_map_iff in Hc.
    destruct Hc as (a & Ea & Ha). apply removeJob_In in Ha. tauto.
  - unfold removeJob. induction l as [|a l IH]; simpl; [constructor|].
    destruct (negb (id a =? i)%string);
      [now apply Subseq_take | now apply Subseq_skip].
Qed.

Lemma add_then_remove_witness :
  let l := [firstStarted] in
  let j := JobForm.newJob (Scenario.textForm 1) "j9" 900 in
  ~ In "gone" (map id l) /\ ~ In (id j) (map id l) /\
  removeJob "gone" l = l /\
  removeJob (id j) (addJob j l) = l.
Proof.
  intros l j.
  assert (~ In "gone" (map id l)) as H1 by (simpl; intuition discriminate).
  assert (~ In (id j) (map id l)) as H2 by (simpl; intuition discriminate).
  split; [exact H1|]. split; [exact H2|]. split.
  - exact (proj1 (add_then_remove j "gone" l) H1).
  - exact (proj1 (proj2 (add_then_remove j "gone" l)) H2).
Defined.

(** *** The signature test *)

Lemma prefix_iff (a b : string) :
  String.prefix a b = true <-> exists c, b = (a ++ c)%string.
Proof.
  revert b. induction a as [|x a IH]; intros b.
  - split; [intros _; now exists b | intros _; now destruct b].
  - destruct b as [|y b]; simpl.
    + split; [discriminate | intros (c & Hc); discriminate].
    + destruct (Ascii.ascii_dec x y) as [E|N].
      * subst y. split.
        -- intros H. apply IH in H. destruct H as (c & ->). now exists c.
        -- intros (c & [= ->]). apply IH. now exists c.
      * split; [discriminate | intros (c & [= E _]); congruence].
Qed.

Lemma includes_iff (s needle : string) :
  Js.includes s needle = true <->
  exists before after, s = (before ++ needle ++ after)%string.
Proof.
  induction s as [|x s IH].
  - change (Js.includes "" needle)
      with (if String.prefix needle "" then true else false).
    destruct (String.prefix needle "") eqn:P.
    + split; [|reflexivity]. intros _. apply prefix_iff in P.
      destruct P as (c & Hc). now exists "", c.
    + split; [discriminate|]. intros (b & a & E).
      destruct b; [|discriminate]. simpl in E.
      assert (String.prefix needle "" = true) by (apply prefix_iff; eauto).
      congruence.
  - change (Js.includes (String x s) needle)
      with (if String.prefix needle (String x s) then true
            else Js.includes s needle).
    destruct (String.prefix needle (String x s)) eqn:P.
    + split; [|reflexivity]. intros _. apply prefix_iff in P.
      destruct P as (c & Hc). now exists "", c.
    + rewrite IH. split.
      * intros (b & a & ->). now exists (String x b), a.
      * intros (b & a & E). destruct b as [|y b]; simpl in E.
        -- assert (String.prefix needle (String x s) = true)
             by (apply prefix_iff; eauto). congruence.
        -- injection E as _ ->. eauto.
Qed.

(** X17.  The [catch] block takes an error for a key error exactly when
    its text contains "Requested entity was not found" or "API key" as a
    run of consecutive characters, upper and lower case told apart. *)
Theorem key_error_test_is_substring_search (errorMessage : string) :
  looksLikeKeyError errorMessage = true <->
  (exists before after,
     errorMessage = (before ++ "Requested entity was not found" ++ after)%string)
  \/ (exists before after,
        errorMessage = (before ++ "API key" ++ after)%string).
Proof.
  unfold looksLikeKeyError. rewrite orb_true_iff, !includes_iff. tauto.
Qed.

End Composition.

(* ===================================================================== *)
(** ** The form *)
(* ===================================================================== *)

Section Form.

Lemma whiteSpace_shape (c : string) :
  Js.isWhiteSpace c = true ->
  match c with
  | String a EmptyString => True
  | String a (String b EmptyString) => Js.isWhiteSpace (String a "") = false
  | String a (String b (String d EmptyString)) =>
      Js.isWhiteSpace (String a "") = false /\
      Js.isWhiteSpace (String a (String b "")) = false
  | _ => False
  end.
Proof.
  unfold Js.isWhiteSpace at 1. intros H.
  apply existsb_exists in H. destruct H as (w & Hin & E).
  apply String.eqb_eq in E. subst w.
  vm_compute in Hin.
  repeat (destruct Hin as [<-|Hin]; [vm_compute; auto|]).
  contradiction.
Qed.

Lemma trimStart_unfold (a : ascii) (s1 : string) :
  Js.trimStart (String a s1) =
  if Js.isWhiteSpace (String a "") then Js.trimStart s1
  else
    match s1 with
    | EmptyString => String a s1
    | String b s2 =>
        if Js.isWhiteSpace (String a (String b "")) then Js.trimStart s2
        else
          match s2 with
          | EmptyString => String a s1
          | String c s3 =>
              if Js.isWhiteSpace (String a (String b (String c "")))
              then Js.trimStart s3
              else String a s1
          end
    end.
Proof. destruct s1 as [|b [|c s3]]; reflexivity. Qed.

(** What is left by [trimStart] has no white space in front. *)
Lemma trimStart_idempotent (s : string) :
  Js.trimStart (Js.trimStart s) = Js.trimStart s.
Proof.
  remember (String.length s) as n eqn:Hn. revert s Hn.
  induction n as [n IH] using lt_wf_ind. intros s ->.
  destruct s as [|a s1]; [reflexivity|].
  rewrite trimStart_unfold.
  destruct (Js.isWhiteSpace (String a "")) eqn:E1.
  { apply (IH (String.length s1)); simpl; lia. }
  destruct s1 as [|b s2].
  { rewrite trimStart_unfold. now rewrite E1. }
  destruct (Js.isWhiteSpace (String a (String b ""))) eqn:E2.
  { apply (IH (String.length s2)); simpl; lia. }
  destruct s2 as [|c s3].
  { rewrite trimStart_unfold. now rewrite E1, E2. }
  destruct (Js.isWhiteSpace (String a (String b (String c "")))) eqn:E3.
  { apply (IH (String.length s3)); simpl; lia. }
  rewrite trimStart_unfold. now rewrite E1, E2, E3.
Qed.

Lemma trimStart_blank (s : string) : blank s -> Js.trimStart s = "".
Proof.
  induction 1 as [|c s Hc Hs IH]; [reflexivity|].
  pose proof (whiteSpace_shape c Hc) as Hshape.
  destruct c as [|a [|b [|d [|]]]]; try contradiction;
    simpl append; rewrite trimStart_unfold.
  - now rewrite Hc.
  - now rewrite Hshape, Hc.
  - destruct Hshape as (H1 & H2). now rewrite H1, H2, Hc.
Qed.

Lemma trimStart_nothing_left (s : string) : Js.trimStart s = "" -> blank s.
Proof.
  remember (String.length s) as n eqn:Hn. revert s Hn.
  induction n as [n IH] using lt_wf_ind. intros s ->.
  destruct s as [|a s1]; [intros _; apply blank_nothing|].
  rewrite trimStart_unfold.
  destruct (Js.isWhiteSpace (String a "")) eqn:E1.
  { intros H. apply (blank_more (String a "") s1); [exact E1|].
    apply (IH (String.length s1)); simpl; auto. }
  destruct s1 as [|b s2]; [discriminate|].
  destruct (Js.isWhiteSpace (String a (String b ""))) eqn:E2.
  { intros H. apply (blank_more (String a (String b "")) s2); [exact E2|].
    apply (IH (String.length s2)); simpl; auto. }
  destruct s2 as [|c s3]; [discriminate|].
  destruct (Js.isWhiteSpace (String a (String b (String c "")))) eqn:E3;
    [|discriminate].
  intros H. apply (blank_more (String a (String b (String c ""))) s3); [exact E3|].
  apply (IH (String.length s3)); simpl; auto.
Qed.

Lemma trimEnd_empty (s : string) : Js.trimEnd s = "" <-> Js.trimStart s = "".
Proof.
  destruct s as [|a s]; [simpl; tauto|].
  cbn [Js.trimEnd].
  destruct (String.eqb_spec (Js.trimStart (String a s)) "") as [E|E].
  - tauto.
  - split; [discriminate | contradiction].
Qed.

(** [trim] leaves nothing exactly of the strings that hold white space
    only. *)
Lemma trim_empty_iff (s : string) : Js.trim s = "" <-> blank s.
Proof.
  unfold Js.trim. rewrite trimEnd_empty, trimStart_idempotent. split.
  - apply trimStart_nothing_left.
  - apply trimStart_blank.
Qed.

Lemma blank_dec (s : string) : {blank s} + {~ blank s}.
Proof.
  destruct (string_dec (Js.trim s) "") as [E|E].
  - left. now apply trim_empty_iff.
  - right. intros H. apply E. now apply trim_empty_iff.
Defined.

(** White space outside ASCII counts: a prompt that consists of a
    no-break space, a line separator, an ideographic space and a byte
    order mark around ordinary spaces is blank, and the form creates
    nothing from it; a zero-width space (U+200B) is not white space. *)
Example unicode_white_space_is_blank :
  let spaces := Js.ofBytes [194; 160; 32; 226; 128; 168; 9; 227; 128; 128;
                            239; 187; 191; 10] in
  let f := {| JobForm.f_prompt := spaces;
              JobForm.f_inputType := TEXT;
              JobForm.f_model := FAST;
              JobForm.f_aspectRatio := Landscape_16_9;
              JobForm.f_quantity := Some 3%Z;
              JobForm.f_imageFile := None |} in
  Js.trim spaces = "" /\
  JobForm.handleSubmit f Scenario.six = [] /\
  JobForm.afterSubmit f = f /\
  Js.trim (Js.ofBytes [32; 97; 194; 160; 98; 32; 194; 160])
  = Js.ofBytes [97; 194; 160; 98] /\
  Js.trim (Js.ofBytes [226; 128; 139]) = Js.ofBytes [226; 128; 139].
Proof. repeat split. Qed.

Lemma handleSubmit_cases (f : JobForm.FormState) (fresh : list (string * Z)) :
  (acceptable f /\
   JobForm.handleSubmit f fresh
   = map (fun '(uuid, now) => JobForm.newJob f uuid now)
         (firstn (JobForm.iterations (JobForm.f_quantity f)) fresh) /\
   JobForm.afterSubmit f
   = {| JobForm.f_prompt := "";
        JobForm.f_inputType := JobForm.f_inputType f;
        JobForm.f_model := JobForm.f_model f;
        JobForm.f_aspectRatio := JobForm.f_aspectRatio f;
        JobForm.f_quantity := JobForm.f_quantity f;
        JobForm.f_imageFile := None |})
  \/ (~ acceptable f /\ JobForm.handleSubmit f fresh = [] /\
      JobForm.afterSubmit f = f).
Proof.
  unfold acceptable, JobForm.handleSubmit, JobForm.afterSubmit.
  destruct (JobForm.f_inputType f); simpl.
  - destruct (String.eqb_spec (Js.trim (JobForm.f_prompt f)) "") as [E|E].
    + right. apply trim_empty_iff in E. tauto.
    + left. rewrite trim_empty_iff in E. tauto.
  - destruct (JobForm.f_imageFile f) as [file|].
    + left. repeat split. discriminate.
    + right. tauto.
Qed.

(** X18.  The form creates jobs only from complete input.  A text job
    whose prompt is empty or white space only, or an image job without an
    image, creates nothing and leaves the form as it is.  Otherwise it
    creates as many jobs as the quantity says (none when the quantity is
    not a number, zero or negative), each [IDLE], with the form's prompt,
    input type, model, aspect ratio and image, resolution 720p, and the
    identifiers [uuidv4] returned, in that order. *)
Theorem form_creates_jobs_from_complete_input
        (f : JobForm.FormState) (fresh : list (string * Z)) :
  (~ acceptable f ->
   JobForm.handleSubmit f fresh = [] /\ JobForm.afterSubmit f = f)
  /\
  (acceptable f ->
   JobForm.iterations (JobForm.f_quantity f) <= List.length fresh ->
   List.length (JobForm.handleSubmit f fresh)
   = JobForm.iterations (JobForm.f_quantity f) /\
   map id (JobForm.handleSubmit f fresh)
   = firstn (JobForm.iterations (JobForm.f_quantity f)) (map fst fresh) /\
   forall j, In j (JobForm.handleSubmit f fresh) ->
     status j = IDLE /\
     prompt j = JobForm.f_prompt f /\
     inputType j = JobForm.f_inputType f /\
     model j = JobForm.f_model f /\
     aspectRatio j = JobForm.f_aspectRatio f /\
     resolution j = R720p /\
     imageFile j = JobForm.f_imageFile f /\
     videoUri j = None /\ error j = None /\ startTime j = None)
  /\
  ((JobForm.f_quantity f = None \/
    exists q, JobForm.f_quantity f = Some q /\ (q <= 0)%Z) ->
   JobForm.handleSubmit f fresh = []).
Proof.
  split; [|split].
  - intros Hn. destruct (handleSubmit_cases f fresh) as [(Ha & _)|(_ & H1 & H2)];
      [contradiction | now split].
  - intros Ha Hlen.
    destruct (handleSubmit_cases f fresh) as [(_ & E & _)|(Hn & _)];
      [|contradiction].
    rewrite E. split; [|split].
    + rewrite length_map, length_firstn. lia.
    + rewrite map_map, firstn_map. apply map_ext. now intros [u t].
    + intros j Hj. apply in_map_iff in Hj. destruct Hj as ([u t] & <- & _).
      simpl. repeat split.
  - intros Hq.
    assert (JobForm.iterations (JobForm.f_quantity f) = 0) as Hz.
    { destruct Hq as [->|(q & -> & Hq)]; simpl; [reflexivity|].
      destruct q; simpl; try reflexivity. lia. }
    destruct (handleSubmit_cases f fresh) as [(_ & E & _)|(_ & E & _)];
      rewrite E; [|reflexivity]. now rewrite Hz.
Qed.

Lemma form_creates_jobs_from_complete_input_witness :
  let f := Scenario.textForm 2 in
  acceptable f /\
  JobForm.iterations (JobForm.f_quantity f) <= List.length Scenario.six /\
  List.length (JobForm.handleSubmit f Scenario.six) = 2 /\
  map id (JobForm.handleSubmit f Scenario.six) = ["j1"; "j2"].
Proof.
  intros f.
  assert (acceptable f) as Ha.
  { unfold acceptable. simpl. intros H. apply trim_empty_iff in H. discriminate. }
  assert (JobForm.iterations (JobForm.f_quantity f) <= List.length Scenario.six)
    as Hlen by (simpl; lia).
  split; [exact Ha|]. split; [exact Hlen|].
  destruct (proj1 (proj2 (form_creates_jobs_from_complete_input f Scenario.six))
                  Ha Hlen) as (H1 & H2 & _).
  split; [exact H1 | exact H2].
Defined.

(** X19.  Submitting twice in a row adds jobs at most once: an accepted
    submission clears the prompt and the image, so the form it leaves
    behind is rejected whatever its input type, and a rejected submission
    leaves the form as it was. *)
Theorem second_submit_adds_nothing
        (f : JobForm.FormState) (fresh : list (string * Z)) :
  JobForm.handleSubmit (JobForm.afterSubmit f) fresh = [] /\
  JobForm.afterSubmit (JobForm.afterSubmit f) = JobForm.afterSubmit f.
Proof.
  destruct (handleSubmit_cases f fresh) as [(_ & _ & E)|(_ & H1 & E)]; rewrite E.
  - unfold JobForm.handleSubmit, JobForm.afterSubmit. simpl.
    destruct (JobForm.f_inputType f); split; reflexivity.
  - rewrite E. now split.
Qed.

End Form.

(* ===================================================================== *)
(** ** Reading the image, polling, failing *)
(* ===================================================================== *)

Section ServiceDetails.

Lemma split_go_whole (sep : ascii) (s cur : string) :
  lacks sep s -> Js.split_go sep s cur = [Js.rev_append cur s].
Proof.
  unfold lacks. revert cur. induction s as [|c s IH]; simpl; intros cur H.
  - reflexivity.
  - apply andb_true_iff in H. destruct H as (Hc & Hs).
    apply negb_true_iff in Hc. rewrite Hc. now rewrite IH.
Qed.

Lemma split_go_at_separator (sep : ascii) (h p cur : string) :
  lacks sep h ->
  Js.split_go sep (h ++ String sep p) cur
  = Js.rev_append cur h :: Js.split_go sep p "".
Proof.
  unfold lacks. revert cur. induction h as [|c h IH]; simpl; intros cur H.
  - now rewrite Ascii.eqb_refl.
  - apply andb_true_iff in H. destruct H as (Hc & Hs).
    apply negb_true_iff in Hc. rewrite Hc. now rewrite IH.
Qed.

(** Splitting at the first separator. *)
Lemma split_header_payload (sep : ascii) (header payload : string) :
  lacks sep header -> lacks sep payload ->
  Js.split sep (header ++ String sep payload) = [header; payload].
Proof.
  intros Hh Hp. unfold Js.split.
  rewrite split_go_at_separator by assumption.
  now rewrite split_go_whole by assumption.
Qed.

(** X20.  [fileToBas64] hands back what follows the comma of the data
    URL: when the reader yields a header without comma, a comma and a
    payload without comma (base64 text has none), it resolves with exactly
    that payload; when the reader yields a text without any comma it
    resolves with [undefined]; when the reader fails it rejects with the
    reader's event, which has no message.  In each case the file is read
    once. *)
Theorem fileToBas64_returns_the_payload (env : Env) (file : File) :
  (forall header payload,
     readAsDataURL env file = Some (header ++ "," ++ payload)%string ->
     lacks "," header -> lacks "," payload ->
     fileToBas64 env file = ([ReadFile file], Resolved (Some payload)))
  /\
  (forall result,
     readAsDataURL env file = Some result -> lacks "," result ->
     fileToBas64 env file = ([ReadFile file], Resolved None))
  /\
  (readAsDataURL env file = None ->
   fileToBas64 env file = ([ReadFile file], Rejected progressEvent) /\
   Js.message progressEvent = None).
Proof.
  unfold fileToBas64. split; [|split].
  - intros header payload E Hh Hp. simpl. rewrite E. simpl.
    now rewrite (split_header_payload "," header payload Hh Hp).
  - intros result E Hl. simpl. rewrite E. simpl.
    unfold Js.split. now rewrite split_go_whole by assumption.
  - intros E. simpl. rewrite E. now split.
Qed.

Lemma fileToBas64_returns_the_payload_witness :
  let file := {| file_name := "frame.png"; file_type := "image/png" |} in
  readAsDataURL Scenario.healthy file
  = Some ("data:image/png;base64" ++ "," ++ "iVBORw0KGgo=")%string /\
  lacks "," "data:image/png;base64" /\ lacks "," "iVBORw0KGgo=" /\
  fileToBas64 Scenario.healthy file
  = ([ReadFile file], Resolved (Some "iVBORw0KGgo=")).
Proof.
  intros file. split; [reflexivity|]. split; [reflexivity|]. split; [reflexivity|].
  exact (proj1 (fileToBas64_returns_the_payload Scenario.healthy file)
               "data:image/png;base64" "iVBORw0KGgo=" eq_refl eq_refl eq_refl).
Defined.

(** *** The polling loop *)

Lemma poll_done (answers : list (Js.Error + Operation)) (attempts : nat)
      (operation : Operation) :
  done operation = true -> poll answers attempts operation = ([], Resolved operation).
Proof. intros H. destruct answers; cbn [poll]; now rewrite H. Qed.

Lemma five_seconds : 5000 / 1000 = 5.
Proof. reflexivity. Qed.

Lemma poll_waiting (answer : Js.Error + Operation)
      (rest : list (Js.Error + Operation)) (attempts : nat) (operation : Operation) :
  done operation = false ->
  poll (answer :: rest) attempts operation
  = match answer with
    | inl e =>
        ([OnProgress (pollingMessage (S attempts)); GetVideosOperation operation],
         Rejected e)
    | inr next =>
        let (t, o) := poll rest (S attempts) next in
        (OnProgress (pollingMessage (S attempts))
           :: GetVideosOperation operation :: t, o)
    end.
Proof.
  intros H. unfold pollingMessage.
  replace (5 * S attempts) with (S attempts * (5000 / 1000))
    by (rewrite five_seconds; apply Nat.mul_comm).
  cbn [poll]. rewrite H. unfold bind, perform, await, ret, throw.
  destruct answer as [e|next]; [reflexivity|].
  cbn [app]. now destruct (poll rest (S attempts) next) as [t o].
Qed.

Lemma poll_until_done
        (pending : list Operation) (final : Operation)
        (rest : list (Js.Error + Operation)) (attempts : nat) (operation : Operation) :
  done operation = false ->
  Forall (fun o => done o = false) pending ->
  (done final = true ->
   let r := poll (map inr pending ++ inr final :: rest) attempts operation in
   snd r = Resolved final /\
   polledOf (fst r) = operation :: pending /\
   progressOf (fst r)
   = map pollingMessage (seq (S attempts) (S (List.length pending))))
  /\
  (forall e,
     snd (poll (map inr pending ++ inl e :: rest) attempts operation)
     = Rejected e)
  /\
  (forall answers n o,
     done o = true -> poll answers n o = ([], Resolved o)).
Proof.
  intros Hop Hpending. split; [|split].
  - intros Hfinal. revert attempts operation Hop.
    induction Hpending as [|p ps Hp Hps IH]; intros attempts operation Hop.
    + simpl app. rewrite poll_waiting by assumption.
      rewrite poll_done by assumption. simpl. auto.
    + simpl map. simpl app. rewrite poll_waiting by assumption.
      specialize (IH (S attempts) p Hp).
      destruct (poll (map inr ps ++ inr final :: rest) (S attempts) p) as [t o].
      simpl in IH |- *. destruct IH as (H1 & H2 & H3).
      repeat split; auto.
      * now rewrite H2.
      * now rewrite H3.
  - intros e. revert attempts operation Hop.
    induction Hpending as [|p ps Hp Hps IH]; intros attempts operation Hop.
    + simpl app. now rewrite poll_waiting by assumption.
    + simpl map. simpl app. rewrite poll_waiting by assumption.
      specialize (IH (S attempts) p Hp).
      now destruct (poll (map inr ps ++ inl e :: rest) (S attempts) p) as [t o].
  - intros answers n o Hd. now apply poll_done.
Qed.


(** X21.  The polling loop polls until the first finished operation and
    no further.  Started on an unfinished operation and answered by [k]
    unfinished operations and then a finished one, it resolves with the
    finished one, has polled [k + 1] times (the operation it held each
    time), and has reported "Generating video... (5s elapsed)",
    "(10s elapsed)", and so on, one report per poll; later answers are
    not consumed.  Started on a finished operation it polls and reports
    nothing.  An answer that is a failure ends the loop with that very
    failure. *)
Theorem polling_stops_at_first_done
        (pending : list Operation) (final : Operation)
        (rest : list (Js.Error + Operation)) (attempts : nat) (operation : Operation) :
  done operation = false ->
  Forall (fun o => done o = false) pending ->
  (done final = true ->
   let r := poll (map inr pending ++ inr final :: rest) attempts operation in
   snd r = Resolved final /\
   polledOf (fst r) = operation :: pending /\
   progressOf (fst r)
   = map pollingMessage (seq (S attempts) (S (List.length pending))))
  /\
  (forall e,
     snd (poll (map inr pending ++ inl e :: rest) attempts operation)
     = Rejected e)
  /\
  (forall answers n o,
     done o = true -> poll answers n o = ([], Resolved o)).
Proof. exact (poll_until_done pending final rest attempts operation). Qed.

Lemma polling_stops_at_first_done_witness :
  let r := poll (map inr [Scenario.waiting]
                 ++ inr (Scenario.finished "https://video.example/v1") :: [])
                0 Scenario.waiting in
  snd r = Resolved (Scenario.finished "https://video.example/v1") /\
  polledOf (fst r) = [Scenario.waiting; Scenario.waiting] /\
  progressOf (fst r)
  = [ "Generating video... (5s elapsed)"; "Generating video... (10s elapsed)" ].
Proof.
  exact (proj1 (polling_stops_at_first_done
                  [Scenario.waiting] (Scenario.finished "https://video.example/v1")
                  [] 0 Scenario.waiting eq_refl
                  (Forall_cons Scenario.waiting
                     (eq_refl : done Scenario.waiting = false) (Forall_nil _)))
               eq_refl).
Defined.

(** *** Why a generation fails *)

(** How the request phase ends. *)
Lemma requestPhase_sent (env : Env) (job : Job) (p : GenerateVideosParameters) :
  requestMatches env job p ->
  snd (requestPhase env job)
  = match generateVideos env p with
    | inl e => Rejected e
    | inr first => Resolved first
    end.
Proof.
  unfold requestPhase, requestMatches.
  destruct p as [pm pp pi [pn pa pr]]. simpl.
  intros (-> & -> & -> & -> & H).
  destruct (inputType job); [|destruct (imageFile job) as [file|]].
  - destruct H as (-> & ->). simpl. now destruct (generateVideos env _).
  - destruct H as (-> & result & Hread & ->).
    unfold fileToBas64. simpl. rewrite Hread. simpl.
    now destruct (generateVideos env _).
  - destruct H as (-> & ->). simpl. now destruct (generateVideos env _).
Qed.

Lemma requestPhase_unreadable (env : Env) (job : Job) (file : File) :
  inputType job = IMAGE -> imageFile job = Some file ->
  readAsDataURL env file = None ->
  snd (requestPhase env job) = Rejected progressEvent.
Proof.
  unfold requestPhase. intros -> -> Hread.
  unfold fileToBas64. simpl. now rewrite Hread.
Qed.

(** How the polling loop ends. *)
Lemma poll_outcome (answers : list (Js.Error + Operation)) (attempts : nat)
      (first : Operation) :
  match snd (poll answers attempts first) with
  | Resolved final =>
      done final = true /\
      (final = first \/
       (done first = false /\
        exists pending rest,
          answers = map inr pending ++ inr final :: rest /\
          Forall (fun o => done o = false) pending))
  | Rejected e =>
      done first = false /\
      exists pending rest,
        answers = map inr pending ++ inl e :: rest /\
        Forall (fun o => done o = false) pending
  | Suspended =>
      done first = false /\
      exists pending, answers = map inr pending /\
                      Forall (fun o => done o = false) pending
  end.
Proof.
  revert attempts first.
  induction answers as [|answer answers IH]; intros attempts first.
  - destruct (done first) eqn:Hd.
    + rewrite poll_done by assumption. simpl. auto.
    + cbn [poll]. rewrite Hd. simpl. split; [reflexivity|]. now exists [].
  - destruct (done first) eqn:Hd.
    + rewrite poll_done by assumption. simpl. auto.
    + rewrite poll_waiting by assumption.
      destruct answer as [e|next].
      * simpl. split; [reflexivity|]. exists [], answers. now split.
      * specialize (IH (S attempts) next).
        destruct (poll answers (S attempts) next) as [t o]. simpl in *.
        destruct o as [final|e|].
        -- destruct IH as (Hf & [->|(Hn & pending & rest & -> & Hall)]).
           ++ split; [exact Hf|]. right. split; [reflexivity|].
              exists [], answers. now split.
           ++ split; [exact Hf|]. right. split; [reflexivity|].
              exists (next :: pending), rest. split; [reflexivity|].
              now constructor.
        -- destruct IH as (Hn & pending & rest & -> & Hall).
           split; [reflexivity|].
           exists (next :: pending), rest. split; [reflexivity|].
           now constructor.
        -- destruct IH as (Hn & pending & -> & Hall).
           split; [reflexivity|].
           exists (next :: pending). split; [reflexivity|].
           now constructor.
Qed.

Lemma bind_snd {A B} (m : Async A) (k : A -> Async B) :
  snd (bind m k) =
  match snd m with
  | Resolved a => snd (k a)
  | Rejected e => Rejected e
  | Suspended => Suspended
  end.
Proof.
  unfold bind. destruct m as [t [a|e|]]; simpl; auto. now destruct (k a).
Qed.

Lemma poll_ends_with (env : Env) (first final : Operation) :
  endsWith env first final ->
  snd (poll (polls env) 0 first) = Resolved final.
Proof.
  intros (Hf & [->|(Hn & pending & rest & E & Hall)]).
  - now rewrite poll_done.
  - rewrite E.
    exact (proj1 (proj1 (poll_until_done pending final rest 0 first Hn Hall) Hf)).
Qed.

Lemma resultPhase_snd (apiKey : string) (final : Operation) :
  snd (resultPhase apiKey final) =
  match op_error final with
  | Some cause =>
      Rejected (Js.newError (Js.or_else (Js.message cause)
                                        "Unknown error during video generation"))
  | None =>
      match Js.truthy (responseUri final) with
      | None => Rejected (Js.newError "No video URI returned from API")
      | Some videoUri => Resolved (videoUri ++ "&key=" ++ apiKey)%string
      end
  end.
Proof.
  unfold resultPhase. rewrite bind_snd. simpl.
  destruct (op_error final); [reflexivity|].
  now destruct (Js.truthy (responseUri final)).
Qed.

Lemma generateVideoForJob_snd (env : Env) (job : Job) (apiKey : string) :
  Js.truthy (API_KEY env) = Some apiKey ->
  snd (generateVideoForJob env job)
  = match snd (requestPhase env job) with
    | Resolved first =>
        match snd (poll (polls env) 0 first) with
        | Resolved final => snd (resultPhase apiKey final)
        | Rejected e => Rejected e
        | Suspended => Suspended
        end
    | Rejected e => Rejected e
    | Suspended => Suspended
    end.
Proof.
  intros Hkey. rewrite generateVideoForJob_phases, Hkey.
  rewrite bind_snd. simpl. rewrite bind_snd.
  destruct (snd (requestPhase env job)); try reflexivity.
  now rewrite bind_snd.
Qed.

Lemma failure_has_cause (env : Env) (job : Job) (e : Js.Error) :
  snd (generateVideoForJob env job) = Rejected e -> FailureCause env job e.
Proof.
  destruct (Js.truthy (API_KEY env)) as [apiKey|] eqn:Hkey.
  2:{ rewrite generateVideoForJob_phases, Hkey. simpl.
      intros [= <-]. now apply NoKey. }
  rewrite (generateVideoForJob_snd env job apiKey Hkey).
  destruct (requestPhase_submits_exact env job)
    as [(_ & file & Ht & Hf & Hread)|(p & _ & Hp)].
  { rewrite (requestPhase_unreadable env job file Ht Hf Hread).
    intros [= <-]. now apply (ImageUnreadable env job apiKey file). }
  rewrite (requestPhase_sent env job p Hp).
  destruct (generateVideos env p) as [e0|first] eqn:Hg.
  { intros [= <-]. now apply (RequestRefused env job apiKey p). }
  pose proof (poll_outcome (polls env) 0 first) as Hpoll.
  destruct (snd (poll (polls env) 0 first)) as [final|e0|]; [| |discriminate].
  - rewrite resultPhase_snd.
    assert (endsWith env first final) as Hend by exact Hpoll.
    destruct (op_error final) as [cause|] eqn:Herr.
    + intros [= <-].
      now apply (GenerationFailed env job apiKey p first final cause).
    + destruct (Js.truthy (responseUri final)) eqn:Huri; [discriminate|].
      intros [= <-]. now apply (NoVideo env job apiKey p first final).
  - destruct Hpoll as (Hn & pending & rest & Hpolls & Hall).
    intros [= <-].
    now apply (PollFailed env job apiKey p first pending rest e0).
Qed.

Lemma cause_makes_fail (env : Env) (job : Job) (e : Js.Error) :
  FailureCause env job e -> snd (generateVideoForJob env job) = Rejected e.
Proof.
  intros [Hkey
         |apiKey file Hkey Ht Hf Hread
         |apiKey p e0 Hkey Hp Hg
         |apiKey p first pending rest e0 Hkey Hp Hg Hn Hpolls Hall
         |apiKey p first final cause Hkey Hp Hg Hend Herr
         |apiKey p first final Hkey Hp Hg Hend Herr Huri].
  - rewrite generateVideoForJob_phases, Hkey. reflexivity.
  - rewrite (generateVideoForJob_snd env job apiKey Hkey).
    now rewrite (requestPhase_unreadable env job file Ht Hf Hread).
  - rewrite (generateVideoForJob_snd env job apiKey Hkey).
    now rewrite (requestPhase_sent env job p Hp), Hg.
  - rewrite (generateVideoForJob_snd env job apiKey Hkey).
    rewrite (requestPhase_sent env job p Hp), Hg, Hpolls.
    now rewrite (proj1 (proj2 (poll_until_done pending first rest 0 first Hn Hall))).
  - rewrite (generateVideoForJob_snd env job apiKey Hkey).
    rewrite (requestPhase_sent env job p Hp), Hg.
    rewrite (poll_ends_with env first final Hend), resultPhase_snd.
    now rewrite Herr.
  - rewrite (generateVideoForJob_snd env job apiKey Hkey).
    rewrite (requestPhase_sent env job p Hp), Hg.
    rewrite (poll_ends_with env first final Hend), resultPhase_snd.
    now rewrite Herr, Huri.
Qed.

(** X22.  [generateVideoForJob] fails exactly for one of six causes, and
    then with the error that belongs to the cause.  No API key in the
    environment: "API Key not found. Please select a key.", and nothing
    has been read, sent or reported.  With a key: the image of an image
    job cannot be read (the reader's event); the request built from the
    job is refused (whatever the remote side threw); the request is
    accepted with an unfinished operation and, after unfinished answers
    only, a poll fails (whatever it threw); the operation the polling
    ends with carries an error (its message, or "Unknown error during
    video generation" when it has none); or that operation carries
    neither an error nor a video URI ("No video URI returned from
    API"). *)
Theorem generation_fails_for_known_reasons
        (env : Env) (job : Job) (e : Js.Error) :
  (snd (generateVideoForJob env job) = Rejected e <-> FailureCause env job e)
  /\
  (Js.truthy (API_KEY env) = None -> fst (generateVideoForJob env job) = []).
Proof.
  split.
  - split; [apply failure_has_cause | apply cause_makes_fail].
  - intros Hkey. now rewrite generateVideoForJob_phases, Hkey.
Qed.

(** A server-side failure reported on the finished operation, end to
    end. *)
Lemma generation_fails_for_known_reasons_witness :
  let job := JobForm.newJob (Scenario.textForm 2) "j1" 101 in
  let e := Js.newError "Prompt rejected: it must not quote an API key" in
  snd (generateVideoForJob promptRefused job) = Rejected e /\
  FailureCause promptRefused job e /\
  FailureCause unreadable imageJob progressEvent /\
  snd (generateVideoForJob unreadable imageJob) = Rejected progressEvent.
Proof.
  intros job e.
  split; [reflexivity|]. split.
  - exact (proj1 (proj1 (generation_fails_for_known_reasons promptRefused job e))
                 eq_refl).
  - assert (FailureCause unreadable imageJob progressEvent) as Hc.
    { apply (ImageUnreadable unreadable imageJob "SECRET"
               {| file_name := "frame.png"; file_type := "image/png" |});
        reflexivity. }
    split; [exact Hc|].
    exact (proj2 (proj1 (generation_fails_for_known_reasons
                           unreadable imageJob progressEvent)) Hc).
Defined.

End ServiceDetails.

(* ===================================================================== *)
(** ** The elapsed-time display and the progress reports *)
(* ===================================================================== *)

Section Display.

Lemma uint_lacks_colon (d : Decimal.uint) :
  lacks ":" (NilEmpty.string_of_uint d).
Proof. unfold lacks. induction d; simpl; auto. Qed.

Lemma of_Z_nonneg (z : Z) :
  (0 <= z)%Z ->
  lacks ":" (Js.of_Z z) /\
  NilEmpty.int_of_string (Js.of_Z z) = Some (Z.to_int z).
Proof.
  intros Hz. split.
  - destruct z as [|p|p];
      [reflexivity | exact (uint_lacks_colon (Pos.to_uint p)) | lia].
  - unfold Js.of_Z. apply NilEmpty.isi.
Qed.

Lemma seconds_field (r : Z) :
  (0 <= r < 60)%Z ->
  lacks ":" (Js.padStart 2 "0" (Js.of_Z r)) /\
  exists d, NilEmpty.int_of_string (Js.padStart 2 "0" (Js.of_Z r)) = Some d /\
            Z.of_int d = r.
Proof.
  intros Hr.
  assert (forallb
            (fun n =>
               lacksb ":" (Js.padStart 2 "0" (Js.of_Z (Z.of_nat n)))
               && match NilEmpty.int_of_string
                          (Js.padStart 2 "0" (Js.of_Z (Z.of_nat n))) with
                  | Some d => (Z.of_int d =? Z.of_nat n)%Z
                  | None => false
                  end)
            (seq 0 60) = true) as Hall by (vm_compute; reflexivity).
  rewrite forallb_forall in Hall.
  specialize (Hall (Z.to_nat r)).
  rewrite Z2Nat.id in Hall by lia.
  assert (In (Z.to_nat r) (seq 0 60)) as Hin by (apply in_seq; lia).
  apply Hall in Hin. apply andb_true_iff in Hin. destruct Hin as (H1 & H2).
  split; [exact H1|].
  destruct (NilEmpty.int_of_string (Js.padStart 2 "0" (Js.of_Z r))) as [d|];
    [|discriminate].
  exists d. split; [reflexivity|]. now apply Z.eqb_eq.
Qed.

Lemma formatTime_reads_back (seconds : Z) :
  (0 <= seconds)%Z -> parseTime (JobQueue.formatTime seconds) = Some seconds.
Proof.
  intros Hs. unfold parseTime, JobQueue.formatTime.
  assert (0 <= seconds / 60)%Z as Hm by (apply Z.div_pos; lia).
  assert (0 <= Z.rem seconds 60 < 60)%Z as Hr by (apply Z.rem_bound_pos; lia).
  destruct (of_Z_nonneg _ Hm) as (Hm1 & Hm2).
  destruct (seconds_field _ Hr) as (Hr1 & d & Hr2 & Hr3).
  change (Js.of_Z (seconds / 60) ++ ":" ++ Js.padStart 2 "0" (Js.of_Z (Z.rem seconds 60)))%string
    with (Js.of_Z (seconds / 60)
          ++ String ":" (Js.padStart 2 "0" (Js.of_Z (Z.rem seconds 60))))%string.
  rewrite (split_header_payload ":" _ _ Hm1 Hr1).
  rewrite Hm2, Hr2. f_equal. rewrite DecimalZ.of_to, Hr3.
  rewrite Z.rem_mod_nonneg by lia.
  pose proof (Z.div_mod seconds 60). lia.
Qed.

(** X23.  The timer of a card shows whole elapsed seconds as
    minutes:seconds and the text can be read back: for a job started at
    [t] (a non-zero time stamp not in the future) the text shown at [now]
    reads back as the number of whole seconds from [t] to [now], so two
    different numbers of elapsed seconds never show the same text; a job
    without a start time shows "0:00". *)
Theorem timer_text_reads_back (job : Job) (now : Z) :
  (startTime job = None -> JobQueue.timerText job now = "0:00")
  /\
  (forall t, startTime job = Some t -> t <> 0%Z -> (t <= now)%Z ->
     parseTime (JobQueue.timerText job now) = Some ((now - t) / 1000)%Z)
  /\
  (forall a b, (0 <= a)%Z -> (0 <= b)%Z ->
     JobQueue.formatTime a = JobQueue.formatTime b -> a = b).
Proof.
  unfold JobQueue.timerText, JobQueue.elapsedAt. split; [|split].
  - intros ->. reflexivity.
  - intros t -> Hne Hle. apply Z.eqb_neq in Hne. rewrite Hne.
    apply formatTime_reads_back. apply Z.div_pos; lia.
  - intros a b Ha Hb E.
    pose proof (formatTime_reads_back a Ha) as Pa.
    pose proof (formatTime_reads_back b Hb) as Pb.
    rewrite E in Pa. congruence.
Qed.

Lemma timer_text_reads_back_witness :
  JobQueue.timerText firstStarted 326500 = "5:26" /\
  parseTime (JobQueue.timerText firstStarted 326500)
  = Some ((326500 - 201) / 1000)%Z.
Proof.
  split; [reflexivity|].
  refine (proj1 (proj2 (timer_text_reads_back firstStarted 326500%Z))
                201%Z eq_refl _ _); [discriminate | lia].
Defined.

(** X24.  A progress report changes nothing but the message: when the
    next callback of the generation of job [i] is a progress report, the
    identifiers, statuses, results, errors and start times of all jobs,
    the two flags and the set of generations in flight stay as they are,
    and the jobs named [i] show the reported text. *)
Theorem progress_report_changes_only_the_message
        (w : World) (i msg : string) (rest : list Flight) :
  nextCallback i (inflight w) = Some (Progress msg, rest) ->
  let w' := step w (Deliver i) in
  map id (jobs (component w')) = map id (jobs (component w)) /\
  map status (jobs (component w')) = map status (jobs (component w)) /\
  map videoUri (jobs (component w')) = map videoUri (jobs (component w)) /\
  map error (jobs (component w')) = map error (jobs (component w)) /\
  map startTime (jobs (component w')) = map startTime (jobs (component w)) /\
  apiKeyReady (component w') = apiKeyReady (component w) /\
  isQueueRunning (component w') = isQueueRunning (component w) /\
  map flight_jobId (inflight w') = map flight_jobId (inflight w) /\
  forall j', In j' (jobs (component w')) -> id j' = i ->
             progressMessage j' = Some msg.
Proof.
  intros Hcb w'. subst w'. simpl. rewrite Hcb. simpl.
  unfold updateJob. rewrite !map_map.
  repeat split;
    try (apply map_ext; intros a; now destruct (id a =? i)%string).
  - exact (proj2 (nextCallback_keeps _ _ _ _ Hcb) msg eq_refl).
  - intros j' Hj' Hid. apply in_map_iff in Hj'. destruct Hj' as (a & <- & _).
    destruct (String.eqb_spec (id a) i); [reflexivity|congruence].
Qed.

Lemma progress_report_changes_only_the_message_witness :
  let w := run initialWorld (firstn 4 Scenario.complete_first) in
  let rest :=
    [ {| flight_jobId := "j1";
         flight_progress :=
           [ "Sending generation request...";
             "Generating video... (5s elapsed)";
             "Generating video... (10s elapsed)";
             "Finalizing download..." ];
         flight_outcome :=
           Resolved "https://video.example/v1?alt=media&key=SECRET" |} ] in
  nextCallback "j1" (inflight w) = Some (Progress "Uploading input data...", rest) /\
  map status (jobs (component (step w (Deliver "j1"))))
  = map status (jobs (component w)) /\
  map progressMessage (jobs (component (step w (Deliver "j1"))))
  = [Some "Uploading input data..."; None].
Proof.
  intros w rest.
  assert (nextCallback "j1" (inflight w)
          = Some (Progress "Uploading input data...", rest)) as Hcb by reflexivity.
  split; [exact Hcb|]. split; [|reflexivity].
  exact (proj1 (proj2 (progress_report_changes_only_the_message w "j1" _ _ Hcb))).
Defined.

Lemma progressOf_app (t1 t2 : list Effect) :
  progressOf (t1 ++ t2) = progressOf t1 ++ progressOf t2.
Proof. unfold progressOf. apply flat_map_app. Qed.

(** X25.  The progress reports of a text job come in a fixed order: when
    the key is present, the request is accepted with an unfinished
    operation and the polls are answered by [k] unfinished operations and
    then a finished one, the reports are "Uploading input data...",
    "Sending generation request...", one "Generating video... (5s
    elapsed)", "(10s elapsed)" and so on for each of the [k + 1] polls,
    and "Finalizing download...", whatever the finished operation
    holds. *)
Theorem progress_reports_in_order
        (env : Env) (job : Job) (apiKey : string)
        (operation : Operation) (pending : list Operation) (final : Operation)
        (rest : list (Js.Error + Operation)) :
  Js.truthy (API_KEY env) = Some apiKey ->
  inputType job = TEXT ->
  (forall p, generateVideos env p = inr operation) ->
  done operation = false ->
  Forall (fun o => done o = false) pending ->
  done final = true ->
  polls env = map inr pending ++ inr final :: rest ->
  progressOf (fst (generateVideoForJob env job))
  = [ "Uploading input data..."; "Sending generation request..." ]
    ++ map pollingMessage (seq 1 (S (List.length pending)))
    ++ [ "Finalizing download..." ].
Proof.
  intros Hkey Hty Hgen Hop Hpending Hfinal Hpolls.
  rewrite generateVideoForJob_phases, Hkey.
  unfold requestPhase. rewrite Hty. rewrite Hgen.
  destruct (poll_until_done pending final rest 0 operation
                                        Hop Hpending) as (Hpoll & _).
  specialize (Hpoll Hfinal). rewrite <- Hpolls in Hpoll.
  simpl in Hpoll. destruct Hpoll as (Hres & _ & Hprog).
  unfold bind at 1. simpl.
  destruct (poll (polls env) 0 operation) as [t o]. simpl in Hres, Hprog.
  subst o. simpl.
  unfold resultPhase.
  destruct (op_error final); simpl.
  - rewrite progressOf_app, Hprog. reflexivity.
  - destruct (Js.truthy (responseUri final)); simpl;
      rewrite progressOf_app, Hprog; reflexivity.
Qed.

Lemma progress_reports_in_order_witness :
  progressOf
    (fst (generateVideoForJob Scenario.healthy
                              (JobForm.newJob (Scenario.textForm 1) "j1" 101)))
  = [ "Uploading input data..."; "Sending generation request..." ]
    ++ map pollingMessage (seq 1 (S (List.length [Scenario.waiting])))
    ++ [ "Finalizing download..." ].
Proof.
  apply (progress_reports_in_order
           Scenario.healthy _ "SECRET" Scenario.waiting [Scenario.waiting]
           (Scenario.finished "https://video.example/v1?alt=media") []);
    try reflexivity.
  repeat constructor.
Defined.

End Display.
